(** * BattleQueue-Game: the turn queue, its restricted variant and the two
      minimax engines

    A shallow embedding of [a2_skills.py], [a2_skill_decision_tree.py],
    [a2_characters.py], [a2_battle_queue.py] and [a2_playstyle.py].

    Python objects are mutable and compared by identity (no class of the
    program defines [__eq__]), so characters and queues live in a heap and
    are named by references.  A method that only reads the characters is
    first given as a function of the character store, then lifted to the
    heap.  Sprite bookkeeping ([_current_state], [_current_frame]) is left
    out: nothing below reads it. *)

From Stdlib Require Import ZArith List String Bool Lia Arith PeanoNat.
Import ListNotations.
Open Scope string_scope.
Open Scope list_scope.
Open Scope Z_scope.
Set Warnings "-register-all".

(* ================================================================== *)
(** * a2_skills.py: the skill table *)

Inductive Skill :=
| MageAttack | MageSpecial
| RogueAttack | RogueSpecial
| VampireAttack | VampireSpecial
| SorcererAttack | SorcererSpecial.

(** [Skill.__init__(cost, damage)] as called by each subclass. *)
Definition get_sp_cost (s : Skill) : Z :=
  match s with
  | MageAttack => 5 | MageSpecial => 30
  | RogueAttack => 3 | RogueSpecial => 10
  | VampireAttack => 15 | VampireSpecial => 20
  | SorcererAttack => 15 | SorcererSpecial => 20
  end.

Definition skill_damage (s : Skill) : Z :=
  match s with
  | MageAttack => 20 | MageSpecial => 40
  | RogueAttack => 15 | RogueSpecial => 20
  | VampireAttack => 20 | VampireSpecial => 30
  | SorcererAttack => 0 | SorcererSpecial => 25
  end.

(* ================================================================== *)
(** * a2_skill_decision_tree.py *)

(** What a condition function reads of a character: [get_hp()] and
    [get_sp()]. *)
Record Stats := { stat_hp : Z; stat_sp : Z }.

Inductive SkillDecisionTree :=
| SDT (value : Skill) (condition : Stats -> Stats -> bool) (priority : Z)
      (children : list SkillDecisionTree).

Definition sdt_value (t : SkillDecisionTree) : Skill :=
  match t with SDT v _ _ _ => v end.
Definition sdt_priority (t : SkillDecisionTree) : Z :=
  match t with SDT _ _ p _ => p end.

Definition is_nil {A} (l : list A) : bool :=
  match l with [] => true | _ => false end.

Fixpoint pick_skill_helper (t : SkillDecisionTree) (caster target : Stats)
  : list SkillDecisionTree :=
  match t with
  | SDT _ cond _ ch =>
      if negb (cond caster target) || is_nil ch then [t]
      else flat_map (fun child => pick_skill_helper child caster target) ch
  end.

(** The loop of [pick_skill]: keep the entry of strictly lower priority. *)
Definition lowest_priority (first_skill : SkillDecisionTree)
  (l : list SkillDecisionTree) : SkillDecisionTree :=
  fold_left (fun first skill =>
               if sdt_priority skill <? sdt_priority first then skill else first)
            l first_skill.

Definition pick_skill (t : SkillDecisionTree) (caster target : Stats)
  : option Skill :=
  match pick_skill_helper t caster target with
  | [] => None
  | first_skill :: _ =>
      Some (sdt_value
              (lowest_priority first_skill (pick_skill_helper t caster target)))
  end.

Definition f1 (caster _t : Stats) : bool := 50 <? stat_hp caster.
Definition f2 (caster _t : Stats) : bool := 20 <? stat_sp caster.
Definition f3 (_c target : Stats) : bool := 40 <? stat_sp target.
Definition f4 (caster _t : Stats) : bool := 90 <? stat_hp caster.
Definition f5 (_c target : Stats) : bool := stat_hp target <? 30.
Definition f6 (_c _t : Stats) : bool := false.

Definition create_default_tree : SkillDecisionTree :=
  let t6 := SDT RogueAttack f6 8 [] in
  let t7 := SDT RogueSpecial f6 7 [] in
  let t4 := SDT RogueAttack f4 1 [t7] in
  let t8 := SDT RogueAttack f6 6 [] in
  let t5 := SDT RogueSpecial f5 4 [t8] in
  let t3 := SDT MageSpecial f3 2 [t6] in
  let t2 := SDT MageAttack f2 3 [t5] in
  SDT MageAttack f1 5 [t2; t3; t4].

(* ================================================================== *)
(** * The object graph *)

(** Identity of a [Character] object. *)
Definition ref := nat.
(** Identity of a [BattleQueue] object. *)
Definition qref := nat.

Inductive CharClass := Mage | Rogue | Vampire | Sorcerer.

Inductive PlaystyleClass :=
| ManualPlaystyle | RandomPlaystyle | RecursiveMinimax | IterativeMinimax.

(** A playstyle is never mutated after [__init__]; [is_manual] is a
    function of the class. *)
Record Playstyle := {
  ps_class : PlaystyleClass;
  ps_battle_queue : qref
}.

Definition is_manual (p : Playstyle) : bool :=
  match ps_class p with ManualPlaystyle => true | _ => false end.

Definition Playstyle_copy (p : Playstyle) (new_battle_queue : qref) : Playstyle :=
  {| ps_class := ps_class p; ps_battle_queue := new_battle_queue |}.

Record Character := {
  char_class : CharClass;
  _name : string;
  battle_queue : qref;
  playstyle : Playstyle;
  _hp : Z;
  _sp : Z;
  enemy : option ref;
  decision_tree : option SkillDecisionTree
}.

(** [_defense] and [_skills] are fixed by the subclass constructor and
    never assigned afterwards. *)
Definition _defense (c : Character) : Z :=
  match char_class c with
  | Mage => 8 | Rogue => 10 | Vampire => 3 | Sorcerer => 10
  end.

Definition _skills (c : Character) (action : string) : option Skill :=
  if String.eqb action "A" then
    Some match char_class c with
         | Mage => MageAttack | Rogue => RogueAttack
         | Vampire => VampireAttack | Sorcerer => SorcererAttack
         end
  else if String.eqb action "S" then
    Some match char_class c with
         | Mage => MageSpecial | Rogue => RogueSpecial
         | Vampire => VampireSpecial | Sorcerer => SorcererSpecial
         end
  else None.

Definition stats_of (c : Character) : Stats :=
  {| stat_hp := _hp c; stat_sp := _sp c |}.

Definition with_hp (c : Character) (new_hp : Z) : Character :=
  {| char_class := char_class c; _name := _name c;
     battle_queue := battle_queue c; playstyle := playstyle c;
     _hp := new_hp; _sp := _sp c; enemy := enemy c;
     decision_tree := decision_tree c |}.

Definition with_sp (c : Character) (new_sp : Z) : Character :=
  {| char_class := char_class c; _name := _name c;
     battle_queue := battle_queue c; playstyle := playstyle c;
     _hp := _hp c; _sp := new_sp; enemy := enemy c;
     decision_tree := decision_tree c |}.

Definition with_enemy (c : Character) (e : option ref) : Character :=
  {| char_class := char_class c; _name := _name c;
     battle_queue := battle_queue c; playstyle := playstyle c;
     _hp := _hp c; _sp := _sp c; enemy := e;
     decision_tree := decision_tree c |}.

Definition with_decision_tree (c : Character) (t : option SkillDecisionTree)
  : Character :=
  {| char_class := char_class c; _name := _name c;
     battle_queue := battle_queue c; playstyle := playstyle c;
     _hp := _hp c; _sp := _sp c; enemy := enemy c;
     decision_tree := t |}.

(** [Character.__init__] through a subclass constructor. *)
Definition new_character (cls : CharClass) (name : string) (bq : qref)
  (ps : Playstyle) : Character :=
  {| char_class := cls; _name := name; battle_queue := bq; playstyle := ps;
     _hp := 100; _sp := 100; enemy := None; decision_tree := None |}.

(** [Character.is_valid_action]. *)
Definition is_valid_action (c : Character) (action : string) : bool :=
  match _skills c action with
  | Some skill => get_sp_cost skill <=? _sp c
  | None => false
  end.

(** [Character.get_available_actions]: the keys of [_skills] in insertion
    order, filtered. *)
Definition get_available_actions (c : Character) : list string :=
  filter (is_valid_action c) ["A"; "S"].

(* ================================================================== *)
(** * a2_battle_queue.py, as functions of the character store *)

Inductive QueueClass := BattleQueueClass | RestrictedBattleQueueClass.

(** An entry of [_can_add]: the strings ['yes'] and ['no']. *)
Inductive CanAdd := yes | no.

Definition CanAdd_eqb (a b : CanAdd) : bool :=
  match a, b with yes, yes | no, no => true | _, _ => false end.

Record Queue := {
  queue_class : QueueClass;
  _content : list ref;
  _p1 : option ref;
  _p2 : option ref;
  _can_add : list CanAdd
}.

Definition with_content (q : Queue) (l : list ref) : Queue :=
  {| queue_class := queue_class q; _content := l; _p1 := _p1 q; _p2 := _p2 q;
     _can_add := _can_add q |}.

Definition with_players (q : Queue) (p1 p2 : option ref) : Queue :=
  {| queue_class := queue_class q; _content := _content q; _p1 := p1;
     _p2 := p2; _can_add := _can_add q |}.

Definition with_can_add (q : Queue) (l : list CanAdd) : Queue :=
  {| queue_class := queue_class q; _content := _content q; _p1 := _p1 q;
     _p2 := _p2 q; _can_add := l |}.

(** [BattleQueue.__init__] and [RestrictedBattleQueue.__init__]. *)
Definition new_queue (cls : QueueClass) : Queue :=
  {| queue_class := cls; _content := []; _p1 := None; _p2 := None;
     _can_add := [] |}.

Inductive Exn :=
| IndexError | AttributeError | TypeError | KeyError | ValueError.

(** The result of a call that may raise. *)
Definition Result (A : Type) : Type := (Exn + A)%type.

(** The character store: what each reference denotes. *)
Definition Store := ref -> Character.

Section QueueMethods.
Variable st : Store.

(** The loop of [_clean_queue], on the list. *)
Fixpoint clean_list (content : list ref) : list ref :=
  match content with
  | [] => []
  | c :: rest =>
      if is_nil (get_available_actions (st c)) then clean_list rest
      else content
  end.

Definition _clean_queue (q : Queue) : Queue :=
  with_content q (clean_list (_content q)).

(** [if not self._p1: self._p1 = character; self._p2 = character.enemy]:
    a character object is truthy, so the test is [_p1 is None]. *)
Definition set_players_once (q : Queue) (character : ref) : Queue :=
  match _p1 q with
  | None => with_players q (Some character) (enemy (st character))
  | Some _ => q
  end.

(** [BattleQueue.add]. *)
Definition BattleQueue_add (q : Queue) (character : ref) : Queue :=
  set_players_once (with_content q (_content q ++ [character])) character.

(** [BattleQueue.remove]: [pop(0)] raises on the empty list. *)
Definition BattleQueue_remove (q : Queue) : Result (ref * Queue) :=
  let q := _clean_queue q in
  match _content q with
  | [] => inl IndexError
  | c :: rest => inr (c, with_content q rest)
  end.

Definition is_empty (q : Queue) : bool * Queue :=
  let q := _clean_queue q in
  (is_nil (_content q), q).

(** [peek] returns a character or, on a queue nobody was added to,
    [None]. *)
Definition peek (q : Queue) : option ref * Queue :=
  let q := _clean_queue q in
  match _content q with
  | c :: _ => (Some c, q)
  | [] => (_p1 q, q)
  end.

(** [x.get_hp()] where [x] may be [None]. *)
Definition get_hp_of (x : option ref) : Result Z :=
  match x with
  | Some c => inr (_hp (st c))
  | None => inl AttributeError
  end.

Definition is_over (q : Queue) : Result (bool * Queue) :=
  let '(e, q) := is_empty q in
  if e then inr (true, q)
  else
    match get_hp_of (_p1 q) with
    | inl e => inl e
    | inr hp1 =>
        if hp1 =? 0 then inr (true, q)
        else
          match get_hp_of (_p2 q) with
          | inl e => inl e
          | inr hp2 => if hp2 =? 0 then inr (true, q) else inr (false, q)
          end
    end.

Definition get_winner (q : Queue) : Result (option ref * Queue) :=
  match is_over q with
  | inl e => inl e
  | inr (over, q) =>
      if negb over then inr (None, q)
      else
        match get_hp_of (_p1 q) with
        | inl e => inl e
        | inr hp1 =>
            if hp1 =? 0 then inr (_p2 q, q)
            else
              match get_hp_of (_p2 q) with
              | inl e => inl e
              | inr hp2 => if hp2 =? 0 then inr (_p1 q, q) else inr (None, q)
              end
        end
  end.

(** The counting loop of [RestrictedBattleQueue.add]: [_can_add[i]] is
    read only where [_content[i] == character], and raises past the end
    of the ledger. *)
Fixpoint count_yes (content : list ref) (can_add : list CanAdd)
  (character : ref) : Result Z :=
  match content with
  | [] => inr 0
  | c :: content' =>
      if Nat.eqb c character then
        match can_add with
        | [] => inl IndexError
        | flag :: can_add' =>
            match count_yes content' can_add' character with
            | inl e => inl e
            | inr n => inr (if CanAdd_eqb flag yes then n + 1 else n)
            end
        end
      else count_yes content' (tl can_add) character
  end.

Definition append_flag (q : Queue) (flag : CanAdd) : Queue :=
  with_can_add q (_can_add q ++ [flag]).

(** [RestrictedBattleQueue.add]. *)
Definition RestrictedBattleQueue_add (q : Queue) (character : ref)
  : Result Queue :=
  match count_yes (_content q) (_can_add q) character with
  | inl e => inl e
  | inr added_yes_count =>
      let branch : Result Queue :=
        match _content q with
        | [] => inr (append_flag (BattleQueue_add q character) yes)
        | head :: _ =>
            match _can_add q with
            | [] => inl IndexError
            | flag0 :: _ =>
                if CanAdd_eqb flag0 no then inr q
                else if negb (existsb (Nat.eqb character) (_content q)) then
                  inr (append_flag (BattleQueue_add q character) yes)
                else if Nat.eqb character head
                        && negb (added_yes_count =? 2) then
                  inr (append_flag (BattleQueue_add q character) yes)
                else
                  inr (append_flag (BattleQueue_add q character) no)
            end
        end in
      match branch with
      | inl e => inl e
      | inr q => inr (set_players_once q character)
      end
  end.

(** Python's [l[start:]] for any integer [start]. *)
Definition slice_from {A} (start : Z) (l : list A) : list A :=
  if start <? 0 then
    skipn (Z.to_nat (Z.max (Z.of_nat (List.length l) + start) 0)) l
  else skipn (Z.to_nat start) l.

(** [RestrictedBattleQueue.remove]. *)
Definition RestrictedBattleQueue_remove (q : Queue) : Result (ref * Queue) :=
  let q := _clean_queue q in
  let len_ := Z.of_nat (List.length (_content q)) in
  let start := 1 + (Z.of_nat (List.length (_can_add q)) - len_) in
  let q := with_can_add q (slice_from start (_can_add q)) in
  BattleQueue_remove q.

(** Method dispatch on the class of the queue object. *)
Definition add (q : Queue) (character : ref) : Result Queue :=
  match queue_class q with
  | BattleQueueClass => inr (BattleQueue_add q character)
  | RestrictedBattleQueueClass => RestrictedBattleQueue_add q character
  end.

Definition remove (q : Queue) : Result (ref * Queue) :=
  match queue_class q with
  | BattleQueueClass => BattleQueue_remove q
  | RestrictedBattleQueueClass => RestrictedBattleQueue_remove q
  end.

End QueueMethods.

(* ================================================================== *)
(** * The heap and the monad of calls *)

Record Heap := {
  chars : Store;
  queues : qref -> Queue;
  next_char : nat;
  next_queue : nat
}.

Definition upd {A} (f : nat -> A) (i : nat) (v : A) : nat -> A :=
  fun j => if Nat.eqb j i then v else f j.

(** A call returns a value and a heap, raises, or exhausts the fuel of a
    loop or of the recursion. *)
Inductive Outcome (A : Type) :=
| Ok (a : A) (h : Heap)
| Raise (e : Exn)
| OutOfFuel.
Arguments Ok {A} a h.
Arguments Raise {A} e.
Arguments OutOfFuel {A}.

Definition M (A : Type) : Type := Heap -> Outcome A.

Definition ret {A} (a : A) : M A := fun h => Ok a h.

Definition bind {A B} (m : M A) (k : A -> M B) : M B :=
  fun h =>
    match m h with
    | Ok a h' => k a h'
    | Raise e => Raise e
    | OutOfFuel => OutOfFuel
    end.

Definition raise {A} (e : Exn) : M A := fun _ => Raise e.
Definition out_of_fuel {A} : M A := fun _ => OutOfFuel.

Notation "x <- m ;; k" := (bind m (fun x => k))
  (at level 61, m at next level, right associativity).
Notation "m ;; k" := (bind m (fun _ => k))
  (at level 61, right associativity).

Definition get_char (c : ref) : M Character := fun h => Ok (chars h c) h.

Definition set_char (c : ref) (v : Character) : M unit :=
  fun h => Ok tt {| chars := upd (chars h) c v; queues := queues h;
                    next_char := next_char h; next_queue := next_queue h |}.

Definition get_queue (q : qref) : M Queue := fun h => Ok (queues h q) h.

Definition set_queue (q : qref) (v : Queue) : M unit :=
  fun h => Ok tt {| chars := chars h; queues := upd (queues h) q v;
                    next_char := next_char h; next_queue := next_queue h |}.

(** A constructor call: the new object gets the next free identity. *)
Definition alloc_char (v : Character) : M ref :=
  fun h => Ok (next_char h)
              {| chars := upd (chars h) (next_char h) v; queues := queues h;
                 next_char := S (next_char h); next_queue := next_queue h |}.

Definition alloc_queue (v : Queue) : M qref :=
  fun h => Ok (next_queue h)
              {| chars := chars h; queues := upd (queues h) (next_queue h) v;
                 next_char := next_char h; next_queue := S (next_queue h) |}.

(** [x.method()] where [x] may be [None]. *)
Definition deref (x : option ref) : M ref :=
  match x with Some c => ret c | None => raise AttributeError end.

(** A queue method run on the queue object [q] of the heap. *)
Definition on_queue {A} (q : qref)
  (f : Store -> Queue -> Result (A * Queue)) : M A :=
  fun h =>
    match f (chars h) (queues h q) with
    | inl e => Raise e
    | inr (a, q') => (set_queue q q' ;; ret a) h
    end.

Definition bq_add (q : qref) (character : ref) : M unit :=
  on_queue q (fun st s =>
    match add st s character with
    | inl e => inl e
    | inr s' => inr (tt, s')
    end).

Definition bq_remove (q : qref) : M ref := on_queue q remove.
Definition bq_is_empty (q : qref) : M bool :=
  on_queue q (fun st s => inr (is_empty st s)).
Definition bq_peek (q : qref) : M (option ref) :=
  on_queue q (fun st s => inr (peek st s)).
Definition bq_is_over (q : qref) : M bool := on_queue q is_over.
Definition bq_get_winner (q : qref) : M (option ref) := on_queue q get_winner.

(* ================================================================== *)
(** * a2_characters.py and the effects of the skills *)

Definition get_hp (c : ref) : M Z := ch <- get_char c ;; ret (_hp ch).
Definition get_sp (c : ref) : M Z := ch <- get_char c ;; ret (_sp ch).

Definition set_hp (c : ref) (new_hp : Z) : M unit :=
  ch <- get_char c ;; set_char c (with_hp ch new_hp).

Definition set_sp (c : ref) (new_sp : Z) : M unit :=
  ch <- get_char c ;; set_char c (with_sp ch new_sp).

Definition set_enemy (c : ref) (e : option ref) : M unit :=
  ch <- get_char c ;; set_char c (with_enemy ch e).

Definition set_skill_decision_tree (c : ref) (t : option SkillDecisionTree)
  : M unit :=
  ch <- get_char c ;; set_char c (with_decision_tree ch t).

Definition reduce_sp (c : ref) (cost : Z) : M unit :=
  ch <- get_char c ;; set_char c (with_sp ch (_sp ch - cost)).

Definition apply_damage (c : ref) (damage : Z) : M unit :=
  ch <- get_char c ;;
  let damage := damage - _defense ch in
  set_char c (with_hp ch (Z.max (_hp ch - damage) 0)).

(** [Skill._deal_damage]; the target is [caster.enemy], which may be
    [None]. *)
Definition _deal_damage (s : Skill) (caster : ref) (target : option ref)
  : M unit :=
  reduce_sp caster (get_sp_cost s) ;;
  t <- deref target ;;
  apply_damage t (skill_damage s).

(** [caster.battle_queue.add(x)]. *)
Definition add_to_queue_of (caster : ref) (x : ref) : M unit :=
  ch <- get_char caster ;; bq_add (battle_queue ch) x.

(** [NormalAttack.use]. *)
Definition NormalAttack_use (s : Skill) (caster : ref) (target : option ref)
  : M unit :=
  _deal_damage s caster target ;;
  add_to_queue_of caster caster.

(** The loop [while not bq.is_empty(): bq.remove()] of
    [SorcererSpecial.use]. *)
Fixpoint drain (fuel : nat) (q : qref) : M unit :=
  e <- bq_is_empty q ;;
  if e then ret tt
  else
    match fuel with
    | O => out_of_fuel
    | S fuel' => bq_remove q ;; drain fuel' q
    end.

(** [Skill.use], by the class of the skill object. *)
Definition use (s : Skill) (caster : ref) (target : option ref) : M unit :=
  match s with
  | MageAttack | RogueAttack => NormalAttack_use s caster target
  | MageSpecial =>
      _deal_damage s caster target ;;
      t <- deref target ;;
      add_to_queue_of caster t ;;
      add_to_queue_of caster caster
  | RogueSpecial =>
      _deal_damage s caster target ;;
      add_to_queue_of caster caster ;;
      add_to_queue_of caster caster
  | VampireAttack =>
      t <- deref target ;;
      former_hp <- get_hp t ;;
      NormalAttack_use s caster target ;;
      aftermath_hp <- get_hp t ;;
      hp <- get_hp caster ;;
      set_hp caster (hp + (former_hp - aftermath_hp))
  | VampireSpecial =>
      t <- deref target ;;
      former_hp <- get_hp t ;;
      _deal_damage s caster target ;;
      aftermath_hp <- get_hp t ;;
      hp <- get_hp caster ;;
      set_hp caster (hp + (former_hp - aftermath_hp)) ;;
      add_to_queue_of caster caster ;;
      add_to_queue_of caster caster ;;
      add_to_queue_of caster t
  | SorcererAttack =>
      t <- deref target ;;
      former_hp <- get_hp t ;;
      _deal_damage s caster target ;;
      set_hp t former_hp
  | SorcererSpecial =>
      ch <- get_char caster ;;
      q <- get_queue (battle_queue ch) ;;
      drain (List.length (_content q)) (battle_queue ch) ;;
      _deal_damage s caster target ;;
      t <- deref target ;;
      add_to_queue_of caster caster ;;
      add_to_queue_of caster t ;;
      add_to_queue_of caster caster
  end.

(** [self._skills[key]] for the two keys the program uses. *)
Definition skill_of (ch : Character) (key : string) : M Skill :=
  match _skills ch key with
  | Some s => ret s
  | None => raise KeyError
  end.

(** [Character.attack] and [Character.special_attack]. *)
Definition Character_attack (c : ref) : M unit :=
  ch <- get_char c ;;
  s <- skill_of ch "A" ;;
  use s c (enemy ch).

Definition special_attack (c : ref) : M unit :=
  ch <- get_char c ;;
  s <- skill_of ch "S" ;;
  use s c (enemy ch).

(** [Sorcerer.attack].  Every skill dereferences its target, so a sorcerer
    without an enemy raises [AttributeError] whichever skill is picked;
    the model raises it before the conditions are evaluated. *)
Definition Sorcerer_attack (c : ref) : M unit :=
  former_sp <- get_sp c ;;
  ch <- get_char c ;;
  match decision_tree ch with
  | None => raise AttributeError
  | Some tree =>
      t <- deref (enemy ch) ;;
      tch <- get_char t ;;
      match pick_skill tree (stats_of ch) (stats_of tch) with
      | None => raise IndexError
      | Some s =>
          use s c (enemy ch) ;;
          set_sp c former_sp ;;
          Character_attack c
      end
  end.

(** [c.attack()], dispatched on the class of [c]. *)
Definition attack (c : ref) : M unit :=
  ch <- get_char c ;;
  match char_class ch with
  | Sorcerer => Sorcerer_attack c
  | _ => Character_attack c
  end.

(** [Character._set_copy_attributes] and its override in [Sorcerer]. *)
Definition _set_copy_attributes (self other : ref) : M unit :=
  ch <- get_char self ;;
  set_hp other (_hp ch) ;;
  set_sp other (_sp ch) ;;
  match char_class ch with
  | Sorcerer =>
      ch <- get_char self ;;
      set_skill_decision_tree other (decision_tree ch)
  | _ => ret tt
  end.

(** [Mage.copy], [Rogue.copy], [Vampire.copy], [Sorcerer.copy]. *)
Definition Character_copy (self : ref) (new_battle_queue : qref) : M ref :=
  ch <- get_char self ;;
  copy <- alloc_char
            (new_character (char_class ch) (_name ch) new_battle_queue
               (Playstyle_copy (playstyle ch) new_battle_queue)) ;;
  _set_copy_attributes self copy ;;
  ret copy.

Definition option_ref_eqb (a b : option ref) : bool :=
  match a, b with
  | Some x, Some y => Nat.eqb x y
  | None, None => true
  | _, _ => false
  end.

(** The replay loop of [BattleQueue.copy]. *)
Fixpoint replay (content : list ref) (p1 : option ref) (new_battle_queue : qref)
  (p1_copy p2_copy : ref) : M unit :=
  match content with
  | [] => ret tt
  | character :: rest =>
      (if option_ref_eqb (Some character) p1
       then bq_add new_battle_queue p1_copy
       else bq_add new_battle_queue p2_copy) ;;
      replay rest p1 new_battle_queue p1_copy p2_copy
  end.

(** The statements both [copy] methods start with: the new queue object,
    the two copies, and their [enemy] links. *)
Definition copy_prelude (cls : QueueClass) (self : qref)
  : M (qref * ref * ref) :=
  new_battle_queue <- alloc_queue (new_queue cls) ;;
  s <- get_queue self ;;
  p1 <- deref (_p1 s) ;;
  p1_copy <- Character_copy p1 new_battle_queue ;;
  s <- get_queue self ;;
  p2 <- deref (_p2 s) ;;
  p2_copy <- Character_copy p2 new_battle_queue ;;
  set_enemy p1_copy (Some p2_copy) ;;
  set_enemy p2_copy (Some p1_copy) ;;
  ret (new_battle_queue, p1_copy, p2_copy).

(** [BattleQueue.copy]. *)
Definition BattleQueue_copy (self : qref) : M qref :=
  x <- copy_prelude BattleQueueClass self ;;
  let '(new_battle_queue, p1_copy, p2_copy) := x in
  bq_add new_battle_queue p1_copy ;;
  e <- bq_is_empty new_battle_queue ;;
  (if negb e then bq_remove new_battle_queue ;; ret tt else ret tt) ;;
  s <- get_queue self ;;
  replay (_content s) (_p1 s) new_battle_queue p1_copy p2_copy ;;
  ret new_battle_queue.

(** [RestrictedBattleQueue.copy]. *)
Definition RestrictedBattleQueue_copy (self : qref) : M qref :=
  x <- copy_prelude RestrictedBattleQueueClass self ;;
  let '(new_battle_queue, p1_copy, p2_copy) := x in
  n <- get_queue new_battle_queue ;;
  set_queue new_battle_queue (with_players n (Some p1_copy) (Some p2_copy)) ;;
  s <- get_queue self ;;
  let our_list :=
    map (fun character =>
           if option_ref_eqb (Some character) (_p1 s) then p1_copy else p2_copy)
        (_content s) in
  let our_can_add := map (fun can => can) (_can_add s) in
  n <- get_queue new_battle_queue ;;
  set_queue new_battle_queue (with_can_add (with_content n our_list) our_can_add) ;;
  ret new_battle_queue.

Definition bq_copy (self : qref) : M qref :=
  s <- get_queue self ;;
  match queue_class s with
  | BattleQueueClass => BattleQueue_copy self
  | RestrictedBattleQueueClass => RestrictedBattleQueue_copy self
  end.

(* ================================================================== *)
(** * a2_playstyle.py: the recursive engine *)

Definition is_some {A} (x : option A) : bool :=
  match x with Some _ => true | None => false end.

(** [bq.peek().is_valid_action(action)]. *)
Definition peek_is_valid_action (bq : qref) (action : string) : M bool :=
  p <- bq_peek bq ;; c <- deref p ;; ch <- get_char c ;;
  ret (is_valid_action ch action).

(** [bq.peek().get_available_actions()]. *)
Definition peek_get_available_actions (bq : qref) : M (list string) :=
  p <- bq_peek bq ;; c <- deref p ;; ch <- get_char c ;;
  ret (get_available_actions ch).

(** The score of a state that is over, as both engines compute it:
    [peek().get_hp() if get_winner() == peek()
     else -1 * get_winner().get_hp()] under [if get_winner():],
    and [0] otherwise. *)
Definition over_score (bq : qref) : M Z :=
  w <- bq_get_winner bq ;;
  if is_some w then
    w <- bq_get_winner bq ;;
    p <- bq_peek bq ;;
    if option_ref_eqb w p then
      p <- bq_peek bq ;; c <- deref p ;; get_hp c
    else
      w <- bq_get_winner bq ;; c <- deref w ;; hp <- get_hp c ;;
      ret (-1 * hp)
  else ret 0.

(** The step both engines take on a copy: the head makes its move and,
    if it can still act, its turn is removed. *)
Definition play (bq : qref) (move : ref -> M unit) : M unit :=
  p <- bq_peek bq ;; c <- deref p ;;
  move c ;;
  acts <- peek_get_available_actions bq ;;
  if negb (is_nil acts) then bq_remove bq ;; ret tt else ret tt.

(** [score(copy) if before == copy.peek() else -1 * score(copy)], after the
    move [move] was played on [copy]. *)
Definition score_after (score : qref -> M Z) (copy : qref)
  (before : option ref) (move : ref -> M unit) : M Z :=
  play copy move ;;
  player <- bq_peek copy ;;
  if option_ref_eqb before player then score copy
  else s <- score copy ;; ret (-1 * s).

Fixpoint get_state_score (fuel : nat) (battle_queue : qref) : M Z :=
  match fuel with
  | O => out_of_fuel
  | S fuel' =>
      over <- bq_is_over battle_queue ;;
      if over then over_score battle_queue
      else
        bq_copy1 <- bq_copy battle_queue ;;
        bq_copy2 <- bq_copy battle_queue ;;
        copy1_player <- bq_peek bq_copy1 ;;
        valid_s <- peek_is_valid_action bq_copy1 "S" ;;
        copy1_score <-
          (if valid_s then
             score_after (get_state_score fuel') bq_copy1 copy1_player
               special_attack
           else ret (-42423232424)) ;;
        copy2_player <- bq_peek bq_copy2 ;;
        valid_a <- peek_is_valid_action bq_copy2 "A" ;;
        copy2_score <-
          (if valid_a then
             score_after (get_state_score fuel') bq_copy2 copy2_player attack
           else ret (-64545353434)) ;;
        ret (Z.max copy2_score copy1_score)
  end.

(** The last expression of both [select_attack] methods. *)
Definition choose (copy1_score copy2_score : Z) : string :=
  let best_score := Z.max copy2_score copy1_score in
  if best_score =? copy1_score then "A"
  else if best_score =? copy2_score then "S"
  else "X".

(** The two scores [select_attack] compares: [copy1_score] for ['A'] and
    [copy2_score] for ['S'].  [score] is the evaluator of the engine. *)
Definition select_attack_scores (score : qref -> M Z) (battle_queue : qref)
  : M (Z * Z) :=
  copy1 <- bq_copy battle_queue ;;
  copy2 <- bq_copy battle_queue ;;
  player <- bq_peek copy1 ;;
  valid_a <- peek_is_valid_action copy1 "A" ;;
  copy1_score <-
    (if valid_a then score_after score copy1 player attack
     else ret (-5445543)) ;;
  player2 <- bq_peek copy2 ;;
  valid_s <- peek_is_valid_action copy2 "S" ;;
  copy2_score <-
    (if valid_s then score_after score copy2 player2 special_attack
     else ret (-6476444)) ;;
  ret (copy1_score, copy2_score).

Definition select_attack (score : qref -> M Z) (battle_queue : qref)
  : M string :=
  scores <- select_attack_scores score battle_queue ;;
  ret (choose (fst scores) (snd scores)).

(** [RecursiveMinimax.select_attack], on the queue of the playstyle. *)
Definition RecursiveMinimax_select_attack (fuel : nat) (battle_queue : qref)
  : M string :=
  select_attack (get_state_score fuel) battle_queue.

(* ================================================================== *)
(** * a2_playstyle.py: the iterative engine *)

(** A [Tree] object.  [children] is [None] until the node is expanded. *)
Record Tree := {
  state : qref;
  children : option (list nat);
  score : option Z
}.

(** The [Tree] objects created by one call of [iterative_get_score], by
    identity: the stack and the [children] lists share them. *)
Record Trees := {
  tree_at : nat -> Tree;
  next_tree : nat
}.

Definition no_trees : Trees :=
  {| tree_at := fun _ => {| state := O; children := None; score := None |};
     next_tree := O |}.

Definition new_tree (ts : Trees) (s : qref) : nat * Trees :=
  (next_tree ts,
   {| tree_at := upd (tree_at ts) (next_tree ts)
                   {| state := s; children := None; score := None |};
      next_tree := S (next_tree ts) |}).

Definition set_children (ts : Trees) (n : nat) (l : list nat) : Trees :=
  {| tree_at := upd (tree_at ts) n
                  {| state := state (tree_at ts n); children := Some l;
                     score := score (tree_at ts n) |};
     next_tree := next_tree ts |}.

Definition set_score (ts : Trees) (n : nat) (s : Z) : Trees :=
  {| tree_at := upd (tree_at ts) n
                  {| state := state (tree_at ts n);
                     children := children (tree_at ts n); score := Some s |};
     next_tree := next_tree ts |}.

Definition children_list (t : Tree) : list nat :=
  match children t with Some l => l | None => [] end.

(** One [if] of [removed_helper]: a child for [action], if affordable. *)
Definition expand_move (ts : Trees) (removed : nat) (action : string)
  (move : ref -> M unit) : M Trees :=
  valid <- peek_is_valid_action (state (tree_at ts removed)) action ;;
  if valid then
    c <- bq_copy (state (tree_at ts removed)) ;;
    let '(copy, ts) := new_tree ts c in
    play (state (tree_at ts copy)) move ;;
    ret (set_children ts removed (children_list (tree_at ts removed) ++ [copy]))
  else ret ts.

Definition removed_helper (ts : Trees) (removed : nat) : M Trees :=
  let ts := set_children ts removed [] in
  ts <- expand_move ts removed "A" attack ;;
  expand_move ts removed "S" special_attack.

(** [type(x)] for a character or [None]. *)
Definition type_of (x : option ref) : M (option CharClass) :=
  match x with
  | Some c => ch <- get_char c ;; ret (Some (char_class ch))
  | None => ret None
  end.

Definition CharClass_eqb (a b : CharClass) : bool :=
  match a, b with
  | Mage, Mage | Rogue, Rogue | Vampire, Vampire | Sorcerer, Sorcerer => true
  | _, _ => false
  end.

Definition type_eqb (a b : option CharClass) : bool :=
  match a, b with
  | Some x, Some y => CharClass_eqb x y
  | None, None => true
  | _, _ => false
  end.

(** The list comprehension of the fold.  A child is scored before its
    parent is popped again; an unscored child would make the arithmetic
    raise. *)
Fixpoint child_scores (ts : Trees) (player : option ref) (l : list nat)
  : M (list Z) :=
  match l with
  | [] => ret []
  | child :: rest =>
      p <- bq_peek (state (tree_at ts child)) ;;
      tc <- type_of p ;;
      tp <- type_of player ;;
      match score (tree_at ts child) with
      | None => raise TypeError
      | Some s =>
          let v := if type_eqb tc tp then s else -1 * s in
          vs <- child_scores ts player rest ;;
          ret (v :: vs)
      end
  end.

(** Python's [max] of a list; it raises on the empty list. *)
Definition max_list (l : list Z) : M Z :=
  match l with
  | [] => raise ValueError
  | x :: rest => ret (fold_left Z.max rest x)
  end.

(** The [while stack:] loop.  The head of [stack] is the top:
    [stack.pop()] takes it and [stack.append] pushes on it. *)
Fixpoint iterative_loop (fuel : nat) (ts : Trees) (stack : list nat)
  : M Trees :=
  match stack with
  | [] => ret ts
  | removed :: stack =>
      match fuel with
      | O => out_of_fuel
      | S fuel' =>
          let st := state (tree_at ts removed) in
          over <- bq_is_over st ;;
          if over then
            s <- over_score st ;;
            iterative_loop fuel' (set_score ts removed s) stack
          else if is_nil (children_list (tree_at ts removed)) then
            ts <- removed_helper ts removed ;;
            iterative_loop fuel' ts
              (rev (children_list (tree_at ts removed)) ++ removed :: stack)
          else
            player <- bq_peek st ;;
            vs <- child_scores ts player (children_list (tree_at ts removed)) ;;
            s <- max_list vs ;;
            iterative_loop fuel' (set_score ts removed s) stack
      end
  end.

Definition iterative_get_score (fuel : nat) (battle_queue : qref) : M Z :=
  c <- bq_copy battle_queue ;;
  let '(state, ts) := new_tree no_trees c in
  ts <- iterative_loop fuel ts [state] ;;
  match score (tree_at ts state) with
  | Some s => ret s
  | None => raise TypeError
  end.

(** [IterativeMinimax.select_attack]. *)
Definition IterativeMinimax_select_attack (fuel : nat) (battle_queue : qref)
  : M string :=
  select_attack (iterative_get_score fuel) battle_queue.

(* ================================================================== *)
(** * Sequences of queue operations *)

(** What [copy] leaves in the new queue object, given the identities of
    the two copied participants (see [bq_copy_state] below for the link
    with [bq_copy]). *)
Definition copy_state (q : Queue) (p1_copy p2_copy : ref) : Queue :=
  {| queue_class := queue_class q;
     _content :=
       map (fun character =>
              if option_ref_eqb (Some character) (_p1 q) then p1_copy
              else p2_copy) (_content q);
     _p1 := Some p1_copy;
     _p2 := Some p2_copy;
     _can_add :=
       match queue_class q with
       | BattleQueueClass => []
       | RestrictedBattleQueueClass => _can_add q
       end |}.

(** The public operations on one queue object.  [OpCopy] follows the
    copy. *)
Inductive QueueOp :=
| OpAdd (character : ref)
| OpRemove
| OpPeek
| OpIsEmpty
| OpIsOver
| OpCopy (p1_copy p2_copy : ref).

(** One operation, with the characters as they are when it is called. *)
Definition exec_op (st : Store) (op : QueueOp) (q : Queue) : Result Queue :=
  match op with
  | OpAdd c => add st q c
  | OpRemove =>
      match remove st q with inl e => inl e | inr (_, q') => inr q' end
  | OpPeek => inr (snd (peek st q))
  | OpIsEmpty => inr (snd (is_empty st q))
  | OpIsOver =>
      match is_over st q with inl e => inl e | inr (_, q') => inr q' end
  | OpCopy p1_copy p2_copy =>
      if is_some (_p1 q) && is_some (_p2 q)
      then inr (copy_state q p1_copy p2_copy)
      else inl AttributeError
  end.

(** A sequence stops at the first exception. *)
Fixpoint exec_ops (ops : list (Store * QueueOp)) (q : Queue) : Result Queue :=
  match ops with
  | [] => inr q
  | (st, op) :: ops' =>
      match exec_op st op q with
      | inl e => inl e
      | inr q' => exec_ops ops' q'
      end
  end.

Definition reachable (q : Queue) : Prop :=
  exists ops, exec_ops ops (new_queue (queue_class q)) = inr q.

(** The number of occurrences of [character] marked ['yes'], entry [i] of
    the ledger read for entry [i] of the sequence. *)
Fixpoint eligible_occurrences (content : list ref) (can_add : list CanAdd)
  (character : ref) : nat :=
  match content, can_add with
  | c :: content', flag :: can_add' =>
      ((if Nat.eqb c character && CanAdd_eqb flag yes then 1 else 0)
       + eligible_occurrences content' can_add' character)%nat
  | _, _ => O
  end.

(* ================================================================== *)
(** * Properties of the queue methods *)

Section QueueFacts.
Variable st : Store.

Lemma clean_list_length (l : list ref) :
  (List.length (clean_list st l) <= List.length l)%nat.
Proof.
  induction l as [|c l IH]; simpl; [lia|].
  destruct (is_nil (get_available_actions (st c))); simpl; lia.
Qed.

Lemma clean_list_idempotent (l : list ref) :
  clean_list st (clean_list st l) = clean_list st l.
Proof.
  induction l as [|c l IH]; simpl; [reflexivity|].
  destruct (is_nil (get_available_actions (st c))) eqn:E; [exact IH|].
  simpl. rewrite E. reflexivity.
Qed.

(** The head that survives pruning can act. *)
Lemma clean_list_head (l : list ref) (c : ref) (rest : list ref) :
  clean_list st l = c :: rest ->
  is_nil (get_available_actions (st c)) = false.
Proof.
  induction l as [|x l IH]; simpl; [discriminate|].
  destruct (is_nil (get_available_actions (st x))) eqn:E; [exact IH|].
  intros H. inversion H; subst. exact E.
Qed.

Lemma clean_queue_class (q : Queue) :
  queue_class (_clean_queue st q) = queue_class q.
Proof. reflexivity. Qed.

Lemma set_players_once_p1 (q : Queue) (c : ref) :
  _p1 (set_players_once st q c) <> None.
Proof.
  unfold set_players_once.
  destruct (_p1 q) eqn:E; simpl; [rewrite E|]; discriminate.
Qed.

Lemma set_players_once_established (q : Queue) (c : ref) :
  _p1 q <> None -> set_players_once st q c = q.
Proof.
  intros H. unfold set_players_once.
  destruct (_p1 q); [reflexivity|congruence].
Qed.

Lemma set_players_once_fields (q : Queue) (c : ref) :
  _content (set_players_once st q c) = _content q
  /\ _can_add (set_players_once st q c) = _can_add q
  /\ queue_class (set_players_once st q c) = queue_class q.
Proof. unfold set_players_once. destruct (_p1 q); auto. Qed.

Lemma BattleQueue_add_p1 (q : Queue) (c : ref) :
  _p1 (BattleQueue_add st q c) <> None.
Proof. apply set_players_once_p1. Qed.

Lemma BattleQueue_add_content (q : Queue) (c : ref) :
  _content (BattleQueue_add st q c) = _content q ++ [c].
Proof.
  unfold BattleQueue_add.
  destruct (set_players_once_fields (with_content q (_content q ++ [c])) c)
    as (H & _ & _). exact H.
Qed.

Lemma BattleQueue_add_can_add (q : Queue) (c : ref) :
  _can_add (BattleQueue_add st q c) = _can_add q.
Proof.
  unfold BattleQueue_add.
  destruct (set_players_once_fields (with_content q (_content q ++ [c])) c)
    as (_ & H & _). exact H.
Qed.

Lemma BattleQueue_add_class (q : Queue) (c : ref) :
  queue_class (BattleQueue_add st q c) = queue_class q.
Proof.
  unfold BattleQueue_add.
  destruct (set_players_once_fields (with_content q (_content q ++ [c])) c)
    as (_ & _ & H). exact H.
Qed.

(** On a queue whose participants are set, [BattleQueue.add] only
    appends. *)
Lemma BattleQueue_add_established (q : Queue) (c : ref) :
  _p1 q <> None ->
  BattleQueue_add st q c = with_content q (_content q ++ [c]).
Proof.
  intros H. unfold BattleQueue_add.
  apply set_players_once_established. exact H.
Qed.

(** The counting loop does not raise when the ledger covers the
    sequence. *)
Lemma count_yes_returns (content : list ref) (can_add : list CanAdd)
  (c : ref) :
  (List.length content <= List.length can_add)%nat ->
  exists n, count_yes content can_add c = inr n.
Proof.
  revert can_add.
  induction content as [|x content IH]; intros can_add Hlen; simpl.
  - eexists; reflexivity.
  - destruct can_add as [|flag can_add]; simpl in Hlen; [lia|].
    destruct (IH can_add ltac:(lia)) as [n Hn].
    destruct (Nat.eqb x c); simpl; rewrite Hn; eexists; reflexivity.
Qed.

End QueueFacts.

(** The ledger is never shorter than the sequence, and the participants
    are set as soon as anything was added. *)
Definition queue_inv (q : Queue) : Prop :=
  (queue_class q = RestrictedBattleQueueClass ->
   (List.length (_content q) <= List.length (_can_add q))%nat)
  /\ (_p1 q = None -> _content q = [] /\ _can_add q = []).

Lemma queue_inv_new (cls : QueueClass) : queue_inv (new_queue cls).
Proof. split; simpl; intros; [lia|auto]. Qed.

Lemma queue_inv_clean (st : Store) (q : Queue) :
  queue_inv q -> queue_inv (_clean_queue st q).
Proof.
  intros [H1 H2]. split; simpl.
  - intros Hc. specialize (H1 Hc).
    pose proof (clean_list_length st (_content q)). lia.
  - intros Hp. destruct (H2 Hp) as [Hq Hl]. rewrite Hq. auto.
Qed.

Lemma slice_from_length {A} (start : Z) (l : list A) :
  0 <= start ->
  List.length (slice_from start l) = (List.length l - Z.to_nat start)%nat.
Proof.
  intros H. unfold slice_from.
  destruct (start <? 0) eqn:E; [apply Z.ltb_lt in E; lia|].
  apply length_skipn.
Qed.

Lemma queue_inv_add (st : Store) (q q' : Queue) (c : ref) :
  queue_inv q -> add st q c = inr q' ->
  queue_inv q' /\ _p1 q' <> None /\ queue_class q' = queue_class q.
Proof.
  intros [H1 H2] Hadd. unfold add in Hadd.
  destruct (queue_class q) eqn:Hcls.
  - (* BattleQueue.add *)
    inversion Hadd; subst q'; clear Hadd.
    pose proof (BattleQueue_add_p1 st q c) as Hp.
    pose proof (BattleQueue_add_class st q c) as Hk.
    repeat split; auto; try congruence.
  - (* RestrictedBattleQueue.add *)
    specialize (H1 eq_refl).
    unfold RestrictedBattleQueue_add in Hadd.
    destruct (count_yes (_content q) (_can_add q) c) as [e|n]; [discriminate|].
    assert (Happ : forall flag,
               let r := append_flag (BattleQueue_add st q c) flag in
               queue_inv r /\ _p1 r <> None /\
               queue_class r = RestrictedBattleQueueClass).
    { intros flag. simpl.
      pose proof (BattleQueue_add_p1 st q c) as Hp.
      pose proof (BattleQueue_add_class st q c) as Hk.
      pose proof (BattleQueue_add_content st q c) as Hc.
      pose proof (BattleQueue_add_can_add st q c) as Hl.
      unfold append_flag, queue_inv; simpl.
      rewrite Hc, Hl, !length_app; simpl.
      repeat split; try congruence; try lia. }
    assert (Hfin : forall r,
               (queue_inv r /\ _p1 r <> None /\
                queue_class r = RestrictedBattleQueueClass) ->
               inr (set_players_once st r c) = (inr q' : Result Queue) ->
               queue_inv q' /\ _p1 q' <> None /\
               queue_class q' = RestrictedBattleQueueClass).
    { intros r (Hi & Hp & Hk) Hr.
      rewrite set_players_once_established in Hr by exact Hp.
      inversion Hr; subst q'. auto. }
    destruct (_content q) as [|head rest] eqn:Hcont.
    + apply (Hfin _ (Happ yes)). exact Hadd.
    + destruct (_can_add q) as [|flag0 ledger] eqn:Hled; [discriminate|].
      destruct (CanAdd_eqb flag0 no).
      * (* rejected: nothing is appended *)
        assert (Hp1 : _p1 q <> None).
        { intros Hn. destruct (H2 Hn) as [Habs _]. congruence. }
        rewrite set_players_once_established in Hadd by exact Hp1.
        inversion Hadd; subst q'.
        split; [|split; assumption].
        unfold queue_inv. rewrite Hcont, Hled.
        split; [intros _; exact H1 | exact H2].
      * destruct (negb (existsb (Nat.eqb c) (head :: rest)));
          [apply (Hfin _ (Happ yes)); exact Hadd|].
        destruct (Nat.eqb c head && negb (n =? 2));
          [apply (Hfin _ (Happ yes)) | apply (Hfin _ (Happ no))]; exact Hadd.
Qed.

Lemma BattleQueue_remove_fields (st : Store) (q q' : Queue) (c : ref) :
  BattleQueue_remove st q = inr (c, q') ->
  clean_list st (_content q) = c :: _content q'
  /\ _can_add q' = _can_add q /\ _p1 q' = _p1 q /\ _p2 q' = _p2 q
  /\ queue_class q' = queue_class q.
Proof.
  intros Hrem. unfold BattleQueue_remove in Hrem. simpl in Hrem.
  destruct (clean_list st (_content q)) as [|x rest] eqn:E; [discriminate|].
  inversion Hrem; subst. simpl. auto.
Qed.

Lemma queue_inv_remove (st : Store) (q q' : Queue) (c : ref) :
  queue_inv q -> remove st q = inr (c, q') ->
  queue_inv q' /\ _p1 q' = _p1 q /\ queue_class q' = queue_class q.
Proof.
  intros [H1 H2] Hrem. unfold remove in Hrem.
  assert (Hp : _p1 q <> None).
  { intros Hn. destruct (H2 Hn) as [Hc _].
    destruct (queue_class q);
      [unfold BattleQueue_remove in Hrem
      |unfold RestrictedBattleQueue_remove, BattleQueue_remove in Hrem];
      simpl in Hrem; rewrite Hc in Hrem; simpl in Hrem; discriminate. }
  destruct (queue_class q) eqn:Hcls.
  - destruct (BattleQueue_remove_fields st q q' c Hrem)
      as (Hc & Hl & Hp1 & _ & Hk).
    split; [|split; congruence].
    split; [intros Hx; rewrite Hk, Hcls in Hx; discriminate|].
    intros Hn. rewrite Hp1 in Hn. contradiction.
  - specialize (H1 eq_refl).
    unfold RestrictedBattleQueue_remove in Hrem.
    pose proof (clean_list_length st (_content q)) as Hlen.
    set (cl := clean_list st (_content q)) in *.
    change (_can_add (_clean_queue st q)) with (_can_add q) in Hrem.
    change (_content (_clean_queue st q)) with cl in Hrem.
    set (start := 1 + (Z.of_nat (List.length (_can_add q))
                       - Z.of_nat (List.length cl))) in Hrem.
    assert (Hstart : 1 <= start) by (unfold start; lia).
    unfold BattleQueue_remove in Hrem.
    change (_content (_clean_queue st
              (with_can_add (_clean_queue st q)
                 (slice_from start (_can_add q)))))
      with (clean_list st cl) in Hrem.
    unfold cl in Hrem at 1. rewrite clean_list_idempotent in Hrem.
    fold cl in Hrem.
    destruct cl as [|x rest] eqn:E; [discriminate|].
    inversion Hrem; subst c q'; clear Hrem.
    split; [|split; [reflexivity|exact Hcls]].
    split.
    + intros _.
      change (List.length rest
              <= List.length (slice_from start (_can_add q)))%nat.
      rewrite slice_from_length by lia.
      unfold start. simpl List.length in *. lia.
    + intros Hn. contradiction.
Qed.

Lemma queue_inv_is_over (st : Store) (q q' : Queue) (b : bool) :
  is_over st q = inr (b, q') -> q' = _clean_queue st q.
Proof.
  unfold is_over, is_empty. intros H.
  destruct (is_nil (_content (_clean_queue st q))); [congruence|].
  destruct (get_hp_of st (_p1 (_clean_queue st q))) as [e|hp1]; [discriminate|].
  destruct (hp1 =? 0); [congruence|].
  destruct (get_hp_of st (_p2 (_clean_queue st q))) as [e|hp2]; [discriminate|].
  destruct (hp2 =? 0); congruence.
Qed.

Lemma peek_state (st : Store) (q : Queue) :
  snd (peek st q) = _clean_queue st q.
Proof.
  unfold peek. destruct (_content (_clean_queue st q)); reflexivity.
Qed.

Lemma queue_inv_copy_state (q : Queue) (p1_copy p2_copy : ref) :
  queue_inv q -> queue_inv (copy_state q p1_copy p2_copy).
Proof.
  intros [H1 H2]. split; simpl.
  - intros Hc. rewrite Hc. rewrite length_map. auto.
  - discriminate.
Qed.

(** One operation keeps the invariant, the class, and participants that
    are set. *)
Lemma queue_inv_exec_op (st : Store) (op : QueueOp) (q q' : Queue) :
  queue_inv q -> exec_op st op q = inr q' ->
  queue_inv q' /\ queue_class q' = queue_class q
  /\ (_p1 q <> None -> _p1 q' <> None).
Proof.
  intros Hinv Hex. destruct op as [c| | | | |p1c p2c]; simpl in Hex.
  - destruct (queue_inv_add st q q' c Hinv Hex) as (A & B & C). auto.
  - destruct (remove st q) as [e|[c r]] eqn:E; [discriminate|].
    inversion Hex; subst r.
    destruct (queue_inv_remove st q q' c Hinv E) as (A & B & C).
    repeat split; try apply A; auto. congruence.
  - inversion Hex; subst q'. rewrite peek_state.
    repeat split; try apply (queue_inv_clean st q Hinv); auto.
  - inversion Hex; subst q'. simpl.
    repeat split; try apply (queue_inv_clean st q Hinv); auto.
  - destruct (is_over st q) as [e|[b r]] eqn:E; [discriminate|].
    inversion Hex; subst r. apply queue_inv_is_over in E. subst q'.
    repeat split; try apply (queue_inv_clean st q Hinv); auto.
  - destruct (is_some (_p1 q) && is_some (_p2 q)); [|discriminate].
    inversion Hex; subst q'.
    repeat split; try apply (queue_inv_copy_state q p1c p2c Hinv); auto.
    simpl. discriminate.
Qed.

Lemma queue_inv_exec_ops (ops : list (Store * QueueOp)) (q q' : Queue) :
  queue_inv q -> exec_ops ops q = inr q' ->
  queue_inv q' /\ queue_class q' = queue_class q.
Proof.
  revert q. induction ops as [|[st op] ops IH]; intros q Hinv Hex; simpl in Hex.
  - inversion Hex; subst. auto.
  - destruct (exec_op st op q) as [e|q1] eqn:E; [discriminate|].
    destruct (queue_inv_exec_op st op q q1 Hinv E) as (A & B & _).
    destruct (IH q1 A Hex) as (C & D). split; [exact C|congruence].
Qed.

Lemma reachable_queue_inv (q : Queue) : reachable q -> queue_inv q.
Proof.
  intros [ops Hops].
  apply (queue_inv_exec_ops ops _ q (queue_inv_new _) Hops).
Qed.

Lemma exec_ops_app (ops1 ops2 : list (Store * QueueOp)) (q : Queue) :
  exec_ops (ops1 ++ ops2) q =
  match exec_ops ops1 q with
  | inl e => inl e
  | inr q1 => exec_ops ops2 q1
  end.
Proof.
  revert q. induction ops1 as [|[st op] ops1 IH]; intros q; simpl; auto.
  destruct (exec_op st op q); auto.
Qed.

Lemma reachable_step (st : Store) (op : QueueOp) (q q' : Queue) :
  reachable q -> exec_op st op q = inr q' -> reachable q'.
Proof.
  intros [ops Hops] Hex.
  destruct (queue_inv_exec_op st op q q' (reachable_queue_inv q (ex_intro _ ops Hops)) Hex)
    as (_ & Hk & _).
  exists (ops ++ [(st, op)]). rewrite exec_ops_app, Hk, Hops. simpl.
  rewrite Hex. reflexivity.
Qed.

(** After a successful [RestrictedBattleQueue.remove] the ledger and the
    sequence have the same length again. *)
Lemma RestrictedBattleQueue_remove_aligns (st : Store) (q q' : Queue) (c : ref) :
  (List.length (_content q) <= List.length (_can_add q))%nat ->
  RestrictedBattleQueue_remove st q = inr (c, q') ->
  List.length (_can_add q') = List.length (_content q').
Proof.
  intros H1 Hrem. unfold RestrictedBattleQueue_remove in Hrem.
  pose proof (clean_list_length st (_content q)) as Hlen.
  set (cl := clean_list st (_content q)) in *.
  change (_can_add (_clean_queue st q)) with (_can_add q) in Hrem.
  change (_content (_clean_queue st q)) with cl in Hrem.
  set (start := 1 + (Z.of_nat (List.length (_can_add q))
                     - Z.of_nat (List.length cl))) in Hrem.
  unfold BattleQueue_remove in Hrem.
  change (_content (_clean_queue st
            (with_can_add (_clean_queue st q)
               (slice_from start (_can_add q)))))
    with (clean_list st cl) in Hrem.
  unfold cl in Hrem at 1. rewrite clean_list_idempotent in Hrem.
  fold cl in Hrem.
  destruct cl as [|x rest] eqn:E; [discriminate|].
  inversion Hrem; subst c q'; clear Hrem.
  change (List.length (slice_from start (_can_add q)) = List.length rest).
  rewrite slice_from_length by (unfold start; lia).
  unfold start. simpl List.length in *. lia.
Qed.

(* ================================================================== *)
(** * Characters used in the examples *)

Definition manual (bq : qref) : Playstyle :=
  {| ps_class := ManualPlaystyle; ps_battle_queue := bq |}.

(** A rogue with the given HP and SP, as [set_hp] and [set_sp] leave it. *)
Definition rogue (name : string) (hp sp : Z) (e : option ref) : Character :=
  with_enemy (with_sp (with_hp (new_character Rogue name O (manual O)) hp) sp) e.

(** Character 0 has no SP left and cannot act; character 1 can. *)
Definition tired_store : Store :=
  fun c =>
    match c with
    | O => rogue "a" 100 0 (Some 1%nat)
    | _ => rogue "b" 100 100 (Some O)
    end.

(** Both characters can act. *)
Definition fresh_store : Store :=
  fun c =>
    match c with
    | O => rogue "a" 100 100 (Some 1%nat)
    | _ => rogue "b" 100 100 (Some O)
    end.

(** Both characters are at 0 HP. *)
Definition fallen_store : Store :=
  fun c =>
    match c with
    | O => rogue "a" 0 100 (Some 1%nat)
    | _ => rogue "b" 0 100 (Some O)
    end.

(* ================================================================== *)
(** * The winner of a finished game *)

Section Winner.
Variable st : Store.

Lemma is_over_clean (q q' : Queue) (b : bool) :
  is_over st q = inr (b, q') -> is_over st q' = inr (b, q').
Proof.
  intros H. pose proof (queue_inv_is_over st q q' b H) as Hq. subst q'.
  revert H. unfold is_over, is_empty.
  change (_content (_clean_queue st (_clean_queue st q)))
    with (clean_list st (clean_list st (_content q))).
  change (_content (_clean_queue st q)) with (clean_list st (_content q)).
  rewrite clean_list_idempotent.
  change (_p1 (_clean_queue st (_clean_queue st q))) with (_p1 q).
  change (_p2 (_clean_queue st (_clean_queue st q))) with (_p2 q).
  change (_p1 (_clean_queue st q)) with (_p1 q).
  change (_p2 (_clean_queue st q)) with (_p2 q).
  assert (Hcc : _clean_queue st (_clean_queue st q) = _clean_queue st q).
  { unfold _clean_queue, with_content. simpl.
    rewrite clean_list_idempotent. reflexivity. }
  rewrite Hcc. auto.
Qed.

(** What [get_winner] returns on a finished game with both participants
    set. *)
Lemma get_winner_over (q q' : Queue) (a b : ref) :
  is_over st q = inr (true, q') ->
  _p1 q = Some a -> _p2 q = Some b ->
  get_winner st q =
  inr (if _hp (st a) =? 0 then Some b
       else if _hp (st b) =? 0 then Some a
       else None, q').
Proof.
  intros Hover Ha Hb. unfold get_winner. rewrite Hover. simpl.
  pose proof (queue_inv_is_over st q q' true Hover) as Hq. subst q'.
  change (_p1 (_clean_queue st q)) with (_p1 q).
  change (_p2 (_clean_queue st q)) with (_p2 q).
  rewrite Ha, Hb. simpl.
  destruct (_hp (st a) =? 0); [reflexivity|].
  destruct (_hp (st b) =? 0); reflexivity.
Qed.

End Winner.

(** C3, as the code has it: on a finished game with both participants
    set, [get_winner] returns the second participant whenever the first
    has hp 0 (also when both have hp 0), the first participant when only
    the second has hp 0, and [None] when no hp is 0. *)
Theorem C3_get_winner_terminal (st : Store) (q q' : Queue) (a b : ref) :
  is_over st q = inr (true, q') ->
  _p1 q = Some a -> _p2 q = Some b ->
  exists w, get_winner st q = inr (w, q')
    /\ (_hp (st a) = 0 -> w = Some b)
    /\ (_hp (st a) <> 0 -> _hp (st b) = 0 -> w = Some a)
    /\ (_hp (st a) <> 0 -> _hp (st b) <> 0 -> w = None).
Proof.
  intros Hover Ha Hb.
  eexists. split; [apply (get_winner_over st q q' a b Hover Ha Hb)|].
  repeat split.
  - intros H. apply Z.eqb_eq in H. rewrite H. reflexivity.
  - intros H1 H2. apply Z.eqb_neq in H1. apply Z.eqb_eq in H2.
    rewrite H1, H2. reflexivity.
  - intros H1 H2. apply Z.eqb_neq in H1. apply Z.eqb_neq in H2.
    rewrite H1, H2. reflexivity.
Qed.

(** The queue [a -> b] of two characters that can both act. *)
Definition two_in_queue : Queue :=
  {| queue_class := BattleQueueClass; _content := [O; 1%nat];
     _p1 := Some O; _p2 := Some 1%nat; _can_add := [] |}.

Lemma C3_get_winner_terminal_witness :
  is_over fallen_store two_in_queue = inr (true, two_in_queue)
  /\ exists w, get_winner fallen_store two_in_queue = inr (w, two_in_queue)
       /\ (_hp (fallen_store O) = 0 -> w = Some 1%nat)
       /\ (_hp (fallen_store O) <> 0 -> _hp (fallen_store 1%nat) = 0 ->
           w = Some O)
       /\ (_hp (fallen_store O) <> 0 -> _hp (fallen_store 1%nat) <> 0 ->
           w = None).
Proof.
  split; [reflexivity|].
  apply (C3_get_winner_terminal fallen_store two_in_queue two_in_queue O 1%nat);
    reflexivity.
Defined.

(** C3, counterexample: both participants at hp 0, the game is over, and
    [get_winner] returns the second participant instead of [None]. *)
Lemma C3_both_zero_has_winner :
  exec_ops [(fallen_store, OpAdd O); (fallen_store, OpAdd 1%nat)]
    (new_queue BattleQueueClass) = inr two_in_queue
  /\ _hp (fallen_store O) = 0 /\ _hp (fallen_store 1%nat) = 0
  /\ is_over fallen_store two_in_queue = inr (true, two_in_queue)
  /\ get_winner fallen_store two_in_queue = inr (Some 1%nat, two_in_queue)
  /\ ~ (exists q', get_winner fallen_store two_in_queue = inr (None, q')).
Proof.
  repeat split; try reflexivity.
  intros [q' H]. vm_compute in H. discriminate.
Qed.

(* ================================================================== *)
(** * The ledger of the restricted queue *)

(** C4, failing input: a restricted queue holding one character that
    cannot act.  [peek] (inherited, as are [is_empty] and [is_over])
    prunes the sequence through [_clean_queue] and leaves the ledger
    alone, so the ledger is one entry longer than the sequence; only
    [remove] realigns them. *)
Theorem C4_peek_prunes_sequence_only :
  let q0 := new_queue RestrictedBattleQueueClass in
  exists q1 q2,
    exec_ops [(tired_store, OpAdd O)] q0 = inr q1
    /\ List.length (_can_add q1) = List.length (_content q1)
    /\ exec_ops [(tired_store, OpPeek)] q1 = inr q2
    /\ reachable q2
    /\ _content q2 = [] /\ _can_add q2 = [yes]
    /\ List.length (_can_add q2) <> List.length (_content q2).
Proof.
  simpl.
  eexists. eexists.
  split; [reflexivity|]. split; [reflexivity|]. split; [reflexivity|].
  split.
  - exists [(tired_store, OpAdd O); (tired_store, OpPeek)]. reflexivity.
  - repeat split. simpl. discriminate.
Qed.

(** What does hold on every reachable queue: the ledger is at least as
    long as the sequence. *)
Lemma reachable_ledger_covers (q : Queue) :
  reachable q -> queue_class q = RestrictedBattleQueueClass ->
  (List.length (_content q) <= List.length (_can_add q))%nat.
Proof. intros Hr Hc. apply (reachable_queue_inv q Hr). exact Hc. Qed.

(** Rule 2 of [RestrictedBattleQueue.add]: the branch [pass]. *)
Lemma add_rejected (st : Store) (q : Queue) (character : ref) :
  reachable q ->
  queue_class q = RestrictedBattleQueueClass ->
  _content q <> [] ->
  hd_error (_can_add q) = Some no ->
  add st q character = inr q.
Proof.
  intros Hr Hcls Hne Hhd. unfold add. rewrite Hcls.
  destruct (reachable_queue_inv q Hr) as [H1 H2].
  specialize (H1 Hcls).
  unfold RestrictedBattleQueue_add.
  destruct (count_yes_returns (_content q) (_can_add q) character H1)
    as [n Hn].
  rewrite Hn.
  destruct (_content q) as [|head rest] eqn:Hcont; [congruence|].
  destruct (_can_add q) as [|flag0 ledger] eqn:Hled; [discriminate|].
  simpl in Hhd. inversion Hhd; subst flag0. simpl.
  rewrite set_players_once_established; [reflexivity|].
  intros Hp. destruct (H2 Hp). discriminate.
Qed.

(** C6: on a reachable restricted queue that is not empty and whose ledger
    head is ['no'], [add] returns normally and leaves the queue object as
    it was, whatever the character and however often it is repeated. *)
Theorem C6_rejected_add_changes_nothing (q : Queue) :
  reachable q ->
  queue_class q = RestrictedBattleQueueClass ->
  _content q <> [] ->
  hd_error (_can_add q) = Some no ->
  (forall st character, add st q character = inr q)
  /\ (forall attempts : list (Store * ref),
        exec_ops (map (fun a => (fst a, OpAdd (snd a))) attempts) q = inr q).
Proof.
  intros Hr Hcls Hne Hhd.
  assert (Hadd : forall st character, add st q character = inr q)
    by (intros; apply add_rejected; assumption).
  split; [exact Hadd|].
  induction attempts as [|[st c] l IH]; simpl; [reflexivity|].
  rewrite Hadd. exact IH.
Qed.

(** The queue [b] with ledger [no], reached from [a -> b -> b] by two
    removals. *)
Definition blocked_queue : Queue :=
  {| queue_class := RestrictedBattleQueueClass; _content := [1%nat];
     _p1 := Some O; _p2 := Some 1%nat; _can_add := [no] |}.

Lemma blocked_queue_reachable : reachable blocked_queue.
Proof.
  exists [(fresh_store, OpAdd O); (fresh_store, OpAdd 1%nat);
          (fresh_store, OpAdd 1%nat); (fresh_store, OpRemove);
          (fresh_store, OpRemove)].
  reflexivity.
Defined.

Lemma C6_rejected_add_changes_nothing_witness :
  (forall st character, add st blocked_queue character = inr blocked_queue)
  /\ (forall attempts : list (Store * ref),
        exec_ops (map (fun a => (fst a, OpAdd (snd a))) attempts)
          blocked_queue = inr blocked_queue).
Proof.
  apply (C6_rejected_add_changes_nothing blocked_queue).
  - exact blocked_queue_reachable.
  - reflexivity.
  - simpl. discriminate.
  - reflexivity.
Defined.

(** The calls of the failing input of C7. *)
Definition three_eligible_ops : list (Store * QueueOp) :=
  [(tired_store, OpAdd 1%nat); (tired_store, OpAdd O);
   (tired_store, OpAdd O); (tired_store, OpAdd O);
   (tired_store, OpRemove); (tired_store, OpPeek);
   (tired_store, OpAdd 1%nat); (tired_store, OpAdd 1%nat);
   (tired_store, OpAdd 1%nat); (tired_store, OpAdd 1%nat);
   (tired_store, OpRemove)].

(** C7, failing input: character 0 cannot act, character 1 can.  The
    sequence is built to [1 -> 0 -> 0 -> 0], the head is removed, and
    [peek] prunes the three entries of character 0 while the ledger keeps
    their flags [yes; no; no].  The next three [add]s of character 1 count
    its eligible entries against those stale flags and mark all of them
    ['yes'].  A fourth [add] and a [remove] later the two lists are aligned
    again, and character 1 holds three eligible entries. *)
Theorem C7_three_eligible_occurrences :
  exists q,
    exec_ops three_eligible_ops (new_queue RestrictedBattleQueueClass) = inr q
    /\ reachable q
    /\ _content q = [1%nat; 1%nat; 1%nat]
    /\ _can_add q = [yes; yes; yes]
    /\ eligible_occurrences (_content q) (_can_add q) 1%nat = 3%nat.
Proof.
  eexists. split; [reflexivity|].
  split; [exists three_eligible_ops; reflexivity|].
  repeat split.
Qed.

(** Without pruning in between, the third [add] of the head is appended
    marked ['no']. *)
Lemma add_third_occurrence_marked_no :
  exec_ops [(fresh_store, OpAdd O); (fresh_store, OpAdd O);
            (fresh_store, OpAdd O)]
    (new_queue RestrictedBattleQueueClass)
  = inr {| queue_class := RestrictedBattleQueueClass;
           _content := [O; O; O]; _p1 := Some O; _p2 := Some 1%nat;
           _can_add := [yes; yes; no] |}.
Proof. reflexivity. Qed.

(* ================================================================== *)
(** * The restricted queue when nothing is pruned behind its back *)

(** The ledger describes the sequence entry by entry, and no character has
    more than two eligible occurrences. *)
Definition aligned_two (q : Queue) : Prop :=
  List.length (_can_add q) = List.length (_content q)
  /\ forall c, (eligible_occurrences (_content q) (_can_add q) c <= 2)%nat.

Lemma count_yes_eligible (content : list ref) (can_add : list CanAdd)
  (c : ref) :
  List.length can_add = List.length content ->
  count_yes content can_add c
  = inr (Z.of_nat (eligible_occurrences content can_add c)).
Proof.
  revert can_add. induction content as [|x content IH];
    intros [|flag can_add] Hlen; simpl in Hlen; try discriminate;
    [reflexivity|].
  cbn [count_yes eligible_occurrences tl].
  rewrite (IH can_add) by lia.
  destruct (Nat.eqb x c); cbn [andb]; [|f_equal; lia].
  destruct (CanAdd_eqb flag yes); f_equal; lia.
Qed.

Lemma eligible_app (content : list ref) (can_add : list CanAdd)
  (x : ref) (flag : CanAdd) (c : ref) :
  List.length can_add = List.length content ->
  eligible_occurrences (content ++ [x]) (can_add ++ [flag]) c
  = (eligible_occurrences content can_add c
     + (if Nat.eqb x c && CanAdd_eqb flag yes then 1 else 0))%nat.
Proof.
  revert can_add. induction content as [|y content IH];
    intros [|f can_add] Hlen; simpl in Hlen; try discriminate.
  - simpl. lia.
  - cbn [app eligible_occurrences]. rewrite (IH can_add) by lia. lia.
Qed.

Lemma eligible_absent (content : list ref) (can_add : list CanAdd) (c : ref) :
  existsb (Nat.eqb c) content = false ->
  eligible_occurrences content can_add c = O.
Proof.
  revert can_add. induction content as [|y content IH];
    intros [|f can_add] Hex; try reflexivity.
  cbn [existsb] in Hex. apply orb_false_elim in Hex. destruct Hex as [H1 H2].
  cbn [eligible_occurrences]. rewrite (IH can_add H2).
  rewrite Nat.eqb_sym, H1. reflexivity.
Qed.

Lemma eligible_skipn (n : nat) (content : list ref) (can_add : list CanAdd)
  (c : ref) :
  (eligible_occurrences (skipn n content) (skipn n can_add) c
   <= eligible_occurrences content can_add c)%nat.
Proof.
  revert content can_add. induction n as [|n IH]; intros content can_add.
  - simpl. lia.
  - destruct content as [|x content]; [simpl; lia|].
    destruct can_add as [|f can_add].
    + rewrite skipn_nil. destruct (skipn (S n) (x :: content)); simpl; lia.
    + cbn [skipn eligible_occurrences]. specialize (IH content can_add). lia.
Qed.

(** Pruning drops a prefix. *)
Lemma clean_list_skipn (st : Store) (l : list ref) :
  exists k, (k <= List.length l)%nat /\ clean_list st l = skipn k l.
Proof.
  induction l as [|c l (k & Hk & IH)]; [exists O; split; [simpl; lia|reflexivity]|].
  simpl. destruct (is_nil (get_available_actions (st c))).
  - exists (S k). split; [lia|exact IH].
  - exists O. split; [lia|reflexivity].
Qed.

Lemma add_class (st : Store) (q q' : Queue) (c : ref) :
  add st q c = inr q' -> queue_class q' = queue_class q.
Proof.
  intros E. unfold add in E. destruct (queue_class q) eqn:Hcls.
  - inversion E; subst. rewrite BattleQueue_add_class. exact Hcls.
  - unfold RestrictedBattleQueue_add in E.
    destruct (count_yes (_content q) (_can_add q) c) as [e|n]; [discriminate|].
    assert (Hk : forall r, queue_class r = RestrictedBattleQueueClass ->
                           queue_class (set_players_once st r c)
                           = RestrictedBattleQueueClass).
    { intros r Hr. destruct (set_players_once_fields st r c) as (_ & _ & K).
      congruence. }
    assert (Hb : forall flag,
               queue_class (append_flag (BattleQueue_add st q c) flag)
               = RestrictedBattleQueueClass).
    { intros flag. cbn [append_flag with_can_add queue_class].
      rewrite BattleQueue_add_class. exact Hcls. }
    destruct (_content q) as [|head rest]; [inversion E; subst; apply Hk, Hb|].
    destruct (_can_add q) as [|flag0 ledger]; [discriminate|].
    destruct (CanAdd_eqb flag0 no); [inversion E; subst; apply Hk, Hcls|].
    destruct (negb (existsb (Nat.eqb c) (head :: rest)));
      [inversion E; subst; apply Hk, Hb|].
    destruct (Nat.eqb c head && negb (n =? 2));
      inversion E; subst; apply Hk, Hb.
Qed.

Lemma remove_class (st : Store) (q q' : Queue) (c : ref) :
  remove st q = inr (c, q') -> queue_class q' = queue_class q.
Proof.
  intros E. unfold remove in E. destruct (queue_class q) eqn:Hcls.
  - destruct (BattleQueue_remove_fields st q q' c E) as (_ & _ & _ & _ & K).
    congruence.
  - unfold RestrictedBattleQueue_remove in E.
    destruct (BattleQueue_remove_fields st _ q' c E) as (_ & _ & _ & _ & K).
    rewrite K. exact Hcls.
Qed.

Lemma aligned_two_add (st : Store) (q q' : Queue) (c : ref) :
  queue_class q = RestrictedBattleQueueClass ->
  aligned_two q -> add st q c = inr q' -> aligned_two q'.
Proof.
  intros Hcls [Hlen Htwo] Hadd. unfold add in Hadd. rewrite Hcls in Hadd.
  unfold RestrictedBattleQueue_add in Hadd.
  rewrite (count_yes_eligible _ _ c Hlen) in Hadd.
  assert (Happ : forall flag,
             (CanAdd_eqb flag yes = true ->
              (eligible_occurrences (_content q) (_can_add q) c <= 1)%nat) ->
             aligned_two
               (set_players_once st
                  (append_flag (BattleQueue_add st q c) flag) c)).
  { intros flag Hflag.
    destruct (set_players_once_fields st
                (append_flag (BattleQueue_add st q c) flag) c)
      as (E1 & E2 & _).
    unfold aligned_two. rewrite E1, E2.
    cbn [append_flag with_can_add _content _can_add].
    rewrite BattleQueue_add_content, BattleQueue_add_can_add.
    split; [rewrite !length_app; simpl; lia|].
    intros x. rewrite eligible_app by exact Hlen.
    destruct (Nat.eqb c x) eqn:Ex; cbn [andb].
    - apply Nat.eqb_eq in Ex. subst x.
      destruct (CanAdd_eqb flag yes); [specialize (Hflag eq_refl); lia|].
      specialize (Htwo c). lia.
    - specialize (Htwo x). lia. }
  destruct (_content q) as [|head rest] eqn:Hcont.
  - inversion Hadd; subst q'. apply Happ. intros _. simpl. lia.
  - destruct (_can_add q) as [|flag0 ledger] eqn:Hled; [discriminate|].
    destruct (CanAdd_eqb flag0 no).
    + inversion Hadd; subst q'.
      destruct (set_players_once_fields st q c) as (E1 & E2 & _).
      unfold aligned_two. rewrite E1, E2, Hcont, Hled.
      split; [exact Hlen|exact Htwo].
    + destruct (negb (existsb (Nat.eqb c) (head :: rest))) eqn:Hin.
      * inversion Hadd; subst q'. apply Happ. intros _.
        apply negb_true_iff in Hin.
        rewrite (eligible_absent _ _ _ Hin). lia.
      * destruct (Nat.eqb c head
                  && negb (Z.of_nat (eligible_occurrences (head :: rest)
                                       (flag0 :: ledger) c) =? 2)) eqn:Hhead;
          inversion Hadd; subst q'; apply Happ.
        -- intros _. apply andb_prop in Hhead. destruct Hhead as [_ Hne].
           apply negb_true_iff, Z.eqb_neq in Hne.
           specialize (Htwo c). lia.
        -- discriminate.
Qed.

Lemma aligned_two_remove (st : Store) (q q' : Queue) (c : ref) :
  queue_class q = RestrictedBattleQueueClass ->
  aligned_two q -> remove st q = inr (c, q') -> aligned_two q'.
Proof.
  intros Hcls [Hlen Htwo] Hrem. unfold remove in Hrem. rewrite Hcls in Hrem.
  split.
  - apply (RestrictedBattleQueue_remove_aligns st q q' c); [lia|exact Hrem].
  - unfold RestrictedBattleQueue_remove in Hrem.
    destruct (clean_list_skipn st (_content q)) as (k & Hk & Hclean).
    change (_can_add (_clean_queue st q)) with (_can_add q) in Hrem.
    change (_content (_clean_queue st q)) with (clean_list st (_content q))
      in Hrem.
    unfold BattleQueue_remove in Hrem.
    change (_content (_clean_queue st
              (with_can_add (_clean_queue st q)
                 (slice_from
                    (1 + (Z.of_nat (List.length (_can_add q))
                          - Z.of_nat (List.length
                                        (clean_list st (_content q)))))
                    (_can_add q)))))
      with (clean_list st (clean_list st (_content q))) in Hrem.
    rewrite clean_list_idempotent in Hrem.
    destruct (clean_list st (_content q)) as [|x rest] eqn:E; [discriminate|].
    inversion Hrem; subst c q'; clear Hrem.
    cbn [_content _can_add with_content with_can_add _clean_queue].
    assert (Hrest : rest = skipn (S k) (_content q)).
    { replace (S k) with (1 + k)%nat by lia.
      rewrite <- skipn_skipn, <- Hclean. reflexivity. }
    assert (Hlk : List.length (x :: rest) = (List.length (_content q) - k)%nat).
    { rewrite Hclean. apply length_skipn. }
    assert (Hslice : slice_from
                       (1 + (Z.of_nat (List.length (_can_add q))
                             - Z.of_nat (List.length (x :: rest))))
                       (_can_add q)
                     = skipn (S k) (_can_add q)).
    { unfold slice_from.
      destruct (1 + (Z.of_nat (List.length (_can_add q))
                     - Z.of_nat (List.length (x :: rest))) <? 0) eqn:Hneg;
        [apply Z.ltb_lt in Hneg; lia|].
      f_equal. lia. }
    change (forall y,
               (eligible_occurrences rest
                  (slice_from
                     (1 + (Z.of_nat (List.length (_can_add q))
                           - Z.of_nat (List.length (x :: rest))))
                     (_can_add q)) y <= 2)%nat).
    rewrite Hslice, Hrest. intros y.
    pose proof (eligible_skipn (S k) (_content q) (_can_add q) y).
    specialize (Htwo y). lia.
Qed.

Lemma clean_queue_nothing (st : Store) (q : Queue) :
  clean_list st (_content q) = _content q -> _clean_queue st q = q.
Proof.
  intros H. unfold _clean_queue, with_content. rewrite H.
  destruct q; reflexivity.
Qed.

(** The sequences in which [peek], [is_empty] and [is_over] find nothing
    to prune, and no copy is followed. *)
Fixpoint prunes_in_remove_only (ops : list (Store * QueueOp)) (q : Queue)
  : Prop :=
  match ops with
  | [] => True
  | (st, op) :: ops' =>
      match op with
      | OpPeek | OpIsEmpty | OpIsOver =>
          clean_list st (_content q) = _content q
      | OpCopy _ _ => False
      | OpAdd _ | OpRemove => True
      end
      /\ match exec_op st op q with
         | inr q' => prunes_in_remove_only ops' q'
         | inl _ => True
         end
  end.

(** When only [remove] prunes, ledger and sequence stay aligned and no
    character ever has more than two eligible occurrences. *)
Lemma restricted_queue_aligned_two (ops : list (Store * QueueOp))
  (q q' : Queue) :
  queue_class q = RestrictedBattleQueueClass ->
  aligned_two q ->
  prunes_in_remove_only ops q ->
  exec_ops ops q = inr q' ->
  aligned_two q'.
Proof.
  revert q. induction ops as [|[st op] ops IH]; intros q Hcls Hal Hpr Hex.
  - inversion Hex; subst; exact Hal.
  - cbn [exec_ops] in Hex. cbn [prunes_in_remove_only] in Hpr.
    destruct Hpr as [Hop Hpr].
    destruct (exec_op st op q) as [e|q1] eqn:E; [discriminate|].
    assert (Hstep : aligned_two q1 /\ queue_class q1 = RestrictedBattleQueueClass).
    { destruct op as [c| | | | |x y]; cbn [exec_op] in E.
      - split; [apply (aligned_two_add st q q1 c); assumption|].
        rewrite (add_class st q q1 c E). exact Hcls.
      - destruct (remove st q) as [e|[c r]] eqn:Er; [discriminate|].
        inversion E; subst r.
        split; [apply (aligned_two_remove st q q1 c); assumption|].
        rewrite (remove_class st q q1 c Er). exact Hcls.
      - inversion E; subst q1. rewrite peek_state.
        rewrite clean_queue_nothing by exact Hop. auto.
      - inversion E; subst q1. cbn [is_empty snd].
        rewrite clean_queue_nothing by exact Hop. auto.
      - destruct (is_over st q) as [e|[b r]] eqn:Eo; [discriminate|].
        inversion E; subst r. apply queue_inv_is_over in Eo. subst q1.
        rewrite clean_queue_nothing by exact Hop. auto.
      - contradiction. }
    destruct Hstep as [Hal1 Hcls1].
    apply (IH q1); assumption.
Qed.

Lemma at_most_two_without_stale_pruning (ops : list (Store * QueueOp))
  (q : Queue) :
  prunes_in_remove_only ops (new_queue RestrictedBattleQueueClass) ->
  exec_ops ops (new_queue RestrictedBattleQueueClass) = inr q ->
  aligned_two q.
Proof.
  apply restricted_queue_aligned_two; [reflexivity|].
  split; [reflexivity|]. intros c. simpl. lia.
Qed.

(* ================================================================== *)
(** * [peek] on a queue that was added to *)

Fixpoint first_added (ops : list (Store * QueueOp)) : option ref :=
  match ops with
  | [] => None
  | (_, OpAdd c) :: _ => Some c
  | _ :: ops' => first_added ops'
  end.

Definition add_or_remove (op : QueueOp) : bool :=
  match op with OpAdd _ | OpRemove => true | _ => false end.

Lemma exec_ops_keeps_p1 (ops : list (Store * QueueOp)) (q q' : Queue) (c0 : ref) :
  queue_class q = BattleQueueClass ->
  _p1 q = Some c0 ->
  forallb (fun o => add_or_remove (snd o)) ops = true ->
  exec_ops ops q = inr q' ->
  _p1 q' = Some c0.
Proof.
  revert q. induction ops as [|[st op] ops IH]; intros q Hcls Hp Hall Hex;
    simpl in *.
  - inversion Hex; subst; exact Hp.
  - apply andb_prop in Hall. destruct Hall as [Hop Hall].
    destruct op as [c| | | | |x y]; simpl in Hop; try discriminate; simpl in Hex.
    + unfold add in Hex. rewrite Hcls in Hex.
      apply (IH (BattleQueue_add st q c)); auto.
      * rewrite BattleQueue_add_class. exact Hcls.
      * rewrite BattleQueue_add_established by congruence. exact Hp.
    + unfold remove in Hex. rewrite Hcls in Hex.
      destruct (BattleQueue_remove st q) as [e|[c r]] eqn:E; [discriminate|].
      destruct (BattleQueue_remove_fields st q r c E) as (_ & _ & H1 & _ & Hk).
      apply (IH r); auto; congruence.
Qed.

(** C5, as the code has it: after any sequence of [add] and [remove] on a
    [BattleQueue] in which something was added, [peek] returns a
    character, and when pruning empties the sequence that character is the
    first one ever added. *)
Theorem C5_peek_returns_a_character
  (ops : list (Store * QueueOp)) (q : Queue) (c0 : ref) (st : Store) :
  forallb (fun o => add_or_remove (snd o)) ops = true ->
  exec_ops ops (new_queue BattleQueueClass) = inr q ->
  first_added ops = Some c0 ->
  (exists c, fst (peek st q) = Some c)
  /\ (clean_list st (_content q) = [] -> fst (peek st q) = Some c0).
Proof.
  intros Hall Hex Hfirst.
  assert (Hp : _p1 q = Some c0).
  { destruct ops as [|[st1 op] ops]; [discriminate|].
    simpl in Hall. apply andb_prop in Hall. destruct Hall as [Hop Hall].
    destruct op as [c| | | | |x y]; simpl in Hop; try discriminate.
    - simpl in Hfirst. inversion Hfirst; subst c.
      simpl in Hex.
      apply (exec_ops_keeps_p1 ops _ q c0) in Hex; auto. }
  unfold peek. simpl.
  destruct (clean_list st (_content q)) as [|c rest] eqn:E; simpl.
  - split; [exists c0; exact Hp | intros _; exact Hp].
  - split; [exists c; reflexivity | discriminate].
Qed.

Lemma C5_peek_returns_a_character_witness :
  (exists c,
      fst (peek tired_store
             {| queue_class := BattleQueueClass; _content := [O];
                _p1 := Some O; _p2 := Some 1%nat; _can_add := [] |}) = Some c)
  /\ (clean_list tired_store [O] = [] ->
      fst (peek tired_store
             {| queue_class := BattleQueueClass; _content := [O];
                _p1 := Some O; _p2 := Some 1%nat; _can_add := [] |}) = Some O).
Proof.
  apply (C5_peek_returns_a_character [(tired_store, OpAdd O)]); reflexivity.
Defined.

(** C5, counterexample: the empty sequence of operations.  On a queue
    nothing was added to, [_p1] is still [None] and [peek] returns it. *)
Lemma C5_peek_on_new_queue_is_none :
  exec_ops [] (new_queue BattleQueueClass) = inr (new_queue BattleQueueClass)
  /\ fst (peek fresh_store (new_queue BattleQueueClass)) = None.
Proof. split; reflexivity. Qed.

(* ================================================================== *)
(** * Reasoning about calls on the heap *)

(** [wp fail m Q h]: the call [m] run on [h] returns a value and a heap
    satisfying [Q]; a call that raises or runs out of fuel is judged by
    [fail] ([False] for total correctness, [True] for partial). *)
Definition wp {A} (fail : Prop) (m : M A) (Q : A -> Heap -> Prop) (h : Heap)
  : Prop :=
  match m h with
  | Ok a h' => Q a h'
  | _ => fail
  end.

Definition heap_set_char (h : Heap) (c : ref) (v : Character) : Heap :=
  {| chars := upd (chars h) c v; queues := queues h;
     next_char := next_char h; next_queue := next_queue h |}.

Definition heap_set_queue (h : Heap) (q : qref) (v : Queue) : Heap :=
  {| chars := chars h; queues := upd (queues h) q v;
     next_char := next_char h; next_queue := next_queue h |}.

Definition heap_alloc_char (h : Heap) (v : Character) : Heap :=
  {| chars := upd (chars h) (next_char h) v; queues := queues h;
     next_char := S (next_char h); next_queue := next_queue h |}.

Definition heap_alloc_queue (h : Heap) (v : Queue) : Heap :=
  {| chars := chars h; queues := upd (queues h) (next_queue h) v;
     next_char := next_char h; next_queue := S (next_queue h) |}.

Lemma upd_same {A} (f : nat -> A) (i : nat) (v : A) : upd f i v i = v.
Proof. unfold upd. rewrite Nat.eqb_refl. reflexivity. Qed.

Lemma upd_other {A} (f : nat -> A) (i j : nat) (v : A) :
  j <> i -> upd f i v j = f j.
Proof.
  intros H. unfold upd. destruct (Nat.eqb j i) eqn:E; [|reflexivity].
  apply Nat.eqb_eq in E. contradiction.
Qed.

Section WpRules.
Context {A B : Type} (fail : Prop).

Lemma wp_bind (m : M A) (k : A -> M B) (Q : B -> Heap -> Prop) (h : Heap) :
  wp fail m (fun a h' => wp fail (k a) Q h') h -> wp fail (bind m k) Q h.
Proof. unfold wp, bind. destruct (m h); auto. Qed.

Lemma wp_ret (a : A) (Q : A -> Heap -> Prop) (h : Heap) :
  Q a h -> wp fail (ret a) Q h.
Proof. auto. Qed.

Lemma wp_mono (m : M A) (Q Q' : A -> Heap -> Prop) (h : Heap) :
  wp fail m Q h -> (forall a h', Q a h' -> Q' a h') -> wp fail m Q' h.
Proof. unfold wp. destruct (m h); auto. Qed.

Lemma wp_on_queue (q : qref) (f : Store -> Queue -> Result (A * Queue))
  (Q : A -> Heap -> Prop) (h : Heap) (a : A) (q' : Queue) :
  f (chars h) (queues h q) = inr (a, q') ->
  Q a (heap_set_queue h q q') ->
  wp fail (on_queue q f) Q h.
Proof. intros Hf HQ. unfold wp, on_queue. rewrite Hf. exact HQ. Qed.

End WpRules.

Lemma wp_get_char fail (c : ref) (Q : Character -> Heap -> Prop) (h : Heap) :
  Q (chars h c) h -> wp fail (get_char c) Q h.
Proof. auto. Qed.

Lemma wp_set_char fail (c : ref) (v : Character) (Q : unit -> Heap -> Prop)
  (h : Heap) :
  Q tt (heap_set_char h c v) -> wp fail (set_char c v) Q h.
Proof. auto. Qed.

Lemma wp_get_queue fail (q : qref) (Q : Queue -> Heap -> Prop) (h : Heap) :
  Q (queues h q) h -> wp fail (get_queue q) Q h.
Proof. auto. Qed.

Lemma wp_set_queue fail (q : qref) (v : Queue) (Q : unit -> Heap -> Prop)
  (h : Heap) :
  Q tt (heap_set_queue h q v) -> wp fail (set_queue q v) Q h.
Proof. auto. Qed.

Lemma wp_alloc_char fail (v : Character) (Q : ref -> Heap -> Prop) (h : Heap) :
  Q (next_char h) (heap_alloc_char h v) -> wp fail (alloc_char v) Q h.
Proof. auto. Qed.

Lemma wp_alloc_queue fail (v : Queue) (Q : qref -> Heap -> Prop) (h : Heap) :
  Q (next_queue h) (heap_alloc_queue h v) -> wp fail (alloc_queue v) Q h.
Proof. auto. Qed.

Lemma wp_deref fail (c : ref) (Q : ref -> Heap -> Prop) (h : Heap) :
  Q c h -> wp fail (deref (Some c)) Q h.
Proof. auto. Qed.

(** The value a call returns, if it returns. *)
Definition returned {A} (o : Outcome A) : option A :=
  match o with Ok a _ => Some a | _ => None end.

Lemma wp_returned {A} (m : M A) (h : Heap) (v : A) :
  wp False m (fun a _ => a = v) h -> returned (m h) = Some v.
Proof. unfold wp, returned. destruct (m h); intros H; subst; tauto. Qed.

(* ================================================================== *)
(** * The score of a finished game with both participants at hp 0 *)

Section BothZero.
Variables (bq : qref) (a b : ref).

Definition both_zero (h : Heap) : Prop :=
  _p1 (queues h bq) = Some a /\ _p2 (queues h bq) = Some b
  /\ _hp (chars h a) = 0 /\ _hp (chars h b) = 0.

Lemma both_zero_clean (h : Heap) :
  both_zero h ->
  both_zero (heap_set_queue h bq (_clean_queue (chars h) (queues h bq))).
Proof.
  intros (H1 & H2 & H3 & H4). unfold both_zero. simpl.
  rewrite upd_same. simpl. auto.
Qed.

Lemma is_over_both_zero (st : Store) (q : Queue) :
  _p1 q = Some a -> _hp (st a) = 0 ->
  is_over st q = inr (true, _clean_queue st q).
Proof.
  intros H1 H3. unfold is_over, is_empty.
  destruct (is_nil (_content (_clean_queue st q))); [reflexivity|].
  change (_p1 (_clean_queue st q)) with (_p1 q). rewrite H1. simpl.
  rewrite H3. reflexivity.
Qed.

Lemma get_winner_both_zero (st : Store) (q : Queue) :
  _p1 q = Some a -> _p2 q = Some b -> _hp (st a) = 0 ->
  get_winner st q = inr (Some b, _clean_queue st q).
Proof.
  intros H1 H2 H3.
  rewrite (get_winner_over st q (_clean_queue st q) a b); auto.
  - rewrite H3. reflexivity.
  - apply is_over_both_zero; auto.
Qed.

Lemma peek_clean (st : Store) (q : Queue) :
  fst (peek st (_clean_queue st q)) = fst (peek st q).
Proof.
  unfold peek.
  change (_content (_clean_queue st (_clean_queue st q)))
    with (clean_list st (clean_list st (_content q))).
  rewrite clean_list_idempotent.
  change (_content (_clean_queue st q)) with (clean_list st (_content q)).
  destruct (clean_list st (_content q)); reflexivity.
Qed.

Lemma wp_is_over_both_zero fail (Q : bool -> Heap -> Prop) (h : Heap) :
  both_zero h ->
  (forall h', both_zero h' -> Q true h') ->
  wp fail (bq_is_over bq) Q h.
Proof.
  intros Hbz HQ. destruct Hbz as (H1 & H2 & H3 & H4).
  unfold bq_is_over.
  eapply wp_on_queue; [apply is_over_both_zero; eauto|].
  apply HQ. apply both_zero_clean. repeat split; auto.
Qed.

Lemma wp_get_winner_both_zero fail (Q : option ref -> Heap -> Prop)
  (h : Heap) :
  both_zero h ->
  (forall h', both_zero h' -> Q (Some b) h') ->
  wp fail (bq_get_winner bq) Q h.
Proof.
  intros Hbz HQ. destruct Hbz as (H1 & H2 & H3 & H4).
  unfold bq_get_winner.
  eapply wp_on_queue; [apply get_winner_both_zero; eauto|].
  apply HQ. apply both_zero_clean. repeat split; auto.
Qed.

(** Two [peek]s in a row return the same character. *)
Lemma wp_peek_twice fail (p : option ref) (Q : option ref -> Heap -> Prop)
  (h h0 : Heap) (q0 : Queue) :
  chars h = chars h0 ->
  queues h bq = _clean_queue (chars h0) q0 ->
  p = fst (peek (chars h0) q0) ->
  (forall h', chars h' = chars h -> Q p h') ->
  wp fail (bq_peek bq) Q h.
Proof.
  intros Hc Hq Hp HQ. unfold bq_peek.
  eapply wp_on_queue.
  - rewrite <- surjective_pairing. reflexivity.
  - assert (Hfst : fst (peek (chars h) (queues h bq)) = p).
    { rewrite Hq, Hc, peek_clean. auto. }
    rewrite Hfst. apply HQ. reflexivity.
Qed.

Lemma wp_over_score_both_zero (h : Heap) :
  both_zero h -> wp False (over_score bq) (fun v _ => v = 0) h.
Proof.
  intros Hbz. unfold over_score.
  apply wp_bind. apply wp_get_winner_both_zero; [exact Hbz|].
  intros h1 Hbz1. simpl is_some. cbv iota.
  apply wp_bind. apply wp_get_winner_both_zero; [exact Hbz1|].
  intros h2 Hbz2.
  apply wp_bind. unfold bq_peek at 1.
  eapply wp_on_queue; [rewrite <- surjective_pairing; reflexivity|].
  set (p := fst (peek (chars h2) (queues h2 bq))).
  set (h3 := heap_set_queue h2 bq (snd (peek (chars h2) (queues h2 bq)))).
  assert (Hbz3 : both_zero h3).
  { unfold h3. rewrite peek_state. apply both_zero_clean. exact Hbz2. }
  destruct (option_ref_eqb (Some b) p) eqn:Heq.
  - (* the winner is at the head *)
    destruct p as [c|] eqn:Hp; simpl in Heq; [|discriminate].
    apply Nat.eqb_eq in Heq. subst c.
    apply wp_bind.
    apply (wp_peek_twice False (Some b) _ h3 h2 (queues h2 bq)).
    + reflexivity.
    + unfold h3. simpl. rewrite upd_same. apply peek_state.
    + symmetry. exact Hp.
    + intros h4 Hc4. apply wp_bind. apply wp_deref.
      unfold get_hp. apply wp_bind. apply wp_get_char. apply wp_ret.
      rewrite Hc4. apply Hbz3.
  - apply wp_bind. apply wp_get_winner_both_zero; [exact Hbz3|].
    intros h4 Hbz4. apply wp_bind. apply wp_deref.
    unfold get_hp. apply wp_bind. apply wp_bind. apply wp_get_char.
    apply wp_ret. apply wp_ret.
    destruct Hbz4 as (_ & _ & _ & H4). rewrite H4. reflexivity.
Qed.

End BothZero.

(* ================================================================== *)
(** * What [copy] builds *)

(** The copy of a character: same class, name, hp and sp, bound to the
    new queue; the decision tree is handed over by [Sorcerer] only. *)
Definition copy_of (ch : Character) (new_battle_queue : qref)
  (e : option ref) : Character :=
  {| char_class := char_class ch; _name := _name ch;
     battle_queue := new_battle_queue;
     playstyle := Playstyle_copy (playstyle ch) new_battle_queue;
     _hp := _hp ch; _sp := _sp ch; enemy := e;
     decision_tree :=
       match char_class ch with
       | Sorcerer => decision_tree ch
       | _ => None
       end |}.

Ltac heap_simpl :=
  cbn [chars queues next_char next_queue heap_set_char heap_set_queue
       heap_alloc_char heap_alloc_queue];
  rewrite ?upd_same.

Lemma wp_Character_copy fail (self : ref) (nq : qref)
  (Q : ref -> Heap -> Prop) (h : Heap) :
  (self < next_char h)%nat ->
  (forall h',
      next_char h' = S (next_char h) ->
      next_queue h' = next_queue h ->
      queues h' = queues h ->
      (forall c, c <> next_char h -> chars h' c = chars h c) ->
      chars h' (next_char h) = copy_of (chars h self) nq None ->
      Q (next_char h) h') ->
  wp fail (Character_copy self nq) Q h.
Proof.
  intros Hself HQ. unfold Character_copy.
  apply wp_bind, wp_get_char.
  apply wp_bind, wp_alloc_char.
  set (v0 := new_character _ _ _ _).
  set (n := next_char h).
  assert (Hne : self <> n) by (unfold n; lia).
  apply wp_bind. unfold _set_copy_attributes.
  apply wp_bind, wp_get_char. heap_simpl. rewrite (upd_other _ _ _ _ Hne).
  unfold set_hp, set_sp, set_skill_decision_tree.
  apply wp_bind, wp_bind, wp_get_char, wp_set_char.
  apply wp_bind, wp_bind, wp_get_char, wp_set_char.
  heap_simpl.
  destruct (char_class (chars h self)) eqn:Hcls.
  1-3: apply wp_ret, wp_ret;
    apply HQ; heap_simpl; auto;
    try (intros c Hc; rewrite !upd_other by exact Hc; reflexivity);
    unfold copy_of, v0, new_character, with_sp, with_hp; simpl;
    rewrite Hcls; reflexivity.
  apply wp_bind, wp_get_char. heap_simpl.
  rewrite (upd_other _ _ _ _ Hne). rewrite (upd_other _ _ _ _ Hne).
  rewrite (upd_other _ _ _ _ Hne).
  apply wp_bind, wp_get_char, wp_set_char. apply wp_ret.
  apply HQ; heap_simpl; auto.
  - intros c Hc. rewrite !upd_other by exact Hc. reflexivity.
  - unfold copy_of, v0, new_character, with_sp, with_hp, with_decision_tree.
    simpl. rewrite Hcls. reflexivity.
Qed.

(** The heap after [q.copy()] returned [q'], for a queue [q] whose
    participants are [a] and [b]: two new characters and one new queue,
    everything else as before. *)
Definition copied_heap (h : Heap) (q : qref) (a b : ref) (q' : qref)
  (h' : Heap) : Prop :=
  let p1_copy := next_char h in
  let p2_copy := S (next_char h) in
  q' = next_queue h
  /\ next_char h' = S (S (next_char h))
  /\ next_queue h' = S (next_queue h)
  /\ (forall c, c <> p1_copy -> c <> p2_copy -> chars h' c = chars h c)
  /\ (forall x, x <> q' -> queues h' x = queues h x)
  /\ chars h' p1_copy = copy_of (chars h a) q' (Some p2_copy)
  /\ chars h' p2_copy = copy_of (chars h b) q' (Some p1_copy)
  /\ queues h' q' = copy_state (queues h q) p1_copy p2_copy.

Lemma wp_set_enemy fail (c : ref) (e : option ref) (Q : unit -> Heap -> Prop)
  (h : Heap) :
  Q tt (heap_set_char h c (with_enemy (chars h c) e)) ->
  wp fail (set_enemy c e) Q h.
Proof. intros H. unfold set_enemy. apply wp_bind, wp_get_char, wp_set_char, H. Qed.

Lemma wp_copy_prelude fail (cls : QueueClass) (q : qref) (a b : ref)
  (Q : qref * ref * ref -> Heap -> Prop) (h : Heap) :
  (q < next_queue h)%nat -> (a < next_char h)%nat -> (b < next_char h)%nat ->
  _p1 (queues h q) = Some a -> _p2 (queues h q) = Some b ->
  (forall h',
      next_char h' = S (S (next_char h)) ->
      next_queue h' = S (next_queue h) ->
      (forall c, c <> next_char h -> c <> S (next_char h) ->
                 chars h' c = chars h c) ->
      (forall x, x <> next_queue h -> queues h' x = queues h x) ->
      chars h' (next_char h) =
        copy_of (chars h a) (next_queue h) (Some (S (next_char h))) ->
      chars h' (S (next_char h)) =
        copy_of (chars h b) (next_queue h) (Some (next_char h)) ->
      queues h' (next_queue h) = new_queue cls ->
      Q (next_queue h, next_char h, S (next_char h)) h') ->
  wp fail (copy_prelude cls q) Q h.
Proof.
  intros Hq Ha Hb Hp1 Hp2 HQ. unfold copy_prelude.
  apply wp_bind, wp_alloc_queue.
  set (nq := next_queue h). set (n := next_char h).
  assert (Hqn : q <> nq) by (unfold nq; lia).
  apply wp_bind, wp_get_queue. heap_simpl.
  rewrite (upd_other _ _ _ _ Hqn), Hp1.
  apply wp_bind, wp_deref.
  apply wp_bind, wp_Character_copy; [heap_simpl; exact Ha|].
  heap_simpl. fold n.
  intros h1 Hn1 Hq1 Hqs1 Hc1 Hv1.
  apply wp_bind, wp_get_queue. rewrite Hqs1.
  rewrite (upd_other _ _ _ _ Hqn), Hp2.
  apply wp_bind, wp_deref.
  apply wp_bind, wp_Character_copy; [rewrite Hn1; lia|].
  rewrite Hn1.
  intros h2 Hn2 Hq2 Hqs2 Hc2 Hv2.
  apply wp_bind, wp_set_enemy.
  apply wp_bind, wp_set_enemy.
  apply wp_ret.
  assert (Hnn : n <> S n) by lia.
  assert (Han : a <> n) by (unfold n; lia).
  assert (Hbn : b <> n) by (unfold n; lia).
  subst n nq.
  apply HQ; heap_simpl.
  - exact Hn2.
  - rewrite Hq2, Hq1. reflexivity.
  - intros c Hc Hc'. rewrite !upd_other by auto.
    rewrite Hc2 by exact Hc'. rewrite Hc1 by exact Hc. reflexivity.
  - intros x Hx. rewrite Hqs2, Hqs1. apply upd_other. exact Hx.
  - rewrite (upd_other _ _ _ _ Hnn), upd_same.
    rewrite (Hc2 _ Hnn), Hv1. reflexivity.
  - rewrite upd_other by lia.
    rewrite Hv2. rewrite (Hc1 b Hbn). reflexivity.
  - rewrite Hqs2, Hqs1. apply upd_same.
Qed.

Lemma with_content_with_content (q : Queue) (l1 l2 : list ref) :
  with_content (with_content q l1) l2 = with_content q l2.
Proof. reflexivity. Qed.

Lemma wp_replay fail (l : list ref) (p1 : option ref) (nq : qref)
  (p1_copy p2_copy : ref) (Q : unit -> Heap -> Prop) (h : Heap) :
  queue_class (queues h nq) = BattleQueueClass ->
  _p1 (queues h nq) <> None ->
  (forall h',
      chars h' = chars h ->
      next_char h' = next_char h -> next_queue h' = next_queue h ->
      (forall x, x <> nq -> queues h' x = queues h x) ->
      queues h' nq =
        with_content (queues h nq)
          (_content (queues h nq)
           ++ map (fun character =>
                     if option_ref_eqb (Some character) p1 then p1_copy
                     else p2_copy) l) ->
      Q tt h') ->
  wp fail (replay l p1 nq p1_copy p2_copy) Q h.
Proof.
  revert h Q. induction l as [|c l IH]; intros h Q Hcls Hp HQ; simpl.
  - apply wp_ret. apply HQ; auto.
    rewrite app_nil_r. destruct (queues h nq); reflexivity.
  - set (x := if option_ref_eqb (Some c) p1 then p1_copy else p2_copy).
    apply wp_bind.
    assert (Hadd : wp fail (bq_add nq x)
              (fun _ h1 =>
                 h1 = heap_set_queue h nq
                        (with_content (queues h nq)
                           (_content (queues h nq) ++ [x]))) h).
    { unfold bq_add. eapply wp_on_queue; [|reflexivity].
      unfold add. rewrite Hcls.
      rewrite BattleQueue_add_established by exact Hp. reflexivity. }
    assert (Hstep : wp fail
              (if option_ref_eqb (Some c) p1 then bq_add nq p1_copy
               else bq_add nq p2_copy)
              (fun _ h1 =>
                 h1 = heap_set_queue h nq
                        (with_content (queues h nq)
                           (_content (queues h nq) ++ [x]))) h).
    { unfold x in *. destruct (option_ref_eqb (Some c) p1); exact Hadd. }
    eapply wp_mono; [exact Hstep|].
    intros u h1 Hh1. cbv beta in Hh1. rewrite Hh1.
    apply IH; heap_simpl; auto.
    intros h' H1 H2 H3 H4 H5. apply HQ; auto.
    + intros y Hy. rewrite (H4 y Hy). apply upd_other. exact Hy.
    + rewrite H5. rewrite with_content_with_content.
      cbn [_content with_content]. rewrite <- app_assoc. reflexivity.
Qed.

Lemma wp_bq_copy fail (q : qref) (a b : ref) (Q : qref -> Heap -> Prop)
  (h : Heap) :
  (q < next_queue h)%nat -> (a < next_char h)%nat -> (b < next_char h)%nat ->
  _p1 (queues h q) = Some a -> _p2 (queues h q) = Some b ->
  (forall q' h', copied_heap h q a b q' h' -> Q q' h') ->
  wp fail (bq_copy q) Q h.
Proof.
  intros Hq Ha Hb Hp1 Hp2 HQ. unfold bq_copy.
  apply wp_bind, wp_get_queue.
  assert (Hqn : q <> next_queue h) by lia.
  destruct (queue_class (queues h q)) eqn:Hcls.
  - (* BattleQueue.copy *)
    unfold BattleQueue_copy.
    apply wp_bind. apply (wp_copy_prelude fail _ q a b); auto.
    intros h1 Hn1 Hq1 Hc1 Hqs1 Hv1 Hv2 Hnew.
    set (nq := next_queue h) in *. set (n := next_char h) in *.
    (* new_battle_queue.add(p1_copy) *)
    apply wp_bind. unfold bq_add at 1.
    eapply wp_on_queue.
    { unfold add. rewrite Hnew. cbn [queue_class new_queue]. reflexivity. }
    set (q1 := BattleQueue_add (chars h1) (new_queue BattleQueueClass) n).
    assert (Hq1v : q1 = {| queue_class := BattleQueueClass; _content := [n];
                           _p1 := Some n; _p2 := Some (S n); _can_add := [] |}).
    { unfold q1, BattleQueue_add, set_players_once.
      cbn. rewrite Hv1. reflexivity. }
    (* is_empty, and remove if it is not *)
    apply wp_bind. unfold bq_is_empty.
    eapply wp_on_queue; [reflexivity|].
    heap_simpl.
    set (q2 := _clean_queue (chars h1) q1).
    assert (Hdrain : wp fail
              (if negb (is_nil (_content q2))
               then bq_remove nq ;; ret tt else ret tt)
              (fun _ h3 =>
                 chars h3 = chars h1 /\ next_char h3 = next_char h1
                 /\ next_queue h3 = next_queue h1
                 /\ (forall x, x <> nq -> queues h3 x = queues h1 x)
                 /\ queues h3 nq =
                    {| queue_class := BattleQueueClass; _content := [];
                       _p1 := Some n; _p2 := Some (S n); _can_add := [] |})
              (heap_set_queue
                 (heap_set_queue h1 nq q1) nq
                 (snd (is_empty (chars h1) q1)))).
    { unfold is_empty. cbn [snd]. fold q2.
      assert (Hq2 : q2 = with_content q1 (clean_list (chars h1) [n])).
      { unfold q2, _clean_queue. rewrite Hq1v. reflexivity. }
      cbn [clean_list] in Hq2.
      destruct (is_nil (get_available_actions (chars h1 n))) eqn:Hact.
      - rewrite Hq2. cbn [with_content _content is_nil negb].
        apply wp_ret. heap_simpl. rewrite Hq1v.
        repeat split; auto.
        intros x Hx. rewrite !upd_other by exact Hx. reflexivity.
      - rewrite Hq2. cbn [with_content _content is_nil negb].
        apply wp_bind. unfold bq_remove.
        eapply wp_on_queue.
        { heap_simpl. unfold remove. rewrite Hq1v.
          cbn [queue_class with_content].
          unfold BattleQueue_remove, _clean_queue.
          cbn [_content with_content clean_list]. rewrite Hact.
          reflexivity. }
        apply wp_ret. heap_simpl.
        repeat split; auto.
        intros x Hx. rewrite !upd_other by exact Hx. reflexivity. }
    apply wp_bind.
    eapply wp_mono; [exact Hdrain|]. clear Hdrain.
    intros u h3 (Hc3 & Hn3 & Hnq3 & Hqs3 & Hq3).
    apply wp_bind, wp_get_queue.
    rewrite (Hqs3 q Hqn), (Hqs1 q Hqn).
    apply wp_bind. apply wp_replay.
    + rewrite Hq3. reflexivity.
    + rewrite Hq3. discriminate.
    + intros h4 Hc4 Hn4 Hnq4 Hqs4 Hq4. apply wp_ret.
      apply HQ. unfold copied_heap. fold n nq.
      repeat split.
      * congruence.
      * congruence.
      * intros c H1 H2. rewrite Hc4, Hc3. apply Hc1; auto.
      * intros x Hx. rewrite (Hqs4 x Hx), (Hqs3 x Hx). apply Hqs1. exact Hx.
      * rewrite Hc4, Hc3. exact Hv1.
      * rewrite Hc4, Hc3. exact Hv2.
      * rewrite Hq4, Hq3. unfold copy_state, with_content.
        cbn [_content queue_class _p1 _p2 _can_add app].
        rewrite Hcls. reflexivity.
  - (* RestrictedBattleQueue.copy *)
    unfold RestrictedBattleQueue_copy.
    apply wp_bind. apply (wp_copy_prelude fail _ q a b); auto.
    intros h1 Hn1 Hq1 Hc1 Hqs1 Hv1 Hv2 Hnew.
    set (nq := next_queue h) in *. set (n := next_char h) in *.
    apply wp_bind, wp_get_queue.
    apply wp_bind, wp_set_queue.
    apply wp_bind, wp_get_queue. heap_simpl.
    rewrite (upd_other _ _ _ _ Hqn), (Hqs1 q Hqn).
    apply wp_bind, wp_get_queue. heap_simpl.
    apply wp_bind, wp_set_queue. apply wp_ret.
    apply HQ. unfold copied_heap. fold n nq. heap_simpl.
    repeat split; auto.
    + intros x Hx. rewrite !upd_other by exact Hx. apply Hqs1. exact Hx.
    + rewrite Hnew. unfold copy_state, with_can_add, with_content, with_players.
      cbn [_content queue_class _p1 _p2 _can_add new_queue].
      rewrite Hcls, map_id. reflexivity.
Qed.

(** The queue state [copy_state] is what [bq_copy] leaves in the new
    queue object; [copy] returns whenever both participants are set. *)
Lemma bq_copy_state (q : qref) (a b : ref) (h : Heap) :
  (q < next_queue h)%nat -> (a < next_char h)%nat -> (b < next_char h)%nat ->
  _p1 (queues h q) = Some a -> _p2 (queues h q) = Some b ->
  exists q' h',
    bq_copy q h = Ok q' h'
    /\ copied_heap h q a b q' h'
    /\ queues h' q' = copy_state (queues h q) (next_char h) (S (next_char h)).
Proof.
  intros Hq Ha Hb Hp1 Hp2.
  pose proof (wp_bq_copy False q a b
                (fun q' h' => copied_heap h q a b q' h') h
                Hq Ha Hb Hp1 Hp2 (fun _ _ H => H)) as H.
  unfold wp in H. destruct (bq_copy q h) as [q' h'| |]; try contradiction.
  exists q', h'. repeat split; try apply H.
Qed.

(* ================================================================== *)
(** * Two facts about calls on the heap *)

(** A rejected [add] on the heap: every character and every queue is as
    before. *)
Lemma bq_add_rejected (h : Heap) (q : qref) (character : ref) :
  reachable (queues h q) ->
  queue_class (queues h q) = RestrictedBattleQueueClass ->
  _content (queues h q) <> [] ->
  hd_error (_can_add (queues h q)) = Some no ->
  exists h',
    bq_add q character h = Ok tt h'
    /\ (forall c, chars h' c = chars h c)
    /\ (forall x, queues h' x = queues h x)
    /\ next_char h' = next_char h /\ next_queue h' = next_queue h.
Proof.
  intros Hr Hcls Hne Hhd.
  exists (heap_set_queue h q (queues h q)).
  split; [|split; [|split; [|split]]]; try reflexivity.
  - unfold bq_add, on_queue.
    rewrite (add_rejected (chars h) (queues h q) character Hr Hcls Hne Hhd).
    reflexivity.
  - intros x. heap_simpl. destruct (Nat.eq_dec x q) as [->|Hx].
    + apply upd_same.
    + apply upd_other. exact Hx.
Qed.

(** The loop of [SorcererSpecial.use] ends within the fuel it is given:
    every turn of the loop removes at least one entry. *)
Lemma drain_fuel_suffices (fuel : nat) (q : qref) (h : Heap) :
  (List.length (_content (queues h q)) <= fuel)%nat ->
  drain fuel q h <> OutOfFuel.
Proof.
  revert h. induction fuel as [|fuel IH]; intros h Hlen.
  - cbn [drain]. unfold bind, bq_is_empty, on_queue. cbn.
    destruct (_content (queues h q)) as [|c l]; [|simpl in Hlen; lia].
    cbn. discriminate.
  - cbn [drain]. unfold bind at 1, bq_is_empty, on_queue. cbn.
    destruct (is_nil (clean_list (chars h) (_content (queues h q)))) eqn:E;
      [discriminate|].
    change {| chars := chars h;
              queues := upd (queues h) q (_clean_queue (chars h) (queues h q));
              next_char := next_char h; next_queue := next_queue h |}
      with (heap_set_queue h q (_clean_queue (chars h) (queues h q))).
    set (h1 := heap_set_queue h q (_clean_queue (chars h) (queues h q))).
    assert (Hq1 : queues h1 q = _clean_queue (chars h) (queues h q))
      by (unfold h1; heap_simpl; reflexivity).
    unfold bind, bq_remove, on_queue.
    change (chars h1) with (chars h). rewrite Hq1.
    destruct (remove (chars h) (_clean_queue (chars h) (queues h q)))
      as [e|[c r]] eqn:Er; [discriminate|].
    cbn [set_queue ret bind].
    apply IH. heap_simpl.
    pose proof (clean_list_length (chars h) (_content (queues h q))) as Hcl.
    assert (Hr : clean_list (chars h) (_content (queues h q))
                 = c :: _content r).
    { unfold remove in Er.
      destruct (queue_class (_clean_queue (chars h) (queues h q))).
      - destruct (BattleQueue_remove_fields _ _ r c Er) as (K & _).
        cbn [_content _clean_queue with_content] in K.
        rewrite clean_list_idempotent in K. exact K.
      - unfold RestrictedBattleQueue_remove in Er.
        destruct (BattleQueue_remove_fields _ _ r c Er) as (K & _).
        cbn [_content _clean_queue with_content with_can_add] in K.
        rewrite !clean_list_idempotent in K. exact K. }
    rewrite Hr in Hcl. simpl in Hcl. lia.
Qed.

(* ================================================================== *)
(** * The evaluators on a finished game with both participants at hp 0 *)

(** C9: when both participants have hp 0 the game is over, and both
    evaluators return the score 0, whatever the turn sequence holds. *)
Theorem C9_both_zero_scores_zero (h : Heap) (bq : qref) (a b : ref)
  (fuel : nat) :
  (bq < next_queue h)%nat -> (a < next_char h)%nat -> (b < next_char h)%nat ->
  _p1 (queues h bq) = Some a -> _p2 (queues h bq) = Some b ->
  _hp (chars h a) = 0 -> _hp (chars h b) = 0 ->
  returned (get_state_score (S fuel) bq h) = Some 0
  /\ returned (iterative_get_score (S fuel) bq h) = Some 0.
Proof.
  intros Hq Ha Hb Hp1 Hp2 Hz1 Hz2. split; apply wp_returned.
  - (* get_state_score *)
    cbn [get_state_score].
    apply wp_bind. apply (wp_is_over_both_zero bq a b).
    + repeat split; assumption.
    + intros h1 Hbz. apply (wp_over_score_both_zero bq a b). exact Hbz.
  - (* iterative_get_score *)
    unfold iterative_get_score.
    apply wp_bind. apply (wp_bq_copy False bq a b); auto.
    intros q' h1 (Hq' & Hn1 & Hnq1 & Hc1 & Hqs1 & Hv1 & Hv2 & Hst).
    cbn [new_tree no_trees next_tree].
    set (ts := {| tree_at := _; next_tree := _ |}).
    assert (Hbz : both_zero q' (next_char h) (S (next_char h)) h1).
    { unfold both_zero. rewrite Hst, Hv1, Hv2. cbn. auto. }
    apply wp_bind. cbn [iterative_loop].
    assert (Hts : state (tree_at ts O) = q') by reflexivity.
    rewrite Hts.
    apply wp_bind. apply (wp_is_over_both_zero q' _ _ False _ h1 Hbz).
    intros h2 Hbz2.
    apply wp_bind.
    eapply wp_mono; [apply (wp_over_score_both_zero q' _ _ h2 Hbz2)|].
    intros v h3 Hv. cbv beta in Hv. subst v.
    destruct fuel; cbn; reflexivity.
Qed.

(* ================================================================== *)
(** * Heaps used in the examples *)

Definition fighter (cls : CharClass) (name : string) (hp sp : Z)
  (e : option ref) : Character :=
  with_enemy (with_sp (with_hp (new_character cls name O (manual O)) hp) sp) e.

(** The heap after
    [bq = BattleQueue(); p = C1("p", bq, ps); o = C2("o", bq, ps);
     p.enemy = o; o.enemy = p; p.set_hp(hp1); p.set_sp(sp1);
     o.set_hp(hp2); o.set_sp(sp2); bq.add(p); bq.add(o)]:
    queue 0 holds [p -> o], with [p] character 0 and [o] character 1. *)
Definition duel (cls1 cls2 : CharClass) (hp1 sp1 hp2 sp2 : Z) : Heap :=
  {| chars := fun c =>
                match c with
                | O => fighter cls1 "p" hp1 sp1 (Some 1%nat)
                | _ => fighter cls2 "o" hp2 sp2 (Some O)
                end;
     queues := fun _ => two_in_queue;
     next_char := 2;
     next_queue := 1 |}.

Lemma C9_both_zero_scores_zero_witness :
  returned (get_state_score 1 O (duel Rogue Mage 0 100 0 100)) = Some 0
  /\ returned (iterative_get_score 1 O (duel Rogue Mage 0 100 0 100)) = Some 0.
Proof.
  apply (C9_both_zero_scores_zero (duel Rogue Mage 0 100 0 100) O O 1%nat O);
    cbn; try lia; reflexivity.
Defined.

(* ================================================================== *)
(** * The move [select_attack] returns *)

Lemma choose_spec (copy1_score copy2_score : Z) :
  choose copy1_score copy2_score =
  if copy2_score <=? copy1_score then "A" else "S".
Proof.
  unfold choose.
  destruct (copy2_score <=? copy1_score) eqn:E.
  - apply Z.leb_le in E. rewrite Z.max_r by exact E.
    rewrite Z.eqb_refl. reflexivity.
  - apply Z.leb_gt in E. rewrite Z.max_l by lia.
    destruct (copy2_score =? copy1_score) eqn:E2;
      [apply Z.eqb_eq in E2; lia|].
    rewrite Z.eqb_refl. reflexivity.
Qed.

Lemma returned_select_attack (score : qref -> M Z) (bq : qref) (h : Heap) :
  returned (select_attack score bq h) =
  match returned (select_attack_scores score bq h) with
  | Some scores => Some (choose (fst scores) (snd scores))
  | None => None
  end.
Proof.
  unfold select_attack, bind.
  destruct (select_attack_scores score bq h); reflexivity.
Qed.

(** The last branch of the conditional is dead: whatever the evaluator
    and the state, [select_attack] does not return ['X']. *)
Lemma select_attack_never_X (score : qref -> M Z) (bq : qref) (h : Heap) :
  returned (select_attack score bq h) <> Some "X".
Proof.
  rewrite returned_select_attack.
  destruct (returned (select_attack_scores score bq h)) as [[s1 s2]|];
    [|discriminate].
  rewrite choose_spec. cbn [fst snd].
  destruct (s2 <=? s1); discriminate.
Qed.

(** Closed facts about concrete heaps are settled by evaluation. *)
Ltac conjuncts := repeat match goal with |- _ /\ _ => split end.
Ltac evaluate := cbv zeta; conjuncts; vm_compute; reflexivity.

(** C10: when the two scores [select_attack] compares are equal, both
    engines return ['A']. *)
Theorem C10_tie_prefers_attack (fuel : nat) (bq : qref) (h : Heap) (s : Z) :
  (returned (select_attack_scores (get_state_score fuel) bq h) = Some (s, s) ->
   returned (RecursiveMinimax_select_attack fuel bq h) = Some "A")
  /\ (returned (select_attack_scores (iterative_get_score fuel) bq h)
      = Some (s, s) ->
      returned (IterativeMinimax_select_attack fuel bq h) = Some "A").
Proof.
  unfold RecursiveMinimax_select_attack, IterativeMinimax_select_attack.
  split; intros H; rewrite returned_select_attack, H; cbn [fst snd];
    rewrite choose_spec, Z.leb_refl; reflexivity.
Qed.

(** A duel of two rogues in which both moves of the head are affordable
    and both win at once: the scores tie at 100. *)
Lemma C10_tie_prefers_attack_witness :
  let h := duel Rogue Rogue 100 100 5 100 in
  is_valid_action (chars h O) "A" = true
  /\ is_valid_action (chars h O) "S" = true
  /\ returned (select_attack_scores (get_state_score 4) O h) = Some (100, 100)
  /\ returned (RecursiveMinimax_select_attack 4 O h) = Some "A"
  /\ returned (select_attack_scores (iterative_get_score 4) O h)
     = Some (100, 100)
  /\ returned (IterativeMinimax_select_attack 4 O h) = Some "A".
Proof.
  cbv zeta.
  destruct (C10_tie_prefers_attack 4 O (duel Rogue Rogue 100 100 5 100) 100)
    as [Hrec Hiter].
  split; [reflexivity|]. split; [reflexivity|].
  split; [vm_compute; reflexivity|].
  split; [apply Hrec; vm_compute; reflexivity|].
  split; [vm_compute; reflexivity|].
  apply Hiter; vm_compute; reflexivity.
Defined.

(** C2, failing input: two rogues without SP.  The head can afford
    neither move, both scores keep their initial values [-5445543] and
    [-6476444], their maximum equals the first, and both engines return
    ['A'] where the claim has ['X']. *)
Theorem C2_no_affordable_move_returns_A :
  let h := duel Rogue Rogue 100 0 100 0 in
  returned (peek_is_valid_action O "A" h) = Some false
  /\ returned (peek_is_valid_action O "S" h) = Some false
  /\ returned (select_attack_scores (get_state_score 4) O h)
     = Some (-5445543, -6476444)
  /\ returned (RecursiveMinimax_select_attack 4 O h) = Some "A"
  /\ returned (IterativeMinimax_select_attack 4 O h) = Some "A".
Proof. evaluate. Qed.

(** C1, failing input: two rogues, [p] with hp 5 and sp 100 at the head,
    [o] with hp 10 and sp 3.  The special attack of [p] wins at once.  Its
    normal attack leaves [o] one attack that kills [p].  The recursive
    engine negates the score of a child whose head is the other
    character; the iterative fold compares [type(...)] instead, which is
    [Rogue] on both sides, and keeps the sign.  The two evaluators return
    5 and -5, and the two [select_attack] return ['S'] and ['A']. *)
Theorem C1_engines_disagree :
  let h := duel Rogue Rogue 5 100 10 3 in
  returned (get_state_score 4 O h) = Some 5
  /\ returned (iterative_get_score 16 O h) = Some (-5)
  /\ returned (select_attack_scores (get_state_score 4) O h) = Some (-5, 5)
  /\ returned (select_attack_scores (iterative_get_score 16) O h)
     = Some (5, 5)
  /\ returned (RecursiveMinimax_select_attack 4 O h) = Some "S"
  /\ returned (IterativeMinimax_select_attack 16 O h) = Some "A".
Proof. evaluate. Qed.

(** With characters of two different classes the same position is scored
    alike by both engines. *)
Lemma engines_agree_rogue_mage :
  let h := duel Rogue Mage 5 10 10 5 in
  returned (get_state_score 6 O h) = returned (iterative_get_score 40 O h)
  /\ returned (RecursiveMinimax_select_attack 6 O h)
     = returned (IterativeMinimax_select_attack 40 O h)
  /\ returned (RecursiveMinimax_select_attack 6 O h) <> None.
Proof.
  cbv zeta. conjuncts; vm_compute; try reflexivity. discriminate.
Qed.

(* ================================================================== *)
(** * Objects a call can reach, and the objects it leaves alone *)

(** A side of the heap: a set of character identities and a set of queue
    identities. *)
Record Side := {
  owns_char : ref -> Prop;
  owns_queue : qref -> Prop
}.

Section Frame.
Variable S : Side.

(** An allocated object of the side. *)
Definition char_in (h : Heap) (c : ref) : Prop :=
  owns_char S c /\ (c < next_char h)%nat.
Definition queue_in (h : Heap) (q : qref) : Prop :=
  owns_queue S q /\ (q < next_queue h)%nat.
Definition opt_in (h : Heap) (x : option ref) : Prop :=
  match x with Some c => char_in h c | None => True end.

(** Every reference held by the object stays inside the side. *)
Definition char_closed (h : Heap) (ch : Character) : Prop :=
  queue_in h (battle_queue ch) /\ opt_in h (enemy ch).
Definition queue_closed (h : Heap) (qu : Queue) : Prop :=
  Forall (char_in h) (_content qu) /\ opt_in h (_p1 qu) /\ opt_in h (_p2 qu).

(** The side is closed under the references of its objects, and owns
    every identity not allocated yet. *)
Definition closed (h : Heap) : Prop :=
  (forall c, char_in h c -> char_closed h (chars h c))
  /\ (forall q, queue_in h q -> queue_closed h (queues h q))
  /\ (forall c, (next_char h <= c)%nat -> owns_char S c)
  /\ (forall q, (next_queue h <= q)%nat -> owns_queue S q).

(** Nothing outside the side has changed, and nothing was freed. *)
Definition frame (h h' : Heap) : Prop :=
  (forall c, ~ owns_char S c -> chars h' c = chars h c)
  /\ (forall q, ~ owns_queue S q -> queues h' q = queues h q)
  /\ (next_char h <= next_char h')%nat
  /\ (next_queue h <= next_queue h')%nat.

Lemma frame_refl (h : Heap) : frame h h.
Proof. repeat split; auto. Qed.

Lemma frame_trans (h1 h2 h3 : Heap) :
  frame h1 h2 -> frame h2 h3 -> frame h1 h3.
Proof.
  intros (A1 & B1 & C1 & D1) (A2 & B2 & C2 & D2). repeat split.
  - intros c Hc. rewrite A2, A1; auto.
  - intros q Hq. rewrite B2, B1; auto.
  - lia.
  - lia.
Qed.

Lemma char_in_mono (h h' : Heap) (c : ref) :
  (next_char h <= next_char h')%nat -> char_in h c -> char_in h' c.
Proof. unfold char_in. intros H [A B]. split; [exact A|lia]. Qed.

Lemma queue_in_mono (h h' : Heap) (q : qref) :
  (next_queue h <= next_queue h')%nat -> queue_in h q -> queue_in h' q.
Proof. unfold queue_in. intros H [A B]. split; [exact A|lia]. Qed.

Lemma opt_in_mono (h h' : Heap) (x : option ref) :
  (next_char h <= next_char h')%nat -> opt_in h x -> opt_in h' x.
Proof. destruct x; simpl; [apply char_in_mono|auto]. Qed.

Lemma char_closed_mono (h h' : Heap) (ch : Character) :
  (next_char h <= next_char h')%nat ->
  (next_queue h <= next_queue h')%nat ->
  char_closed h ch -> char_closed h' ch.
Proof.
  intros H1 H2 [A B]. split;
    [apply (queue_in_mono h); auto | apply (opt_in_mono h); auto].
Qed.

Lemma queue_closed_mono (h h' : Heap) (qu : Queue) :
  (next_char h <= next_char h')%nat ->
  queue_closed h qu -> queue_closed h' qu.
Proof.
  intros H1 (A & B & C). repeat split.
  - eapply Forall_impl; [|exact A]. intros c. apply char_in_mono. exact H1.
  - apply (opt_in_mono h); auto.
  - apply (opt_in_mono h); auto.
Qed.

(** [char_in] and friends only look at the allocation counters. *)
Lemma char_in_counters (h h' : Heap) (c : ref) :
  next_char h' = next_char h -> char_in h c -> char_in h' c.
Proof. intros H. apply char_in_mono. lia. Qed.

(** ** The heap primitives *)

Lemma closed_set_char (h : Heap) (c : ref) (v : Character) :
  closed h -> char_in h c -> char_closed h v ->
  closed (heap_set_char h c v) /\ frame h (heap_set_char h c v).
Proof.
  intros (A & B & C & D) Hc Hv. split.
  - split; [|split; [|split]]; try assumption.
    intros x Hx. heap_simpl.
    destruct (Nat.eq_dec x c) as [->|Hne].
    + rewrite upd_same. exact Hv.
    + rewrite upd_other by exact Hne. exact (A x Hx).
  - split; [|split; [|split]]; heap_simpl; auto.
    intros x Hx. apply upd_other. intros ->. apply Hx, Hc.
Qed.

Lemma closed_set_queue (h : Heap) (q : qref) (v : Queue) :
  closed h -> queue_in h q -> queue_closed h v ->
  closed (heap_set_queue h q v) /\ frame h (heap_set_queue h q v).
Proof.
  intros (A & B & C & D) Hq Hv. split.
  - split; [|split; [|split]]; try assumption.
    intros x Hx. heap_simpl.
    destruct (Nat.eq_dec x q) as [->|Hne].
    + rewrite upd_same. exact Hv.
    + rewrite upd_other by exact Hne. exact (B x Hx).
  - split; [|split; [|split]]; heap_simpl; auto.
    intros x Hx. apply upd_other. intros ->. apply Hx, Hq.
Qed.

Lemma closed_alloc_char (h : Heap) (v : Character) :
  closed h -> char_closed h v ->
  closed (heap_alloc_char h v) /\ frame h (heap_alloc_char h v)
  /\ char_in (heap_alloc_char h v) (next_char h).
Proof.
  intros (A & B & C & D) Hv.
  assert (Hm : forall ch, char_closed h ch ->
                          char_closed (heap_alloc_char h v) ch).
  { intros ch. apply char_closed_mono; heap_simpl; lia. }
  split; [|split].
  - split; [|split; [|split]].
    + intros x [Hx1 Hx2]. heap_simpl. cbn [next_char heap_alloc_char] in Hx2.
      destruct (Nat.eq_dec x (next_char h)) as [->|Hne].
      * rewrite upd_same. apply Hm, Hv.
      * rewrite upd_other by exact Hne. apply Hm, A. split; [exact Hx1|lia].
    + intros x Hx. apply (queue_closed_mono h); [heap_simpl; lia|].
      exact (B x Hx).
    + intros x Hx. apply C. cbn [next_char heap_alloc_char] in Hx. lia.
    + exact D.
  - split; [|split; [|split]]; heap_simpl; auto.
    intros x Hx. apply upd_other. intros ->. apply Hx, C. lia.
  - split; [apply C; lia | heap_simpl; lia].
Qed.

Lemma closed_alloc_queue (h : Heap) (v : Queue) :
  closed h -> queue_closed h v ->
  closed (heap_alloc_queue h v) /\ frame h (heap_alloc_queue h v)
  /\ queue_in (heap_alloc_queue h v) (next_queue h).
Proof.
  intros (A & B & C & D) Hv.
  assert (Hm : forall ch, char_closed h ch ->
                          char_closed (heap_alloc_queue h v) ch).
  { intros ch. apply char_closed_mono; heap_simpl; lia. }
  split; [|split].
  - split; [|split; [|split]].
    + intros x Hx. apply Hm. exact (A x Hx).
    + intros x [Hx1 Hx2]. heap_simpl.
      cbn [next_queue heap_alloc_queue] in Hx2.
      destruct (Nat.eq_dec x (next_queue h)) as [->|Hne].
      * rewrite upd_same. exact Hv.
      * rewrite upd_other by exact Hne. apply B. split; [exact Hx1|lia].
    + exact C.
    + intros x Hx. apply D. cbn [next_queue heap_alloc_queue] in Hx. lia.
  - split; [|split; [|split]]; heap_simpl; auto.
    intros x Hx. apply upd_other. intros ->. apply Hx, D. lia.
  - split; [apply D; lia | heap_simpl; lia].
Qed.

End Frame.

Section Keeps.
Variable S : Side.

(** [keeps h m R]: if the call [m] returns from the closed heap [h], the
    heap is closed again, nothing outside the side has changed, and the
    result satisfies [R]. *)
Definition keeps {A} (h : Heap) (m : M A) (R : Heap -> A -> Prop) : Prop :=
  wp True m (fun a h' => closed S h' /\ frame S h h' /\ R h' a) h.

Lemma closed_char (h : Heap) (c : ref) :
  closed S h -> char_in S h c -> char_closed S h (chars h c).
Proof. intros (A & _) H. exact (A c H). Qed.

Lemma closed_queue (h : Heap) (q : qref) :
  closed S h -> queue_in S h q -> queue_closed S h (queues h q).
Proof. intros (_ & B & _) H. exact (B q H). Qed.

Lemma keeps_bind {A B} (h : Heap) (m : M A) (k : A -> M B)
  (R : Heap -> A -> Prop) (R' : Heap -> B -> Prop) :
  keeps h m R ->
  (forall a h1, closed S h1 -> frame S h h1 -> R h1 a ->
                keeps h1 (k a) R') ->
  keeps h (bind m k) R'.
Proof.
  unfold keeps, wp, bind. intros Hm Hk.
  destruct (m h) as [a h1| |]; auto.
  destruct Hm as (Hc & Hf & Hr).
  specialize (Hk a h1 Hc Hf Hr). unfold wp in Hk.
  destruct (k a h1) as [b h2| |]; auto.
  destruct Hk as (Hc2 & Hf2 & Hr2).
  split; [exact Hc2|]. split; [|exact Hr2].
  apply (frame_trans S h h1 h2); assumption.
Qed.

Lemma keeps_ret {A} (h : Heap) (a : A) (R : Heap -> A -> Prop) :
  closed S h -> R h a -> keeps h (ret a) R.
Proof. intros Hc Hr. split; [exact Hc|]. split; [apply frame_refl|exact Hr]. Qed.

Lemma keeps_weaken {A} (h : Heap) (m : M A) (R R' : Heap -> A -> Prop) :
  keeps h m R -> (forall h' a, closed S h' -> frame S h h' -> R h' a -> R' h' a) ->
  keeps h m R'.
Proof.
  unfold keeps. intros Hm Hw. eapply wp_mono; [exact Hm|].
  intros a h' (Hc & Hf & Hr). auto.
Qed.

Lemma keeps_raise {A} (h : Heap) (e : Exn) (R : Heap -> A -> Prop) :
  keeps h (raise e) R.
Proof. exact I. Qed.

Lemma keeps_out_of_fuel {A} (h : Heap) (R : Heap -> A -> Prop) :
  keeps h (@out_of_fuel A) R.
Proof. exact I. Qed.

Lemma char_in_frame (h h' : Heap) (c : ref) :
  frame S h h' -> char_in S h c -> char_in S h' c.
Proof. intros (_ & _ & H & _). apply char_in_mono. exact H. Qed.

Lemma queue_in_frame (h h' : Heap) (q : qref) :
  frame S h h' -> queue_in S h q -> queue_in S h' q.
Proof. intros (_ & _ & _ & H). apply queue_in_mono. exact H. Qed.

Lemma opt_in_frame (h h' : Heap) (x : option ref) :
  frame S h h' -> opt_in S h x -> opt_in S h' x.
Proof. intros (_ & _ & H & _). apply opt_in_mono. exact H. Qed.

(** Reading a character of the side gives references of the side. *)
Lemma keeps_get_char (h : Heap) (c : ref) :
  closed S h -> char_in S h c ->
  keeps h (get_char c)
    (fun h' ch => h' = h /\ ch = chars h c /\ char_closed S h ch).
Proof.
  intros Hc Hin. split; [exact Hc|]. split; [apply frame_refl|].
  split; [reflexivity|]. split; [reflexivity|].
  apply closed_char; assumption.
Qed.

(** Reading any character changes nothing. *)
Lemma keeps_read_char (h : Heap) (c : ref) :
  closed S h ->
  keeps h (get_char c) (fun h' ch => h' = h /\ ch = chars h c).
Proof.
  intros Hc. split; [exact Hc|]. split; [apply frame_refl|]. auto.
Qed.

Lemma keeps_read_queue (h : Heap) (q : qref) :
  closed S h ->
  keeps h (get_queue q) (fun h' qu => h' = h /\ qu = queues h q).
Proof.
  intros Hc. split; [exact Hc|]. split; [apply frame_refl|]. auto.
Qed.

Lemma keeps_get_queue (h : Heap) (q : qref) :
  closed S h -> queue_in S h q ->
  keeps h (get_queue q)
    (fun h' qu => h' = h /\ qu = queues h q /\ queue_closed S h qu).
Proof.
  intros Hc Hin. split; [exact Hc|]. split; [apply frame_refl|].
  split; [reflexivity|]. split; [reflexivity|].
  apply closed_queue; assumption.
Qed.

Lemma keeps_set_char (h : Heap) (c : ref) (v : Character) :
  closed S h -> char_in S h c -> char_closed S h v ->
  keeps h (set_char c v) (fun h' _ => chars h' c = v).
Proof.
  intros Hc Hin Hv.
  destruct (closed_set_char S h c v Hc Hin Hv) as [A B].
  split; [exact A|]. split; [exact B|]. heap_simpl. reflexivity.
Qed.

Lemma keeps_set_queue (h : Heap) (q : qref) (v : Queue) :
  closed S h -> queue_in S h q -> queue_closed S h v ->
  keeps h (set_queue q v) (fun h' _ => queues h' q = v).
Proof.
  intros Hc Hin Hv.
  destruct (closed_set_queue S h q v Hc Hin Hv) as [A B].
  split; [exact A|]. split; [exact B|]. heap_simpl. reflexivity.
Qed.

Lemma keeps_alloc_char (h : Heap) (v : Character) :
  closed S h -> char_closed S h v ->
  keeps h (alloc_char v) (fun h' c => char_in S h' c /\ chars h' c = v).
Proof.
  intros Hc Hv.
  destruct (closed_alloc_char S h v Hc Hv) as (A & B & C).
  split; [exact A|]. split; [exact B|]. split; [exact C|].
  heap_simpl. reflexivity.
Qed.

Lemma keeps_alloc_queue (h : Heap) (v : Queue) :
  closed S h -> queue_closed S h v ->
  keeps h (alloc_queue v) (fun h' q => queue_in S h' q /\ queues h' q = v).
Proof.
  intros Hc Hv.
  destruct (closed_alloc_queue S h v Hc Hv) as (A & B & C).
  split; [exact A|]. split; [exact B|]. split; [exact C|].
  heap_simpl. reflexivity.
Qed.

Lemma keeps_deref (h : Heap) (x : option ref) :
  closed S h -> opt_in S h x ->
  keeps h (deref x) (fun h' c => h' = h /\ x = Some c /\ char_in S h c).
Proof.
  intros Hc Hx. destruct x as [c|]; [|exact I].
  split; [exact Hc|]. split; [apply frame_refl|]. auto.
Qed.

(** ** The queue methods keep a queue of the side inside the side *)

Section QueueClosed.
Variable h : Heap.
Hypothesis Hclosed : closed S h.

Lemma clean_list_closed (l : list ref) :
  Forall (char_in S h) l -> Forall (char_in S h) (clean_list (chars h) l).
Proof.
  induction l as [|c l IH]; intros H; simpl; [constructor|].
  destruct (is_nil (get_available_actions (chars h c))); [|exact H].
  apply IH. inversion H; assumption.
Qed.

Lemma clean_queue_closed (q : Queue) :
  queue_closed S h q -> queue_closed S h (_clean_queue (chars h) q).
Proof.
  intros (A & B & C). repeat split; auto. apply clean_list_closed, A.
Qed.

Lemma set_players_once_closed (q : Queue) (c : ref) :
  queue_closed S h q -> char_in S h c ->
  queue_closed S h (set_players_once (chars h) q c).
Proof.
  intros (A & B & C) Hc. unfold set_players_once.
  destruct (_p1 q) eqn:E.
  - split; [exact A|]. split; [rewrite E; exact B|exact C].
  - split; [exact A|]. split; [exact Hc|].
    apply (closed_char h c Hclosed Hc).
Qed.

Lemma BattleQueue_add_closed (q : Queue) (c : ref) :
  queue_closed S h q -> char_in S h c ->
  queue_closed S h (BattleQueue_add (chars h) q c).
Proof.
  intros (A & B & C) Hc. unfold BattleQueue_add.
  apply set_players_once_closed; [|exact Hc].
  repeat split; auto. cbn [_content with_content].
  apply Forall_app. split; [exact A|]. constructor; [exact Hc|constructor].
Qed.

Lemma add_closed (q q' : Queue) (c : ref) :
  queue_closed S h q -> char_in S h c ->
  add (chars h) q c = inr q' -> queue_closed S h q'.
Proof.
  intros Hq Hc Hadd. unfold add in Hadd.
  destruct (queue_class q).
  - inversion Hadd; subst. apply BattleQueue_add_closed; assumption.
  - unfold RestrictedBattleQueue_add in Hadd.
    destruct (count_yes (_content q) (_can_add q) c) as [e|n];
      [discriminate|].
    assert (Happ : forall flag,
               queue_closed S h
                 (set_players_once (chars h)
                    (append_flag (BattleQueue_add (chars h) q c) flag) c)).
    { intros flag. apply set_players_once_closed; [|exact Hc].
      apply (BattleQueue_add_closed q c Hq Hc). }
    destruct (_content q) as [|head rest].
    + inversion Hadd; subst. apply Happ.
    + destruct (_can_add q) as [|flag0 ledger]; [discriminate|].
      destruct (CanAdd_eqb flag0 no).
      * inversion Hadd; subst.
        apply set_players_once_closed; assumption.
      * destruct (negb (existsb (Nat.eqb c) (head :: rest)));
          [inversion Hadd; subst; apply Happ|].
        destruct (Nat.eqb c head && negb (n =? 2));
          inversion Hadd; subst; apply Happ.
Qed.

Lemma BattleQueue_remove_closed (q q' : Queue) (c : ref) :
  queue_closed S h q ->
  BattleQueue_remove (chars h) q = inr (c, q') ->
  char_in S h c /\ queue_closed S h q'.
Proof.
  intros Hq Hrem. unfold BattleQueue_remove in Hrem.
  pose proof (clean_queue_closed q Hq) as (A & B & C).
  destruct (_content (_clean_queue (chars h) q)) as [|x rest] eqn:E;
    [discriminate|].
  inversion Hrem; subst. inversion A; subst.
  split; [assumption|]. split; [assumption|]. split; [exact B|exact C].
Qed.

Lemma remove_closed (q q' : Queue) (c : ref) :
  queue_closed S h q ->
  remove (chars h) q = inr (c, q') ->
  char_in S h c /\ queue_closed S h q'.
Proof.
  intros Hq Hrem. unfold remove in Hrem.
  destruct (queue_class q).
  - apply (BattleQueue_remove_closed q); assumption.
  - unfold RestrictedBattleQueue_remove in Hrem.
    apply BattleQueue_remove_closed in Hrem; [exact Hrem|].
    apply (clean_queue_closed q Hq).
Qed.

Lemma peek_closed (q : Queue) :
  queue_closed S h q ->
  opt_in S h (fst (peek (chars h) q))
  /\ queue_closed S h (snd (peek (chars h) q)).
Proof.
  intros Hq. rewrite peek_state.
  split; [|apply clean_queue_closed; exact Hq].
  pose proof (clean_queue_closed q Hq) as (A & B & C).
  unfold peek.
  destruct (_content (_clean_queue (chars h) q)) as [|x rest] eqn:E;
    cbn [fst].
  - exact B.
  - inversion A; assumption.
Qed.

Lemma is_over_closed (q q' : Queue) (b : bool) :
  queue_closed S h q -> is_over (chars h) q = inr (b, q') ->
  queue_closed S h q'.
Proof.
  intros Hq Hov. apply queue_inv_is_over in Hov. subst q'.
  apply clean_queue_closed. exact Hq.
Qed.

Lemma get_winner_closed (q q' : Queue) (w : option ref) :
  queue_closed S h q -> get_winner (chars h) q = inr (w, q') ->
  opt_in S h w /\ queue_closed S h q'.
Proof.
  intros Hq Hw. unfold get_winner in Hw.
  destruct (is_over (chars h) q) as [e|[over q1]] eqn:E; [discriminate|].
  pose proof (is_over_closed q q1 over Hq E) as (A & B & C).
  destruct (negb over); [inversion Hw; subst; repeat split; auto|].
  destruct (get_hp_of (chars h) (_p1 q1)) as [e|hp1]; [discriminate|].
  destruct (hp1 =? 0); [inversion Hw; subst; repeat split; auto|].
  destruct (get_hp_of (chars h) (_p2 q1)) as [e|hp2]; [discriminate|].
  destruct (hp2 =? 0); inversion Hw; subst; repeat split; auto.
Qed.

End QueueClosed.

Lemma keeps_on_queue {A} (h : Heap) (q : qref)
  (f : Store -> Queue -> Result (A * Queue)) (R : Heap -> A -> Prop) :
  closed S h -> queue_in S h q ->
  (forall a q', f (chars h) (queues h q) = inr (a, q') ->
                queue_closed S h q' /\ R (heap_set_queue h q q') a) ->
  keeps h (on_queue q f) R.
Proof.
  intros Hc Hq Hf. unfold keeps, wp, on_queue.
  destruct (f (chars h) (queues h q)) as [e|[a q']] eqn:E; [exact I|].
  destruct (Hf a q' eq_refl) as [Hq' Hr].
  destruct (closed_set_queue S h q q' Hc Hq Hq') as [A1 B1].
  cbn. auto.
Qed.

(** Membership only depends on the allocation counters, which a write
    to a queue keeps. *)
Lemma char_in_set_queue (h : Heap) (q : qref) (v : Queue) (c : ref) :
  char_in S h c -> char_in S (heap_set_queue h q v) c.
Proof. auto. Qed.

Lemma opt_in_set_queue (h : Heap) (q : qref) (v : Queue) (x : option ref) :
  opt_in S h x -> opt_in S (heap_set_queue h q v) x.
Proof. destruct x; auto. Qed.

Lemma keeps_bq_add (h : Heap) (q : qref) (c : ref) :
  closed S h -> queue_in S h q -> char_in S h c ->
  keeps h (bq_add q c) (fun _ _ => True).
Proof.
  intros Hc Hq Hin. unfold bq_add. apply keeps_on_queue; auto.
  intros [] q' Hf.
  destruct (add (chars h) (queues h q) c) as [e|s'] eqn:E; [discriminate|].
  inversion Hf; subst. split; [|exact I].
  apply (add_closed h Hc (queues h q) q' c); auto.
  apply closed_queue; assumption.
Qed.

Lemma keeps_bq_remove (h : Heap) (q : qref) :
  closed S h -> queue_in S h q ->
  keeps h (bq_remove q) (fun h' c => char_in S h' c).
Proof.
  intros Hc Hq. unfold bq_remove. apply keeps_on_queue; auto.
  intros c q' Hf.
  assert (Hqc : queue_closed S h (queues h q))
    by (apply closed_queue; assumption).
  destruct (remove_closed h (queues h q) q' c Hqc Hf) as [A B]. auto.
Qed.

Lemma keeps_bq_is_empty (h : Heap) (q : qref) :
  closed S h -> queue_in S h q ->
  keeps h (bq_is_empty q) (fun _ _ => True).
Proof.
  intros Hc Hq. unfold bq_is_empty. apply keeps_on_queue; auto.
  intros e q' Hf. inversion Hf; subst. split; [|exact I].
  apply clean_queue_closed. apply closed_queue; assumption.
Qed.

Lemma keeps_bq_peek (h : Heap) (q : qref) :
  closed S h -> queue_in S h q ->
  keeps h (bq_peek q) (fun h' p => opt_in S h' p).
Proof.
  intros Hc Hq. unfold bq_peek. apply keeps_on_queue; auto.
  intros p q' Hf. inversion Hf as [Hpk]; clear Hf.
  destruct (peek_closed h (queues h q)) as [A B];
    [apply closed_queue; assumption|].
  rewrite Hpk in A, B. cbn [fst snd] in A, B.
  split; [exact B|]. apply opt_in_set_queue. exact A.
Qed.

Lemma keeps_bq_is_over (h : Heap) (q : qref) :
  closed S h -> queue_in S h q ->
  keeps h (bq_is_over q) (fun _ _ => True).
Proof.
  intros Hc Hq. unfold bq_is_over. apply keeps_on_queue; auto.
  intros b q' Hf. split; [|exact I].
  apply (is_over_closed h (queues h q) q' b); auto.
  apply closed_queue; assumption.
Qed.

Lemma keeps_bq_get_winner (h : Heap) (q : qref) :
  closed S h -> queue_in S h q ->
  keeps h (bq_get_winner q) (fun h' w => opt_in S h' w).
Proof.
  intros Hc Hq. unfold bq_get_winner. apply keeps_on_queue; auto.
  intros w q' Hf.
  assert (Hqc : queue_closed S h (queues h q))
    by (apply closed_queue; assumption).
  destruct (get_winner_closed h (queues h q) q' w Hqc Hf) as [A B].
  split; [exact B|]. apply opt_in_set_queue. exact A.
Qed.

End Keeps.

Section KeepsMoves.
Variable S : Side.

Local Abbreviation keeps := (keeps S).
Local Abbreviation char_in := (char_in S).
Local Abbreviation queue_in := (queue_in S).
Local Abbreviation opt_in := (opt_in S).

(** A write that keeps the references of the character. *)
Lemma keeps_update (h : Heap) (c : ref) (g : Character -> Character) :
  closed S h -> char_in h c ->
  (forall ch, battle_queue (g ch) = battle_queue ch
              /\ enemy (g ch) = enemy ch) ->
  keeps h (ch <- get_char c ;; set_char c (g ch)) (fun _ _ => True).
Proof.
  intros Hc Hin Hg.
  eapply keeps_bind; [apply keeps_get_char; assumption|].
  intros ch h1 _ _ (-> & -> & Hch).
  eapply keeps_weaken; [apply keeps_set_char; try assumption|auto].
  destruct (Hg (chars h c)) as [E1 E2].
  unfold char_closed. rewrite E1, E2. exact Hch.
Qed.

Lemma keeps_set_hp (h : Heap) (c : ref) (v : Z) :
  closed S h -> char_in h c -> keeps h (set_hp c v) (fun _ _ => True).
Proof. intros. apply (keeps_update h c (fun ch => with_hp ch v)); auto. Qed.

Lemma keeps_set_sp (h : Heap) (c : ref) (v : Z) :
  closed S h -> char_in h c -> keeps h (set_sp c v) (fun _ _ => True).
Proof. intros. apply (keeps_update h c (fun ch => with_sp ch v)); auto. Qed.

Lemma keeps_set_skill_decision_tree (h : Heap) (c : ref)
  (t : option SkillDecisionTree) :
  closed S h -> char_in h c ->
  keeps h (set_skill_decision_tree c t) (fun _ _ => True).
Proof.
  intros. apply (keeps_update h c (fun ch => with_decision_tree ch t)); auto.
Qed.

Lemma keeps_reduce_sp (h : Heap) (c : ref) (cost : Z) :
  closed S h -> char_in h c -> keeps h (reduce_sp c cost) (fun _ _ => True).
Proof.
  intros. apply (keeps_update h c (fun ch => with_sp ch (_sp ch - cost))); auto.
Qed.

Lemma keeps_apply_damage (h : Heap) (c : ref) (damage : Z) :
  closed S h -> char_in h c ->
  keeps h (apply_damage c damage) (fun _ _ => True).
Proof.
  intros.
  apply (keeps_update h c
           (fun ch => with_hp ch (Z.max (_hp ch - (damage - _defense ch)) 0)));
    auto.
Qed.

Lemma keeps_set_enemy (h : Heap) (c : ref) (e : option ref) :
  closed S h -> char_in h c -> opt_in h e ->
  keeps h (set_enemy c e) (fun _ _ => True).
Proof.
  intros Hc Hin He. unfold set_enemy.
  eapply keeps_bind; [apply keeps_get_char; assumption|].
  intros ch h1 _ _ (-> & -> & Hch).
  eapply keeps_weaken; [apply keeps_set_char; try assumption|auto].
  split; [apply Hch | exact He].
Qed.

Lemma keeps_get_hp (h : Heap) (c : ref) :
  closed S h -> keeps h (get_hp c) (fun h' _ => h' = h).
Proof.
  intros Hc. unfold get_hp.
  eapply keeps_bind; [apply keeps_read_char; assumption|].
  intros ch h1 _ _ (-> & ->). apply keeps_ret; auto.
Qed.

Lemma keeps_get_sp (h : Heap) (c : ref) :
  closed S h -> keeps h (get_sp c) (fun h' _ => h' = h).
Proof.
  intros Hc. unfold get_sp.
  eapply keeps_bind; [apply keeps_read_char; assumption|].
  intros ch h1 _ _ (-> & ->). apply keeps_ret; auto.
Qed.

Lemma keeps_deal_damage (h : Heap) (s : Skill) (caster : ref)
  (target : option ref) :
  closed S h -> char_in h caster -> opt_in h target ->
  keeps h (_deal_damage s caster target) (fun _ _ => True).
Proof.
  intros Hc Hin Ht. unfold _deal_damage.
  eapply keeps_bind; [apply keeps_reduce_sp; assumption|].
  intros [] h1 Hc1 Hf1 _.
  eapply keeps_bind;
    [apply keeps_deref; [assumption|apply (opt_in_frame S h); assumption]|].
  intros t h2 _ _ (-> & _ & Hint).
  apply keeps_apply_damage; assumption.
Qed.

Lemma keeps_add_to_queue_of (h : Heap) (caster x : ref) :
  closed S h -> char_in h caster -> char_in h x ->
  keeps h (add_to_queue_of caster x) (fun _ _ => True).
Proof.
  intros Hc Hin Hx. unfold add_to_queue_of.
  eapply keeps_bind; [apply keeps_get_char; assumption|].
  intros ch h1 _ _ (-> & -> & Hch).
  apply keeps_bq_add; auto. apply Hch.
Qed.

Lemma keeps_NormalAttack_use (h : Heap) (s : Skill) (caster : ref)
  (target : option ref) :
  closed S h -> char_in h caster -> opt_in h target ->
  keeps h (NormalAttack_use s caster target) (fun _ _ => True).
Proof.
  intros Hc Hin Ht. unfold NormalAttack_use.
  eapply keeps_bind; [apply keeps_deal_damage; assumption|].
  intros [] h1 Hc1 Hf1 _.
  apply keeps_add_to_queue_of; auto; apply (char_in_frame S h); assumption.
Qed.

Lemma keeps_drain (fuel : nat) (h : Heap) (q : qref) :
  closed S h -> queue_in h q -> keeps h (drain fuel q) (fun _ _ => True).
Proof.
  revert h. induction fuel as [|fuel IH]; intros h Hc Hq; simpl.
  - eapply keeps_bind; [apply keeps_bq_is_empty; assumption|].
    intros e h1 Hc1 Hf1 _. destruct e; [apply keeps_ret; auto|].
    apply keeps_out_of_fuel.
  - eapply keeps_bind; [apply keeps_bq_is_empty; assumption|].
    intros e h1 Hc1 Hf1 _. destruct e; [apply keeps_ret; auto|].
    assert (Hq1 : queue_in h1 q) by (apply (queue_in_frame S h); assumption).
    eapply keeps_bind; [apply keeps_bq_remove; assumption|].
    intros c h2 Hc2 Hf2 _. apply IH; auto.
    apply (queue_in_frame S h1); assumption.
Qed.

End KeepsMoves.

Section KeepsSkills.
Variable S : Side.

Local Abbreviation keeps := (keeps S).
Local Abbreviation char_in := (char_in S).
Local Abbreviation queue_in := (queue_in S).
Local Abbreviation opt_in := (opt_in S).

(** Carrying what is known of the arguments along a call of the side. *)
Ltac advance Hf :=
  match type of Hf with
  | frame _ ?h ?h1 =>
      repeat match goal with
        | H : char_in h ?c |- _ => apply (char_in_frame S h h1 c Hf) in H
        | H : queue_in h ?q |- _ => apply (queue_in_frame S h h1 q Hf) in H
        | H : opt_in h ?x |- _ => apply (opt_in_frame S h h1 x Hf) in H
        end
  end.

(** One statement of a method: [lem] is the lemma of the call, [h1] names
    the heap after it and [pat] takes what the lemma says of the result. *)
Tactic Notation "step" constr(lem) "as" ident(h1) simple_intropattern(pat) :=
  eapply keeps_bind; [apply lem; assumption|];
  let Hc' := fresh "Hc" in
  let Hf := fresh "Hf" in
  let Hr := fresh "Hr" in
  intros ? h1 Hc' Hf Hr; advance Hf; cbv beta in Hr; revert Hr; intros pat.

Tactic Notation "step_by" tactic3(t) "as" ident(h1) simple_intropattern(pat) :=
  eapply keeps_bind; [t|];
  let Hc' := fresh "Hc" in
  let Hf := fresh "Hf" in
  let Hr := fresh "Hr" in
  intros ? h1 Hc' Hf Hr; advance Hf; cbv beta in Hr; revert Hr; intros pat.

Lemma keeps_use (h : Heap) (s : Skill) (caster : ref) (target : option ref) :
  closed S h -> char_in h caster -> opt_in h target ->
  keeps h (use s caster target) (fun _ _ => True).
Proof.
  intros Hc Hin Ht.
  destruct s; unfold use.
  - apply keeps_NormalAttack_use; assumption.
  - (* MageSpecial *)
    step keeps_deal_damage as h1 _.
    step keeps_deref as h2 (-> & -> & Hr).
    step keeps_add_to_queue_of as h3 _.
    apply keeps_add_to_queue_of; assumption.
  - apply keeps_NormalAttack_use; assumption.
  - (* RogueSpecial *)
    step keeps_deal_damage as h1 _.
    step keeps_add_to_queue_of as h2 _.
    apply keeps_add_to_queue_of; assumption.
  - (* VampireAttack *)
    step keeps_deref as h1 (-> & -> & Hr).
    step keeps_get_hp as h2 ->.
    step keeps_NormalAttack_use as h3 _.
    step keeps_get_hp as h4 ->.
    step keeps_get_hp as h5 ->.
    apply keeps_set_hp; assumption.
  - (* VampireSpecial *)
    step keeps_deref as h1 (-> & -> & Hr).
    step keeps_get_hp as h2 ->.
    step keeps_deal_damage as h3 _.
    step keeps_get_hp as h4 ->.
    step keeps_get_hp as h5 ->.
    step keeps_set_hp as h6 _.
    step keeps_add_to_queue_of as h7 _.
    step keeps_add_to_queue_of as h8 _.
    apply keeps_add_to_queue_of; assumption.
  - (* SorcererAttack *)
    step keeps_deref as h1 (-> & -> & Hr).
    step keeps_get_hp as h2 ->.
    step keeps_deal_damage as h3 _.
    apply keeps_set_hp; assumption.
  - (* SorcererSpecial *)
    step keeps_get_char as h1 (-> & -> & Hq & He).
    step keeps_read_queue as h2 (-> & ->).
    step keeps_drain as h3 _.
    step keeps_deal_damage as h4 _.
    step keeps_deref as h5 (-> & -> & Hr).
    step keeps_add_to_queue_of as h6 _.
    step keeps_add_to_queue_of as h7 _.
    apply keeps_add_to_queue_of; assumption.
Qed.

Lemma keeps_skill_of (h : Heap) (ch : Character) (key : string) :
  closed S h -> keeps h (skill_of ch key) (fun h' _ => h' = h).
Proof.
  intros Hc. unfold skill_of.
  destruct (_skills ch key); [apply keeps_ret; auto|apply keeps_raise].
Qed.

Lemma keeps_Character_attack (h : Heap) (c : ref) :
  closed S h -> char_in h c -> keeps h (Character_attack c) (fun _ _ => True).
Proof.
  intros Hc Hin. unfold Character_attack.
  step keeps_get_char as h1 (-> & -> & Hq & He).
  step keeps_skill_of as h2 ->.
  apply keeps_use; assumption.
Qed.

Lemma keeps_special_attack (h : Heap) (c : ref) :
  closed S h -> char_in h c -> keeps h (special_attack c) (fun _ _ => True).
Proof.
  intros Hc Hin. unfold special_attack.
  step keeps_get_char as h1 (-> & -> & Hq & He).
  step keeps_skill_of as h2 ->.
  apply keeps_use; assumption.
Qed.

Lemma keeps_Sorcerer_attack (h : Heap) (c : ref) :
  closed S h -> char_in h c -> keeps h (Sorcerer_attack c) (fun _ _ => True).
Proof.
  intros Hc Hin. unfold Sorcerer_attack.
  step keeps_get_sp as h1 ->.
  step keeps_get_char as h2 (-> & -> & Hq & He).
  destruct (decision_tree (chars h c)) as [tree|]; [|apply keeps_raise].
  step keeps_deref as h3 (-> & HeE & Hr).
  step keeps_read_char as h4 (-> & ->).
  destruct (pick_skill tree (stats_of (chars h c)) (stats_of (chars h _)));
    [|apply keeps_raise].
  step keeps_use as h5 _.
  step keeps_set_sp as h6 _.
  apply keeps_Character_attack; assumption.
Qed.

Lemma keeps_attack (h : Heap) (c : ref) :
  closed S h -> char_in h c -> keeps h (attack c) (fun _ _ => True).
Proof.
  intros Hc Hin. unfold attack.
  step keeps_read_char as h1 (-> & ->).
  destruct (char_class (chars h c));
    first [apply keeps_Character_attack | apply keeps_Sorcerer_attack];
    assumption.
Qed.

(** The copy of any character, of the side or not, bound to a queue of
    the side, is a new character of the side.  The call only reads the
    character it copies. *)
Lemma keeps_Character_copy (h : Heap) (self : ref) (nq : qref) :
  closed S h -> queue_in h nq ->
  keeps h (Character_copy self nq) (fun h' c => char_in h' c).
Proof.
  intros Hc Hq. unfold Character_copy.
  step keeps_read_char as h1 (-> & ->).
  step_by (apply keeps_alloc_char; [assumption|split; [exact Hq|exact I]])
    as h2 [Hin _].
  apply (keeps_bind S _ _ _ (fun _ _ => True)).
  - unfold _set_copy_attributes.
    step keeps_read_char as h3 (-> & ->).
    step keeps_set_hp as h4 _.
    step keeps_set_sp as h5 _.
    destruct (char_class (chars h2 self)).
    1-3: apply keeps_ret; auto.
    step keeps_read_char as h6 (-> & ->).
    apply keeps_set_skill_decision_tree; assumption.
  - intros [] h3 Hc3 Hf3 _. advance Hf3. apply keeps_ret; assumption.
Qed.

Lemma keeps_copy_prelude (h : Heap) (cls : QueueClass) (self : qref) :
  closed S h ->
  keeps h (copy_prelude cls self)
    (fun h' x =>
       queue_in h' (fst (fst x)) /\ char_in h' (snd (fst x))
       /\ char_in h' (snd x)).
Proof.
  intros Hc. unfold copy_prelude.
  step_by (apply keeps_alloc_queue;
           [assumption|split; [constructor|split; exact I]])
    as h1 [Hq _].
  step keeps_read_queue as h2 (-> & ->).
  destruct (_p1 (queues h1 self)) as [p1|]; [|apply keeps_raise].
  step_by (apply keeps_ret; [assumption|exact I]) as h2 _.
  step keeps_Character_copy as h3 Hp1.
  step keeps_read_queue as h4 (-> & ->).
  destruct (_p2 (queues h3 self)) as [p2|]; [|apply keeps_raise].
  step_by (apply keeps_ret; [assumption|exact I]) as h4 _.
  step keeps_Character_copy as h5 Hp2.
  step_by (apply keeps_set_enemy; [assumption|assumption|exact Hp2]) as h6 _.
  step_by (apply keeps_set_enemy; [assumption|assumption|exact Hp1]) as h7 _.
  apply keeps_ret; [assumption|]. cbn [fst snd]. auto.
Qed.

Lemma keeps_replay (l : list ref) (p1 : option ref) (h : Heap) (nq : qref)
  (p1_copy p2_copy : ref) :
  closed S h -> queue_in h nq -> char_in h p1_copy -> char_in h p2_copy ->
  keeps h (replay l p1 nq p1_copy p2_copy) (fun _ _ => True).
Proof.
  revert h. induction l as [|c l IH]; intros h Hc Hq H1 H2; cbn [replay].
  - apply keeps_ret; auto.
  - apply (keeps_bind S _ _ _ (fun _ _ => True)).
    + destruct (option_ref_eqb (Some c) p1); apply keeps_bq_add; assumption.
    + intros [] h1 Hc1 Hf1 _. advance Hf1. apply IH; assumption.
Qed.

Lemma keeps_BattleQueue_copy (h : Heap) (self : qref) :
  closed S h ->
  keeps h (BattleQueue_copy self) (fun h' q' => queue_in h' q').
Proof.
  intros Hc. unfold BattleQueue_copy.
  eapply keeps_bind; [apply keeps_copy_prelude; assumption|].
  intros [[nq p1_copy] p2_copy] h1 Hc1 Hf1 (Hq & H1 & H2).
  cbn [fst snd] in Hq, H1, H2.
  step keeps_bq_add as h2 _.
  step keeps_bq_is_empty as h3 _.
  apply (keeps_bind S _ _ _ (fun _ _ => True)).
  { match goal with |- context [negb ?e] => destruct (negb e) end;
      [|apply keeps_ret; auto].
    step keeps_bq_remove as h4 _. apply keeps_ret; auto. }
  intros [] h5 Hc5 Hf5 _. advance Hf5.
  step keeps_read_queue as h6 (-> & ->).
  step keeps_replay as h7 _.
  apply keeps_ret; assumption.
Qed.

Lemma keeps_RestrictedBattleQueue_copy (h : Heap) (self : qref) :
  closed S h ->
  keeps h (RestrictedBattleQueue_copy self) (fun h' q' => queue_in h' q').
Proof.
  intros Hc. unfold RestrictedBattleQueue_copy.
  eapply keeps_bind; [apply keeps_copy_prelude; assumption|].
  intros [[nq p1_copy] p2_copy] h1 Hc1 Hf1 (Hq & H1 & H2).
  cbn [fst snd] in Hq, H1, H2.
  step keeps_get_queue as h2 (-> & -> & Hn).
  assert (Hv1 : queue_closed S h1
                  (with_players (queues h1 nq) (Some p1_copy) (Some p2_copy))).
  { destruct Hn as (A & _). split; [exact A|]. split; assumption. }
  step_by (apply keeps_set_queue; assumption) as h3 _.
  step keeps_read_queue as h4 (-> & ->).
  step keeps_get_queue as h5 (-> & -> & Hn').
  set (our_list := map _ (_content (queues h3 self))).
  assert (Hv2 : queue_closed S h3
                  (with_can_add (with_content (queues h3 nq) our_list)
                     (map (fun can => can) (_can_add (queues h3 self))))).
  { destruct Hn' as (_ & B & C). split; [|split; assumption].
    cbn [_content with_can_add with_content].
    apply Forall_forall. intros x Hx. apply in_map_iff in Hx.
    destruct Hx as (y & <- & _).
    destruct (option_ref_eqb (Some y) (_p1 (queues h3 self))); assumption. }
  step_by (apply keeps_set_queue; assumption) as h6 _.
  apply keeps_ret; assumption.
Qed.

Lemma keeps_bq_copy (h : Heap) (self : qref) :
  closed S h -> keeps h (bq_copy self) (fun h' q' => queue_in h' q').
Proof.
  intros Hc. unfold bq_copy.
  step keeps_read_queue as h1 (-> & ->).
  destruct (queue_class (queues h self));
    [apply keeps_BattleQueue_copy|apply keeps_RestrictedBattleQueue_copy];
    assumption.
Qed.

End KeepsSkills.

(* ================================================================== *)
(** * Moves and queue operations after a copy *)

(** A call made on one side: a move of a character, or a public
    operation of a queue. *)
Inductive Call :=
| CallAttack (c : ref)
| CallSpecialAttack (c : ref)
| CallAdd (q : qref) (c : ref)
| CallRemove (q : qref)
| CallPeek (q : qref)
| CallIsEmpty (q : qref)
| CallIsOver (q : qref)
| CallGetWinner (q : qref)
| CallCopy (q : qref).

Definition call (o : Call) : M unit :=
  match o with
  | CallAttack c => attack c
  | CallSpecialAttack c => special_attack c
  | CallAdd q c => bq_add q c
  | CallRemove q => bq_remove q ;; ret tt
  | CallPeek q => bq_peek q ;; ret tt
  | CallIsEmpty q => bq_is_empty q ;; ret tt
  | CallIsOver q => bq_is_over q ;; ret tt
  | CallGetWinner q => bq_get_winner q ;; ret tt
  | CallCopy q => bq_copy q ;; ret tt
  end.

(** The call is made on objects of the side. *)
Definition call_in (S : Side) (h : Heap) (o : Call) : Prop :=
  match o with
  | CallAttack c | CallSpecialAttack c => char_in S h c
  | CallAdd q c => queue_in S h q /\ char_in S h c
  | CallRemove q | CallPeek q | CallIsEmpty q | CallIsOver q
  | CallGetWinner q | CallCopy q => queue_in S h q
  end.

(** A sequence of calls on one side, each returning normally. *)
Inductive runs (S : Side) : Heap -> list Call -> Heap -> Prop :=
| runs_nil (h : Heap) : runs S h [] h
| runs_cons (h h1 h2 : Heap) (o : Call) (ops : list Call) :
    call_in S h o -> call o h = Ok tt h1 -> runs S h1 ops h2 ->
    runs S h (o :: ops) h2.

Lemma keeps_call (S : Side) (h : Heap) (o : Call) :
  closed S h -> call_in S h o -> keeps S h (call o) (fun _ _ => True).
Proof.
  intros Hc Hin. destruct o; cbn [call call_in] in *.
  - apply keeps_attack; assumption.
  - apply keeps_special_attack; assumption.
  - destruct Hin. apply keeps_bq_add; assumption.
  - eapply keeps_bind; [apply keeps_bq_remove; assumption|].
    intros; apply keeps_ret; auto.
  - eapply keeps_bind; [apply keeps_bq_peek; assumption|].
    intros; apply keeps_ret; auto.
  - eapply keeps_bind; [apply keeps_bq_is_empty; assumption|].
    intros; apply keeps_ret; auto.
  - eapply keeps_bind; [apply keeps_bq_is_over; assumption|].
    intros; apply keeps_ret; auto.
  - eapply keeps_bind; [apply keeps_bq_get_winner; assumption|].
    intros; apply keeps_ret; auto.
  - eapply keeps_bind; [apply keeps_bq_copy; assumption|].
    intros; apply keeps_ret; auto.
Qed.

Lemma runs_keeps (S : Side) (h h' : Heap) (ops : list Call) :
  closed S h -> runs S h ops h' -> closed S h' /\ frame S h h'.
Proof.
  intros Hc Hr. induction Hr as [h|h h1 h2 o ops Hin Hcall Hr IH].
  - split; [exact Hc|apply frame_refl].
  - pose proof (keeps_call S h o Hc Hin) as Hk.
    unfold keeps, wp in Hk. rewrite Hcall in Hk.
    destruct Hk as (Hc1 & Hf1 & _).
    destruct (IH Hc1) as (Hc2 & Hf2).
    split; [exact Hc2|]. apply (frame_trans S h h1 h2); assumption.
Qed.

(** Every object. *)
Definition whole_heap : Side :=
  {| owns_char := fun _ => True; owns_queue := fun _ => True |}.

(** Every reference held by an allocated object denotes an allocated
    object. *)
Definition heap_valid (h : Heap) : Prop := closed whole_heap h.

(** The objects created by a copy made in [h], and all objects created
    after it. *)
Definition copy_side (h : Heap) : Side :=
  {| owns_char := fun c => (next_char h <= c)%nat;
     owns_queue := fun q => (next_queue h <= q)%nat |}.

(** The objects that existed in [h], and all objects created after the
    copy that led from [h] to [h1]. *)
Definition original_side (h h1 : Heap) : Side :=
  {| owns_char := fun c => (c < next_char h)%nat \/ (next_char h1 <= c)%nat;
     owns_queue :=
       fun q => (q < next_queue h)%nat \/ (next_queue h1 <= q)%nat |}.

Lemma copy_side_closed (h h1 : Heap) (q q' : qref) (a b : ref) :
  copied_heap h q a b q' h1 -> closed (copy_side h) h1.
Proof.
  intros (Hq' & Hn1 & Hnq1 & Hc1 & Hqs1 & Hv1 & Hv2 & Hst). subst q'.
  assert (Hp1 : char_in (copy_side h) h1 (next_char h)).
  { split; [simpl; lia|lia]. }
  assert (Hp2 : char_in (copy_side h) h1 (S (next_char h))).
  { split; [simpl; lia|lia]. }
  assert (Hnq : queue_in (copy_side h) h1 (next_queue h)).
  { split; [simpl; lia|lia]. }
  split; [|split; [|split]].
  - intros c [Hown Hlt]. simpl in Hown.
    assert (Hcases : c = next_char h \/ c = S (next_char h)) by lia.
    destruct Hcases as [->| ->].
    + rewrite Hv1. split; [exact Hnq|exact Hp2].
    + rewrite Hv2. split; [exact Hnq|exact Hp1].
  - intros x [Hown Hlt]. simpl in Hown.
    assert (x = next_queue h) by lia. subst x.
    rewrite Hst. split; [|split; [exact Hp1|exact Hp2]].
    cbn [_content copy_state].
    apply Forall_forall. intros y Hy. apply in_map_iff in Hy.
    destruct Hy as (z & <- & _).
    destruct (option_ref_eqb (Some z) (_p1 (queues h q))); assumption.
  - intros c Hc. simpl. lia.
  - intros x Hx. simpl. lia.
Qed.

Lemma original_side_closed (h h1 : Heap) (q q' : qref) (a b : ref) :
  heap_valid h -> copied_heap h q a b q' h1 ->
  closed (original_side h h1) h1.
Proof.
  intros (A & B & _ & _) (Hq' & Hn1 & Hnq1 & Hc1 & Hqs1 & Hv1 & Hv2 & Hst).
  subst q'.
  assert (Hch : forall c, char_in whole_heap h c ->
                          char_in (original_side h h1) h1 c).
  { intros c [_ Hlt]. split; [left; exact Hlt|lia]. }
  assert (Hqu : forall x, queue_in whole_heap h x ->
                          queue_in (original_side h h1) h1 x).
  { intros x [_ Hlt]. split; [left; exact Hlt|lia]. }
  assert (Hopt : forall x, opt_in whole_heap h x ->
                           opt_in (original_side h h1) h1 x).
  { intros [c|]; [apply Hch|auto]. }
  split; [|split; [|split]].
  - intros c [Hown Hlt]. simpl in Hown.
    assert (Hc : (c < next_char h)%nat) by lia.
    rewrite Hc1 by lia.
    destruct (A c (conj I Hc)) as [A1 A2].
    split; [apply Hqu, A1|apply Hopt, A2].
  - intros x [Hown Hlt]. simpl in Hown.
    assert (Hx : (x < next_queue h)%nat) by lia.
    rewrite Hqs1 by lia.
    destruct (B x (conj I Hx)) as (B1 & B2 & B3).
    split; [|split; [apply Hopt, B2|apply Hopt, B3]].
    eapply Forall_impl; [|exact B1]. exact Hch.
  - intros c Hc. right. exact Hc.
  - intros x Hx. right. exact Hx.
Qed.

(** C8: [copy] returns on every queue with two participants, and the
    copy shares no object with the original: whatever moves and queue
    operations are then made on the copy, every character and queue that
    existed before the copy is as it was; whatever is done on the
    original, the two characters and the queue of the copy are as the
    copy made them. *)
Theorem C8_copy_shares_nothing (h : Heap) (q : qref) (a b : ref) :
  heap_valid h ->
  (q < next_queue h)%nat ->
  _p1 (queues h q) = Some a -> _p2 (queues h q) = Some b ->
  exists q' h1,
    bq_copy q h = Ok q' h1
    /\ copied_heap h q a b q' h1
    /\ (forall ops h2,
          runs (copy_side h) h1 ops h2 ->
          (forall c, (c < next_char h)%nat -> chars h2 c = chars h c)
          /\ (forall x, (x < next_queue h)%nat -> queues h2 x = queues h x))
    /\ (forall ops h2,
          runs (original_side h h1) h1 ops h2 ->
          (forall c, (next_char h <= c < next_char h1)%nat ->
                     chars h2 c = chars h1 c)
          /\ (forall x, (next_queue h <= x < next_queue h1)%nat ->
                        queues h2 x = queues h1 x)).
Proof.
  intros Hvalid Hq Hp1 Hp2.
  assert (Hqc : queue_closed whole_heap h (queues h q)).
  { apply closed_queue; [exact Hvalid|]. split; [exact I|exact Hq]. }
  destruct Hqc as (_ & Ha & Hb). rewrite Hp1 in Ha. rewrite Hp2 in Hb.
  destruct Ha as [_ Ha]. destruct Hb as [_ Hb].
  destruct (bq_copy_state q a b h Hq Ha Hb Hp1 Hp2) as (q' & h1 & Hrun & Hcp & _).
  exists q', h1. split; [exact Hrun|]. split; [exact Hcp|].
  pose proof Hcp as (Hq' & Hn1 & Hnq1 & Hc1 & Hqs1 & _).
  split.
  - intros ops h2 Hr.
    destruct (runs_keeps _ h1 h2 ops (copy_side_closed h h1 q q' a b Hcp) Hr)
      as (_ & Fc & Fq & _).
    split.
    + intros c Hc. rewrite Fc by (simpl; lia). apply Hc1; lia.
    + intros x Hx. rewrite Fq by (simpl; lia). apply Hqs1. lia.
  - intros ops h2 Hr.
    destruct (runs_keeps _ h1 h2 ops
                (original_side_closed h h1 q q' a b Hvalid Hcp) Hr)
      as (_ & Fc & Fq & _).
    split.
    + intros c Hc. apply Fc. simpl. lia.
    + intros x Hx. apply Fq. simpl. lia.
Qed.

Lemma duel_valid (cls1 cls2 : CharClass) (hp1 sp1 hp2 sp2 : Z) :
  heap_valid (duel cls1 cls2 hp1 sp1 hp2 sp2).
Proof.
  assert (H0 : char_in whole_heap (duel cls1 cls2 hp1 sp1 hp2 sp2) O)
    by (split; [exact I|simpl; lia]).
  assert (H1 : char_in whole_heap (duel cls1 cls2 hp1 sp1 hp2 sp2) 1%nat)
    by (split; [exact I|simpl; lia]).
  assert (Hq : queue_in whole_heap (duel cls1 cls2 hp1 sp1 hp2 sp2) O)
    by (split; [exact I|simpl; lia]).
  split; [|split; [|split]].
  - intros c [_ Hc]. simpl in Hc.
    destruct c as [|[|c]]; [| |lia]; split; assumption.
  - intros x [_ Hx]. simpl in Hx.
    destruct x as [|x]; [|lia].
    split; [|split; assumption].
    repeat constructor; simpl; lia.
  - intros; exact I.
  - intros; exact I.
Qed.

Lemma C8_copy_shares_nothing_witness :
  let h := duel Rogue Mage 100 100 100 100 in
  exists q' h1,
    bq_copy O h = Ok q' h1
    /\ copied_heap h O O 1%nat q' h1
    /\ (forall ops h2,
          runs (copy_side h) h1 ops h2 ->
          (forall c, (c < next_char h)%nat -> chars h2 c = chars h c)
          /\ (forall x, (x < next_queue h)%nat -> queues h2 x = queues h x))
    /\ (forall ops h2,
          runs (original_side h h1) h1 ops h2 ->
          (forall c, (next_char h <= c < next_char h1)%nat ->
                     chars h2 c = chars h1 c)
          /\ (forall x, (next_queue h <= x < next_queue h1)%nat ->
                        queues h2 x = queues h1 x)).
Proof.
  cbv zeta.
  apply (C8_copy_shares_nothing (duel Rogue Mage 100 100 100 100) O O 1%nat).
  - apply duel_valid.
  - simpl. lia.
  - reflexivity.
  - reflexivity.
Defined.

(** The example of the docstring of [copy]: the head of the copy attacks,
    the copy shows [r 100/97 -> r2 95/100 -> r], the original is
    unchanged. *)
Lemma copy_then_attack :
  let h := duel Rogue Rogue 100 100 100 100 in
  exists h1 h2,
    bq_copy O h = Ok 1%nat h1
    /\ runs (copy_side h) h1 [CallPeek 1%nat; CallAttack 2%nat] h2
    /\ _content (queues h2 1%nat) = [2%nat; 3%nat; 2%nat]
    /\ (_hp (chars h2 2%nat), _sp (chars h2 2%nat)) = (100, 97)
    /\ (_hp (chars h2 3%nat), _sp (chars h2 3%nat)) = (95, 100)
    /\ _content (queues h2 O) = [O; 1%nat]
    /\ (_hp (chars h2 O), _sp (chars h2 O)) = (100, 100)
    /\ (_hp (chars h2 1%nat), _sp (chars h2 1%nat)) = (100, 100).
Proof.
  cbv zeta. eexists. eexists.
  split; [vm_compute; reflexivity|].
  split.
  - eapply runs_cons; [split; simpl; lia|vm_compute; reflexivity|].
    eapply runs_cons; [split; simpl; lia|vm_compute; reflexivity|].
    apply runs_nil.
  - conjuncts; vm_compute; reflexivity.
Qed.

(* ================================================================== *)
(** * Calls on the copy and on the original, interleaved *)

(** Which side an allocated object belongs to: [true] for the copy,
    [false] for the original. *)
Record Owners := {
  char_owner : ref -> bool;
  queue_owner : qref -> bool
}.

(** The allocated objects of side [s], and every identity still free. *)
Definition side_of (s : bool) (g : Owners) (h : Heap) : Side :=
  {| owns_char := fun c =>
       ((c < next_char h)%nat /\ char_owner g c = s)
       \/ (next_char h <= c)%nat;
     owns_queue := fun q =>
       ((q < next_queue h)%nat /\ queue_owner g q = s)
       \/ (next_queue h <= q)%nat |}.

(** What side [s] allocates from [h] on belongs to it. *)
Definition after_call (s : bool) (g : Owners) (h : Heap) : Owners :=
  {| char_owner := fun c =>
       if (c <? next_char h)%nat then char_owner g c else s;
     queue_owner := fun q =>
       if (q <? next_queue h)%nat then queue_owner g q else s |}.

(** Every call of the sequence that is made on objects of its side
    leaves the allocated objects of the other side as they were. *)
Fixpoint isolated (g : Owners) (h : Heap) (ops : list (bool * Call)) : Prop :=
  match ops with
  | [] => True
  | (s, o) :: ops' =>
      call_in (side_of s g h) h o ->
      match call o h with
      | Ok _ h1 =>
          (forall c, (c < next_char h)%nat -> char_owner g c = negb s ->
                     chars h1 c = chars h c)
          /\ (forall x, (x < next_queue h)%nat -> queue_owner g x = negb s ->
                        queues h1 x = queues h x)
          /\ isolated (after_call s g h) h1 ops'
      | _ => True
      end
  end.

(** [closed] only depends on which allocated objects the side owns. *)
Lemma closed_transport (S S' : Side) (h h' : Heap) :
  (next_char h <= next_char h')%nat ->
  (next_queue h <= next_queue h')%nat ->
  (forall c, char_in S' h' c -> char_in S h c /\ chars h' c = chars h c) ->
  (forall q, queue_in S' h' q -> queue_in S h q /\ queues h' q = queues h q) ->
  (forall c, char_in S h c -> char_in S' h' c) ->
  (forall q, queue_in S h q -> queue_in S' h' q) ->
  (forall c, (next_char h' <= c)%nat -> owns_char S' c) ->
  (forall q, (next_queue h' <= q)%nat -> owns_queue S' q) ->
  closed S h -> closed S' h'.
Proof.
  intros Hn Hnq Hc Hq Hc' Hq' Fc Fq (A & B & _ & _).
  assert (Hopt : forall x, opt_in S h x -> opt_in S' h' x).
  { intros [c|]; [apply Hc'|auto]. }
  split; [|split; [|split]]; try assumption.
  - intros c Hin. destruct (Hc c Hin) as [Hold Heq]. rewrite Heq.
    destruct (A c Hold) as [A1 A2]. split; [apply Hq', A1|apply Hopt, A2].
  - intros q Hin. destruct (Hq q Hin) as [Hold Heq]. rewrite Heq.
    destruct (B q Hold) as (B1 & B2 & B3).
    split; [|split; [apply Hopt, B2|apply Hopt, B3]].
    eapply Forall_impl; [|exact B1]. exact Hc'.
Qed.

Lemma negb_neq (s b : bool) : b = negb s -> b <> s.
Proof. destruct s, b; discriminate. Qed.

Lemma isolated_step (s : bool) (g : Owners) (h h1 : Heap) :
  closed (side_of s g h) h1 ->
  frame (side_of s g h) h h1 ->
  closed (side_of (negb s) g h) h ->
  (forall c, (c < next_char h)%nat -> char_owner g c = negb s ->
             chars h1 c = chars h c)
  /\ (forall x, (x < next_queue h)%nat -> queue_owner g x = negb s ->
                queues h1 x = queues h x)
  /\ closed (side_of s (after_call s g h) h1) h1
  /\ closed (side_of (negb s) (after_call s g h) h1) h1.
Proof.
  intros Hc1 (Fc & Fq & Hn & Hnq) Hother.
  assert (Hkeepc : forall c, (c < next_char h)%nat ->
                             char_owner g c = negb s ->
                             chars h1 c = chars h c).
  { intros c Hlt Hown. apply Fc. simpl.
    intros [[_ Heq]|Hge]; [exact (negb_neq s _ Hown Heq)|lia]. }
  assert (Hkeepq : forall x, (x < next_queue h)%nat ->
                             queue_owner g x = negb s ->
                             queues h1 x = queues h x).
  { intros x Hlt Hown. apply Fq. simpl.
    intros [[_ Heq]|Hge]; [exact (negb_neq s _ Hown Heq)|lia]. }
  split; [exact Hkeepc|]. split; [exact Hkeepq|].
  split.
  - (* the side that made the call *)
    apply (closed_transport (side_of s g h) _ h1 h1); try lia; try exact Hc1.
    + intros c [Hown Hlt]. split; [|reflexivity]. split; [|exact Hlt].
      simpl in *. destruct Hown as [[_ Hown]|Hge]; [|lia].
      destruct (c <? next_char h)%nat eqn:E.
      * apply Nat.ltb_lt in E. left. auto.
      * apply Nat.ltb_ge in E. right. exact E.
    + intros x [Hown Hlt]. split; [|reflexivity]. split; [|exact Hlt].
      simpl in *. destruct Hown as [[_ Hown]|Hge]; [|lia].
      destruct (x <? next_queue h)%nat eqn:E.
      * apply Nat.ltb_lt in E. left. auto.
      * apply Nat.ltb_ge in E. right. exact E.
    + intros c [Hown Hlt]. split; [|exact Hlt]. simpl in *. left.
      split; [exact Hlt|].
      destruct (c <? next_char h)%nat eqn:E; [|reflexivity].
      apply Nat.ltb_lt in E. destruct Hown as [[_ Hown]|Hge]; [exact Hown|lia].
    + intros x [Hown Hlt]. split; [|exact Hlt]. simpl in *. left.
      split; [exact Hlt|].
      destruct (x <? next_queue h)%nat eqn:E; [|reflexivity].
      apply Nat.ltb_lt in E. destruct Hown as [[_ Hown]|Hge]; [exact Hown|lia].
    + intros c Hge. simpl. right. exact Hge.
    + intros x Hge. simpl. right. exact Hge.
  - (* the other side *)
    assert (Holdc : forall c, char_in (side_of (negb s) (after_call s g h) h1) h1 c ->
                              (c < next_char h)%nat /\ char_owner g c = negb s).
    { intros c [Hown Hlt]. simpl in Hown.
      destruct Hown as [[_ Hown]|Hge]; [|lia].
      destruct (c <? next_char h)%nat eqn:E.
      - apply Nat.ltb_lt in E. auto.
      - exfalso. destruct s; discriminate. }
    assert (Holdq : forall x, queue_in (side_of (negb s) (after_call s g h) h1) h1 x ->
                              (x < next_queue h)%nat /\ queue_owner g x = negb s).
    { intros x [Hown Hlt]. simpl in Hown.
      destruct Hown as [[_ Hown]|Hge]; [|lia].
      destruct (x <? next_queue h)%nat eqn:E.
      - apply Nat.ltb_lt in E. auto.
      - exfalso. destruct s; discriminate. }
    apply (closed_transport (side_of (negb s) g h) _ h h1); try lia;
      try exact Hother.
    + intros c Hin. destruct (Holdc c Hin) as [Hlt Hown].
      split; [|apply Hkeepc; assumption].
      split; [simpl; left; auto|exact Hlt].
    + intros x Hin. destruct (Holdq x Hin) as [Hlt Hown].
      split; [|apply Hkeepq; assumption].
      split; [simpl; left; auto|exact Hlt].
    + intros c [Hown Hlt]. simpl in Hown.
      destruct Hown as [[_ Hown]|Hge]; [|lia].
      split; [|lia]. simpl. left. split; [lia|].
      apply Nat.ltb_lt in Hlt. rewrite Hlt. exact Hown.
    + intros x [Hown Hlt]. simpl in Hown.
      destruct Hown as [[_ Hown]|Hge]; [|lia].
      split; [|lia]. simpl. left. split; [lia|].
      apply Nat.ltb_lt in Hlt. rewrite Hlt. exact Hown.
    + intros c Hge. simpl. right. exact Hge.
    + intros x Hge. simpl. right. exact Hge.
Qed.

(** Two sides that are each closed stay isolated under any interleaving
    of calls. *)
Lemma closed_sides_isolated (ops : list (bool * Call)) (g : Owners)
  (h : Heap) :
  closed (side_of true g h) h -> closed (side_of false g h) h ->
  isolated g h ops.
Proof.
  revert g h. induction ops as [|[s o] ops IH]; intros g h Ht Hf;
    cbn [isolated]; [exact I|].
  intros Hin.
  assert (Hs : closed (side_of s g h) h) by (destruct s; assumption).
  assert (Hns : closed (side_of (negb s) g h) h) by (destruct s; assumption).
  pose proof (keeps_call _ h o Hs Hin) as Hk. unfold keeps, wp in Hk.
  destruct (call o h) as [[] h1| |]; try exact I.
  destruct Hk as (Hc1 & Hf1 & _).
  destruct (isolated_step s g h h1 Hc1 Hf1 Hns) as (K1 & K2 & K3 & K4).
  split; [exact K1|]. split; [exact K2|].
  apply IH; destruct s; assumption.
Qed.

(** The owners right after a copy made in [h]: what the copy created is
    the copy's, the rest is the original's. *)
Definition owners_after_copy (h : Heap) : Owners :=
  {| char_owner := fun c => negb (c <? next_char h)%nat;
     queue_owner := fun q => negb (q <? next_queue h)%nat |}.

(** After [copy], any interleaving of moves and queue operations on the
    copy and on the original keeps the two apart: each call leaves the
    objects of the other side unchanged. *)
Lemma copy_isolated_under_interleaving (h h1 : Heap) (q q' : qref)
  (a b : ref) (ops : list (bool * Call)) :
  heap_valid h -> copied_heap h q a b q' h1 ->
  isolated (owners_after_copy h) h1 ops.
Proof.
  intros Hvalid Hcp.
  pose proof (copy_side_closed h h1 q q' a b Hcp) as Hcopy.
  pose proof (original_side_closed h h1 q q' a b Hvalid Hcp) as Horig.
  destruct Hcp as (_ & Hn1 & Hnq1 & _).
  apply closed_sides_isolated.
  - apply (closed_transport (copy_side h) _ h1 h1); try lia; try exact Hcopy.
    + intros c [Hown Hlt]. split; [|reflexivity]. split; [|exact Hlt].
      simpl in *. destruct Hown as [[_ Hown]|Hge]; [|lia].
      apply negb_true_iff, Nat.ltb_ge in Hown. exact Hown.
    + intros x [Hown Hlt]. split; [|reflexivity]. split; [|exact Hlt].
      simpl in *. destruct Hown as [[_ Hown]|Hge]; [|lia].
      apply negb_true_iff, Nat.ltb_ge in Hown. exact Hown.
    + intros c [Hown Hlt]. split; [|exact Hlt]. simpl in *. left.
      split; [exact Hlt|]. apply negb_true_iff, Nat.ltb_ge. exact Hown.
    + intros x [Hown Hlt]. split; [|exact Hlt]. simpl in *. left.
      split; [exact Hlt|]. apply negb_true_iff, Nat.ltb_ge. exact Hown.
    + intros c Hge. simpl. right. exact Hge.
    + intros x Hge. simpl. right. exact Hge.
  - apply (closed_transport (original_side h h1) _ h1 h1); try lia;
      try exact Horig.
    + intros c [Hown Hlt]. split; [|reflexivity]. split; [|exact Hlt].
      simpl in *. destruct Hown as [[_ Hown]|Hge]; [|lia].
      apply negb_false_iff, Nat.ltb_lt in Hown. left. exact Hown.
    + intros x [Hown Hlt]. split; [|reflexivity]. split; [|exact Hlt].
      simpl in *. destruct Hown as [[_ Hown]|Hge]; [|lia].
      apply negb_false_iff, Nat.ltb_lt in Hown. left. exact Hown.
    + intros c [Hown Hlt]. split; [|exact Hlt]. simpl in *. left.
      split; [exact Hlt|]. apply negb_false_iff, Nat.ltb_lt.
      destruct Hown; [assumption|lia].
    + intros x [Hown Hlt]. split; [|exact Hlt]. simpl in *. left.
      split; [exact Hlt|]. apply negb_false_iff, Nat.ltb_lt.
      destruct Hown; [assumption|lia].
    + intros c Hge. simpl. right. exact Hge.
    + intros x Hge. simpl. right. exact Hge.
Qed.

(* ================================================================== *)
(** * The docstring examples of the source, run on the model *)

(** A heap with no object yet. *)
Definition empty_heap : Heap :=
  {| chars := fun _ => new_character Mage "" O (manual O);
     queues := fun _ => new_queue BattleQueueClass;
     next_char := O;
     next_queue := O |}.

(** [bq = Q(); c = C1("c", bq, ManualPlaystyle(bq));
     c2 = C2("c2", bq, ManualPlaystyle(bq)); c.enemy = c2; c2.enemy = c]:
    the queue is object 0, [c] character 0 and [c2] character 1. *)
Definition two_characters (qcls : QueueClass) (cls1 cls2 : CharClass)
  : M unit :=
  bq <- alloc_queue (new_queue qcls) ;;
  c <- alloc_char (new_character cls1 "c" bq (manual bq)) ;;
  c2 <- alloc_char (new_character cls2 "c2" bq (manual bq)) ;;
  set_enemy c (Some c2) ;;
  set_enemy c2 (Some c).

(** What [repr] shows of a queue: the (hp, sp) of each entry. *)
Definition shown (q : qref) : M (list (Z * Z)) :=
  fun h =>
    Ok (map (fun c => (_hp (chars h c), _sp (chars h c)))
          (_content (queues h q))) h.

(** [get_state_score] and [iterative_get_score]: 100, 40 and -10. *)
Example doctest_scores :
  let start := two_characters BattleQueueClass Rogue Mage ;;
               bq_add O O ;; bq_add O 1%nat ;; set_hp 1%nat 3 in
  returned ((start ;; get_state_score 4 O) empty_heap) = Some 100
  /\ returned ((start ;; set_hp O 40 ;; get_state_score 4 O) empty_heap)
     = Some 40
  /\ returned ((start ;; set_hp O 40 ;; bq_remove O ;; bq_add O O ;;
                get_state_score 4 O) empty_heap) = Some (-10)
  /\ returned ((start ;; iterative_get_score 16 O) empty_heap) = Some 100
  /\ returned ((start ;; set_hp O 40 ;; iterative_get_score 16 O) empty_heap)
     = Some 40
  /\ returned ((start ;; set_hp O 40 ;; bq_remove O ;; bq_add O O ;;
                iterative_get_score 16 O) empty_heap) = Some (-10).
Proof. evaluate. Qed.

(** [select_attack] of both engines: ['A'], then ['S']. *)
Example doctest_select_attack :
  let start := two_characters BattleQueueClass Rogue Mage ;;
               bq_add O O ;; bq_add O 1%nat ;; set_hp 1%nat 3 in
  returned ((start ;; RecursiveMinimax_select_attack 4 O) empty_heap)
  = Some "A"
  /\ returned ((start ;; set_hp O 40 ;; bq_remove O ;; bq_add O O ;;
                RecursiveMinimax_select_attack 4 O) empty_heap) = Some "S"
  /\ returned ((start ;; IterativeMinimax_select_attack 16 O) empty_heap)
     = Some "A"
  /\ returned ((start ;; set_hp O 40 ;; bq_remove O ;; bq_add O O ;;
                IterativeMinimax_select_attack 16 O) empty_heap) = Some "S".
Proof. evaluate. Qed.

(** [RestrictedBattleQueue.add]: the queue after each call of the
    example, down to the last attack that may not add. *)
Example doctest_restricted_add :
  let start := two_characters RestrictedBattleQueueClass Rogue Rogue ;;
               bq_add O O ;; bq_add O 1%nat in
  let twice := start ;; attack O ;; attack O in
  let later := twice ;; bq_remove O ;; bq_remove O ;; attack O in
  returned ((start ;; shown O) empty_heap) = Some [(100, 100); (100, 100)]
  /\ returned ((start ;; attack O ;; shown O) empty_heap)
     = Some [(100, 97); (95, 100); (100, 97)]
  /\ returned ((twice ;; shown O) empty_heap)
     = Some [(100, 94); (90, 100); (100, 94); (100, 94)]
  /\ returned ((later ;; shown O) empty_heap)
     = Some [(100, 91); (100, 91); (100, 91)]
  /\ returned ((later ;; bq_remove O ;; attack O ;; shown O) empty_heap)
     = Some [(100, 88); (100, 88)].
Proof. evaluate. Qed.

(** [Mage.copy], [Vampire.copy] and [Sorcerer.attack]: the (hp, sp) of
    the attacker and of its enemy after one attack. *)
Example doctest_attacks :
  let stats := fun c : ref => ch <- get_char c ;; ret (_hp ch, _sp ch) in
  let after := fun cls (tree : option SkillDecisionTree) =>
    two_characters BattleQueueClass cls cls ;;
    set_skill_decision_tree O tree ;; set_skill_decision_tree 1%nat tree ;;
    bq_add O O ;; attack O ;;
    a <- stats O ;; b <- stats 1%nat ;; l <- shown O ;;
    ret (a, b, List.length l) in
  returned (after Mage None empty_heap) = Some ((100, 95), (88, 100), 2%nat)
  /\ returned (after Rogue None empty_heap)
     = Some ((100, 97), (95, 100), 2%nat)
  /\ returned (after Vampire None empty_heap)
     = Some ((117, 85), (83, 100), 2%nat)
  /\ returned (after Sorcerer (Some create_default_tree) empty_heap)
     = Some ((100, 85), (90, 100), 3%nat).
Proof. evaluate. Qed.

(** [create_default_tree]: [MageSpecial], then [RogueAttack]. *)
Example doctest_pick_skill :
  pick_skill create_default_tree
    {| stat_hp := 100; stat_sp := 40 |} {| stat_hp := 50; stat_sp := 30 |}
  = Some MageSpecial
  /\ pick_skill create_default_tree
       {| stat_hp := 80; stat_sp := 40 |} {| stat_hp := 20; stat_sp := 50 |}
     = Some RogueAttack.
Proof. evaluate. Qed.
(* ================================================================== *)
(** * The queue as its callers see it *)

(** A character the pruning loop drops. *)
Definition cannot_act (st : Store) (c : ref) : Prop :=
  get_available_actions (st c) = [].

(** Pruning drops a prefix of characters that cannot act, and nothing
    else. *)
Lemma clean_list_prefix (st : Store) (l : list ref) :
  exists pre, l = pre ++ clean_list st l /\ Forall (cannot_act st) pre.
Proof.
  induction l as [|c l (pre & Hl & Hpre)]; simpl.
  - exists []. split; [reflexivity|constructor].
  - destruct (get_available_actions (st c)) eqn:E; simpl.
    + exists (c :: pre). split; [simpl; congruence|].
      constructor; assumption.
    + exists []. split; [reflexivity|constructor].
Qed.

(** [remove], of either class, returns the head of the pruned sequence
    and keeps its tail and the two participants. *)
Lemma remove_returns (st : Store) (q q' : Queue) (c : ref) :
  remove st q = inr (c, q') ->
  clean_list st (_content q) = c :: _content q'
  /\ _p1 q' = _p1 q /\ _p2 q' = _p2 q.
Proof.
  unfold remove, RestrictedBattleQueue_remove. intros H.
  destruct (queue_class q);
    apply BattleQueue_remove_fields in H;
    destruct H as (H1 & _ & H2 & H3 & _); cbn in H1, H2, H3.
  - auto.
  - rewrite clean_list_idempotent in H1. auto.
Qed.

(** [remove] raises only [IndexError], and only when pruning leaves
    nothing. *)
Lemma remove_raises (st : Store) (q : Queue) (e : Exn) :
  remove st q = inl e -> e = IndexError /\ clean_list st (_content q) = [].
Proof.
  unfold remove, RestrictedBattleQueue_remove, BattleQueue_remove.
  destruct (queue_class q); cbn; try rewrite clean_list_idempotent;
    destruct (clean_list st (_content q)); intros H; inversion H; auto.
Qed.

(** X1: [remove] raises [IndexError] exactly on a queue that [is_empty]
    reports empty; on any other queue it returns the character [peek]
    returns, and that character has an action it can afford. *)
Theorem remove_agrees_with_is_empty_and_peek (st : Store) (q : Queue) :
  match remove st q with
  | inl e => e = IndexError /\ fst (is_empty st q) = true
  | inr (c, q') =>
      fst (is_empty st q) = false
      /\ fst (peek st q) = Some c
      /\ is_nil (get_available_actions (st c)) = false
  end.
Proof.
  destruct (remove st q) as [e|[c q']] eqn:E.
  - destruct (remove_raises st q e E) as [-> Hl].
    split; [reflexivity|]. unfold is_empty. cbn. rewrite Hl. reflexivity.
  - destruct (remove_returns st q q' c E) as (Hl & _).
    unfold is_empty, peek. cbn. rewrite Hl. cbn.
    repeat split. exact (clean_list_head st _ _ _ Hl).
Qed.

(** X2: the entries [remove] drops before the one it returns are all
    characters without an affordable action; the entries after it are
    kept in order, and so are the two participants. *)
Theorem remove_drops_exhausted_prefix (st : Store) (q q' : Queue) (c : ref) :
  remove st q = inr (c, q') ->
  exists pre,
    _content q = pre ++ c :: _content q'
    /\ Forall (cannot_act st) pre
    /\ _p1 q' = _p1 q /\ _p2 q' = _p2 q.
Proof.
  intros H. destruct (remove_returns st q q' c H) as (Hl & H1 & H2).
  destruct (clean_list_prefix st (_content q)) as (pre & Hpre & Hall).
  exists pre. rewrite Hl in Hpre. auto.
Qed.

Definition tired_then_fresh : Queue :=
  {| queue_class := RestrictedBattleQueueClass;
     _content := [O; O; 1%nat; O];
     _p1 := Some O; _p2 := Some 1%nat; _can_add := [yes; yes; yes; no] |}.

Lemma remove_drops_exhausted_prefix_witness :
  exists pre,
    _content tired_then_fresh = pre ++ 1%nat :: [O]
    /\ Forall (cannot_act tired_store) pre
    /\ Some O = _p1 tired_then_fresh /\ Some 1%nat = _p2 tired_then_fresh.
Proof.
  apply (remove_drops_exhausted_prefix tired_store tired_then_fresh
           {| queue_class := RestrictedBattleQueueClass; _content := [O];
              _p1 := Some O; _p2 := Some 1%nat; _can_add := [no] |} 1%nat).
  reflexivity.
Defined.

(** X3: the calls that only look at the queue ([peek], [is_empty],
    [is_over]) leave it pruned, and on a pruned queue they change nothing
    and answer the same again. *)
Theorem readers_are_idempotent (st : Store) (q : Queue) :
  let q1 := snd (peek st q) in
  snd (is_empty st q) = q1
  /\ peek st q1 = (fst (peek st q), q1)
  /\ is_empty st q1 = (fst (is_empty st q), q1)
  /\ match is_over st q with
     | inr (over, q2) => q2 = q1 /\ is_over st q1 = inr (over, q1)
     | inl e => is_over st q1 = inl e
     end.
Proof.
  cbv zeta. rewrite peek_state.
  assert (Hc : _clean_queue st (_clean_queue st q) = _clean_queue st q).
  { unfold _clean_queue, with_content. cbn.
    rewrite clean_list_idempotent. reflexivity. }
  split; [reflexivity|].
  split; [unfold peek; rewrite Hc; destruct (_content (_clean_queue st q));
          reflexivity|].
  split; [unfold is_empty; rewrite Hc; reflexivity|].
  unfold is_over, is_empty. rewrite Hc.
  destruct (is_nil (_content (_clean_queue st q))); [auto|].
  destruct (get_hp_of st (_p1 (_clean_queue st q))) as [e|hp1]; [reflexivity|].
  destruct (hp1 =? 0); [auto|].
  destruct (get_hp_of st (_p2 (_clean_queue st q))) as [e|hp2]; [reflexivity|].
  destruct (hp2 =? 0); auto.
Qed.

(** [add] of either class: the two participants are set by the first
    call and left alone by every later one. *)
Lemma add_players (st : Store) (q q' : Queue) (c : ref) :
  add st q c = inr q' ->
  _p1 q' = match _p1 q with None => Some c | Some a => Some a end
  /\ _p2 q' = match _p1 q with None => enemy (st c) | Some _ => _p2 q end.
Proof.
  unfold add, RestrictedBattleQueue_add, BattleQueue_add, append_flag,
    set_players_once, with_can_add, with_content, with_players.
  intros H.
  destruct (queue_class q);
    [|destruct (count_yes (_content q) (_can_add q) c); [discriminate|];
      destruct (_content q) as [|head rest];
      [|destruct (_can_add q) as [|flag0 ledger]; [discriminate|];
        destruct (CanAdd_eqb flag0 no);
        [|destruct (negb (existsb (Nat.eqb c) (head :: rest)));
          [|destruct (Nat.eqb c head && negb (z =? 2))]]]];
    cbn in H; destruct (_p1 q) eqn:Hp; cbn in H;
    try rewrite Hp in H; cbn in H;
    inversion H; subst q'; cbn; try rewrite Hp; auto.
Qed.

(** X4: [add] never prunes, reorders or drops: it appends the character
    at the tail (with one flag, for the restricted queue), or -- only on a
    non-empty restricted queue whose first flag is ['no'] -- leaves the
    sequence and the ledger as they are. *)
Theorem add_appends_or_refuses (st : Store) (q q' : Queue) (c : ref) :
  add st q c = inr q' ->
  (_content q' = _content q ++ [c]
   /\ match queue_class q with
      | BattleQueueClass => _can_add q' = _can_add q
      | RestrictedBattleQueueClass =>
          exists flag, _can_add q' = _can_add q ++ [flag]
      end)
  \/ (queue_class q = RestrictedBattleQueueClass
      /\ _content q <> []
      /\ hd_error (_can_add q) = Some no
      /\ _content q' = _content q /\ _can_add q' = _can_add q).
Proof.
  unfold add, RestrictedBattleQueue_add. intros H.
  destruct (queue_class q) eqn:Hcls.
  - left. inversion H. rewrite BattleQueue_add_content, BattleQueue_add_can_add.
    auto.
  - destruct (count_yes (_content q) (_can_add q) c); [discriminate|].
    assert (Happ : forall flag,
      inr (set_players_once st (append_flag (BattleQueue_add st q c) flag) c)
      = (inr q' : Result Queue) ->
      _content q' = _content q ++ [c]
      /\ exists flag, _can_add q' = _can_add q ++ [flag]).
    { intros flag Hq. inversion Hq; subst q'.
      destruct (set_players_once_fields st
                  (append_flag (BattleQueue_add st q c) flag) c)
        as (-> & -> & _).
      cbn. rewrite BattleQueue_add_content, BattleQueue_add_can_add.
      split; [reflexivity|]. exists flag. reflexivity. }
    destruct (_content q) as [|head rest] eqn:Hcont.
    + left. apply (Happ yes). exact H.
    + destruct (_can_add q) as [|flag0 ledger] eqn:Hled; [discriminate|].
      destruct flag0; cbn [CanAdd_eqb] in H.
      * left.
        destruct (negb (existsb (Nat.eqb c) (head :: rest)));
          [apply (Happ yes); exact H|].
        destruct (Nat.eqb c head && negb (z =? 2));
          [apply (Happ yes)|apply (Happ no)]; exact H.
      * right. inversion H; subst q'.
        destruct (set_players_once_fields st q c) as (-> & -> & _).
        rewrite Hcont, Hled. repeat split; discriminate.
Qed.

Lemma add_appends_or_refuses_witness :
  (_content blocked_queue = _content blocked_queue ++ [O]
   /\ exists flag, _can_add blocked_queue = _can_add blocked_queue ++ [flag])
  \/ (queue_class blocked_queue = RestrictedBattleQueueClass
      /\ _content blocked_queue <> []
      /\ hd_error (_can_add blocked_queue) = Some no
      /\ _content blocked_queue = _content blocked_queue
      /\ _can_add blocked_queue = _can_add blocked_queue).
Proof.
  apply (add_appends_or_refuses fresh_store blocked_queue blocked_queue O).
  reflexivity.
Defined.

(** X5: on a queue built by the public operations [add] never raises,
    whatever the character. *)
Theorem add_never_raises (st : Store) (q : Queue) (c : ref) :
  reachable q -> exists q', add st q c = inr q'.
Proof.
  intros Hr. destruct (reachable_queue_inv q Hr) as [H1 _].
  unfold add, RestrictedBattleQueue_add.
  destruct (queue_class q); [eexists; reflexivity|].
  specialize (H1 eq_refl).
  destruct (count_yes_returns (_content q) (_can_add q) c H1) as [n ->].
  destruct (_content q) as [|head rest]; [eexists; reflexivity|].
  destruct (_can_add q) as [|flag0 ledger]; [simpl in H1; lia|].
  destruct (CanAdd_eqb flag0 no); [eexists; reflexivity|].
  destruct (negb (existsb (Nat.eqb c) (head :: rest)));
    [eexists; reflexivity|].
  destruct (Nat.eqb c head && negb (n =? 2)); eexists; reflexivity.
Qed.

Lemma add_never_raises_witness :
  exists q', add tired_store blocked_queue 7%nat = inr q'.
Proof.
  apply (add_never_raises tired_store blocked_queue 7%nat).
  exact blocked_queue_reachable.
Defined.

(** The first [add] of a sequence of calls, with the characters as they
    were when it was made. *)
Fixpoint first_add (ops : list (Store * QueueOp)) : option (Store * ref) :=
  match ops with
  | [] => None
  | (st, OpAdd c) :: _ => Some (st, c)
  | _ :: ops' => first_add ops'
  end.

Definition is_copy (op : QueueOp) : bool :=
  match op with OpCopy _ _ => true | _ => false end.

(** Calls other than [add] and [copy] keep the two participants. *)
Lemma exec_op_players (st : Store) (op : QueueOp) (q q' : Queue) :
  exec_op st op q = inr q' ->
  match op with
  | OpAdd c =>
      _p1 q' = match _p1 q with None => Some c | Some a => Some a end
      /\ _p2 q' = match _p1 q with None => enemy (st c) | Some _ => _p2 q end
  | OpCopy _ _ => True
  | _ => _p1 q' = _p1 q /\ _p2 q' = _p2 q
  end.
Proof.
  destruct op as [c| | | | |x y]; cbn [exec_op]; intros H.
  - apply (add_players st q q' c H).
  - destruct (remove st q) as [e|[c r]] eqn:E; [discriminate|].
    inversion H; subst r. apply (remove_returns st q q' c E).
  - inversion H. rewrite peek_state. auto.
  - inversion H. auto.
  - destruct (is_over st q) as [e|[b r]] eqn:E; [discriminate|].
    inversion H; subst r.
    unfold is_over, is_empty in E.
    destruct (is_nil (_content (_clean_queue st q)));
      [inversion E; auto|].
    destruct (get_hp_of st (_p1 (_clean_queue st q))); [discriminate|].
    destruct (z =? 0); [inversion E; auto|].
    destruct (get_hp_of st (_p2 (_clean_queue st q))); [discriminate|].
    destruct (z0 =? 0); inversion E; auto.
  - exact I.
Qed.

Lemma exec_ops_players (ops : list (Store * QueueOp)) (q q' : Queue) :
  forallb (fun o => negb (is_copy (snd o))) ops = true ->
  exec_ops ops q = inr q' ->
  match _p1 q with
  | Some a => _p1 q' = Some a /\ _p2 q' = _p2 q
  | None =>
      match first_add ops with
      | Some (st, c) => _p1 q' = Some c /\ _p2 q' = enemy (st c)
      | None => _p1 q' = None /\ _p2 q' = _p2 q
      end
  end.
Proof.
  revert q. induction ops as [|[st op] ops IH]; intros q Hall Hex.
  - cbn in Hex. injection Hex as <-. destruct (_p1 q); cbn; auto.
  - cbn [forallb snd] in Hall. apply andb_prop in Hall.
    destruct Hall as [Hop Hall]. cbn [exec_ops] in Hex.
    destruct (exec_op st op q) as [e|q1] eqn:E; [discriminate|].
    pose proof (exec_op_players st op q q1 E) as Hp.
    specialize (IH q1 Hall Hex).
    destruct op as [c| | | | |x y]; try discriminate; cbn [first_add];
      destruct Hp as [Hp1 Hp2]; rewrite Hp1 in IH;
      destruct (_p1 q) as [a|]; try rewrite Hp2 in IH; exact IH.
Qed.

(** X6: the two participants of a queue are the first character ever
    added and the enemy it had at that moment; no later [add], [remove],
    [peek], [is_empty] or [is_over] reassigns them. *)
Theorem participants_are_set_once (cls : QueueClass)
  (ops : list (Store * QueueOp)) (q : Queue) :
  forallb (fun o => negb (is_copy (snd o))) ops = true ->
  exec_ops ops (new_queue cls) = inr q ->
  _p1 q = option_map snd (first_add ops)
  /\ _p2 q = match first_add ops with
             | Some (st, c) => enemy (st c)
             | None => None
             end.
Proof.
  intros Hall Hex.
  pose proof (exec_ops_players ops (new_queue cls) q Hall Hex) as H.
  cbn in H. destruct (first_add ops) as [[st c]|]; exact H.
Qed.

Lemma participants_are_set_once_witness :
  _p1 blocked_queue = Some O /\ _p2 blocked_queue = Some 1%nat.
Proof.
  apply (participants_are_set_once RestrictedBattleQueueClass
           [(fresh_store, OpAdd O); (fresh_store, OpAdd 1%nat);
            (fallen_store, OpAdd 1%nat); (fresh_store, OpRemove);
            (fresh_store, OpRemove)] blocked_queue);
    reflexivity.
Defined.


(** X8: on a restricted queue built by the public operations the ledger
    is never shorter than the sequence, and every [remove] that returns
    leaves the two of the same length. *)
Theorem restricted_ledger_covers_and_remove_realigns (q : Queue) :
  reachable q ->
  queue_class q = RestrictedBattleQueueClass ->
  (List.length (_content q) <= List.length (_can_add q))%nat
  /\ forall st c q',
       remove st q = inr (c, q') ->
       List.length (_can_add q') = List.length (_content q').
Proof.
  intros Hr Hcls.
  pose proof (reachable_ledger_covers q Hr Hcls) as Hlen.
  split; [exact Hlen|]. intros st c q' H.
  unfold remove in H. rewrite Hcls in H.
  exact (RestrictedBattleQueue_remove_aligns st q q' c Hlen H).
Qed.

Lemma restricted_ledger_covers_and_remove_realigns_witness :
  (List.length (_content blocked_queue)
   <= List.length (_can_add blocked_queue))%nat
  /\ forall st c q',
       remove st blocked_queue = inr (c, q') ->
       List.length (_can_add q') = List.length (_content q').
Proof.
  apply (restricted_ledger_covers_and_remove_realigns blocked_queue).
  - exact blocked_queue_reachable.
  - reflexivity.
Defined.

(** X9: when [peek], [is_empty] and [is_over] are only called on a
    restricted queue whose head can act (so that pruning happens in
    [remove] alone), every flag stands for the entry at its position and
    no character holds more than two entries marked ['yes']. *)
Theorem two_eligible_entries_when_only_remove_prunes
  (ops : list (Store * QueueOp)) (q : Queue) :
  prunes_in_remove_only ops (new_queue RestrictedBattleQueueClass) ->
  exec_ops ops (new_queue RestrictedBattleQueueClass) = inr q ->
  List.length (_can_add q) = List.length (_content q)
  /\ forall c, (eligible_occurrences (_content q) (_can_add q) c <= 2)%nat.
Proof. apply at_most_two_without_stale_pruning. Qed.

Definition four_adds_of_one : list (Store * QueueOp) :=
  [(fresh_store, OpAdd O); (fresh_store, OpAdd O); (fresh_store, OpPeek);
   (fresh_store, OpAdd O); (fresh_store, OpAdd O)].

Lemma two_eligible_entries_when_only_remove_prunes_witness :
  let q := {| queue_class := RestrictedBattleQueueClass;
              _content := [O; O; O; O];
              _p1 := Some O; _p2 := Some 1%nat;
              _can_add := [yes; yes; no; no] |} in
  List.length (_can_add q) = List.length (_content q)
  /\ forall c, (eligible_occurrences (_content q) (_can_add q) c <= 2)%nat.
Proof.
  apply (two_eligible_entries_when_only_remove_prunes four_adds_of_one).
  - cbn. repeat split.
  - reflexivity.
Defined.

(* ================================================================== *)
(** * What a character can do, and what the decision tree picks *)

(** X10: the actions a character can take depend on its class and its sp
    only, and the attack is never dearer than the special attack: there
    is no action below the cost of the attack, ['A'] alone up to the cost
    of the special attack, and both from there on. *)
Theorem available_actions_by_sp (c : Character) :
  get_available_actions c =
  if _sp c <? match char_class c with
              | Mage => 5 | Rogue => 3 | Vampire => 15 | Sorcerer => 15
              end
  then []
  else if _sp c <? match char_class c with
                   | Mage => 30 | Rogue => 10 | Vampire => 20 | Sorcerer => 20
                   end
       then ["A"]
       else ["A"; "S"].
Proof.
  unfold get_available_actions, is_valid_action, _skills.
  cbn [filter String.eqb Ascii.eqb Bool.eqb andb].
  destruct (char_class c); cbn [get_sp_cost];
    repeat match goal with
           | |- context [?a <=? ?b] => destruct (Z.leb_spec a b)
           | |- context [?a <? ?b] => destruct (Z.ltb_spec a b)
           end; try reflexivity; lia.
Qed.

(** X11: [get_available_actions] lists exactly the keys
    [is_valid_action] accepts; a key other than ['A'] and ['S'] is never
    valid. *)
Theorem available_iff_valid (c : Character) (action : string) :
  In action (get_available_actions c) <-> is_valid_action c action = true.
Proof.
  unfold get_available_actions. rewrite filter_In.
  split; [intros [_ H]; exact H|]. intros H. split; [|exact H].
  unfold is_valid_action, _skills in H.
  destruct (String.eqb action "A") eqn:EA;
    [apply String.eqb_eq in EA; left; congruence|].
  destruct (String.eqb action "S") eqn:ES;
    [apply String.eqb_eq in ES; right; left; congruence|discriminate].
Qed.

Section PickSkill.
Variables caster target : Stats.

(** Some node of the tree always answers: a leaf, or a node whose
    condition fails. *)
Lemma pick_skill_helper_not_nil (t : SkillDecisionTree) :
  pick_skill_helper t caster target <> [].
Proof.
  revert t. fix IH 1. intros [v cond p ch]. cbn [pick_skill_helper].
  destruct (negb (cond caster target) || is_nil ch) eqn:E; [discriminate|].
  destruct ch as [|child rest];
    [cbn in E; rewrite orb_true_r in E; discriminate|].
  cbn [flat_map]. intros H. apply app_eq_nil in H.
  exact (IH child (proj1 H)).
Qed.

(** The loop of [pick_skill] returns an entry of the list, or the entry
    it started from, and none of them has a lower priority. *)
Lemma lowest_priority_spec (l : list SkillDecisionTree)
  (first_skill : SkillDecisionTree) :
  let r := lowest_priority first_skill l in
  (r = first_skill \/ In r l)
  /\ sdt_priority r <= sdt_priority first_skill
  /\ forall n, In n l -> sdt_priority r <= sdt_priority n.
Proof.
  cbv zeta. unfold lowest_priority. revert first_skill.
  induction l as [|x l IH]; intros first_skill; cbn [fold_left].
  - split; [left; reflexivity|]. split; [lia|]. intros n [].
  - destruct (Z.ltb_spec (sdt_priority x) (sdt_priority first_skill))
      as [Hlt|Hge].
    + destruct (IH x) as ([->|Hin] & Hle & Hall).
      * split; [right; left; reflexivity|]. split; [lia|].
        intros n [<-|Hn]; [lia|auto].
      * split; [right; right; exact Hin|]. split; [lia|].
        intros n [<-|Hn]; [lia|auto].
    + destruct (IH first_skill) as ([->|Hin] & Hle & Hall).
      * split; [left; reflexivity|]. split; [lia|].
        intros n [<-|Hn]; [lia|auto].
      * split; [right; right; exact Hin|]. split; [lia|].
        intros n [<-|Hn]; [lia|auto].
Qed.

(** X12: [pick_skill] never fails for want of a candidate: whatever the
    tree and the two characters, it returns the skill of a candidate node
    whose priority no other candidate undercuts. *)
Theorem pick_skill_returns_lowest_priority (t : SkillDecisionTree) :
  exists node,
    In node (pick_skill_helper t caster target)
    /\ pick_skill t caster target = Some (sdt_value node)
    /\ forall n, In n (pick_skill_helper t caster target) ->
                 sdt_priority node <= sdt_priority n.
Proof.
  unfold pick_skill.
  pose proof (pick_skill_helper_not_nil t) as Hne.
  destruct (pick_skill_helper t caster target) as [|first_skill l] eqn:E;
    [contradiction|].
  destruct (lowest_priority_spec (first_skill :: l) first_skill)
    as ([Hr|Hr] & _ & Hall).
  - exists first_skill. rewrite Hr in *. split; [left; reflexivity|].
    split; [reflexivity|exact Hall].
  - exists (lowest_priority first_skill (first_skill :: l)).
    split; [exact Hr|]. split; [reflexivity|exact Hall].
Qed.

End PickSkill.

(* ================================================================== *)
(** * Copies of a queue that lacks a participant *)

(** Copying a character always returns, and writes no queue. *)
Lemma Character_copy_returns (self : ref) (nq : qref) (h : Heap) :
  exists c' h',
    Character_copy self nq h = Ok c' h'
    /\ queues h' = queues h /\ next_queue h' = next_queue h.
Proof.
  unfold Character_copy, _set_copy_attributes, set_hp, set_sp,
    set_skill_decision_tree, bind, get_char, alloc_char, set_char, ret.
  cbn.
  match goal with
  | |- context [match char_class ?x with _ => _ end] =>
      destruct (char_class x)
  end; do 2 eexists; (split; [reflexivity|split; reflexivity]).
Qed.

Lemma copy_prelude_raises (cls : QueueClass) (h : Heap) (q : qref) :
  (q < next_queue h)%nat ->
  _p1 (queues h q) = None \/ _p2 (queues h q) = None ->
  copy_prelude cls q h = Raise AttributeError.
Proof.
  intros Hq Hp. unfold copy_prelude.
  unfold bind at 1. unfold alloc_queue.
  unfold bind at 1. unfold get_queue at 1. cbn [queues].
  rewrite upd_other by lia.
  destruct (_p1 (queues h q)) as [a|] eqn:Hp1; [|reflexivity].
  destruct Hp as [Hp|Hp2]; [discriminate|].
  unfold bind at 1. cbn [deref ret].
  unfold bind at 1.
  match goal with
  | |- context [Character_copy a ?nq ?h1] =>
      destruct (Character_copy_returns a nq h1) as (c' & h' & -> & Hqs & _)
  end.
  unfold bind at 1. unfold get_queue at 1. rewrite Hqs. cbn [queues].
  rewrite upd_other by lia. rewrite Hp2. reflexivity.
Qed.

(** X13: a queue whose first character was added without an enemy (or
    to which nothing was added) cannot be copied: [copy] raises
    [AttributeError], and so does [select_attack] of both minimax
    playstyles, which starts by copying. *)
Theorem copy_raises_without_participant (h : Heap) (q : qref) :
  (q < next_queue h)%nat ->
  _p1 (queues h q) = None \/ _p2 (queues h q) = None ->
  bq_copy q h = Raise AttributeError
  /\ forall fuel,
       RecursiveMinimax_select_attack fuel q h = Raise AttributeError
       /\ IterativeMinimax_select_attack fuel q h = Raise AttributeError.
Proof.
  intros Hq Hp.
  assert (Hcopy : bq_copy q h = Raise AttributeError).
  { unfold bq_copy, bind, get_queue.
    destruct (queue_class (queues h q));
      [unfold BattleQueue_copy|unfold RestrictedBattleQueue_copy];
      unfold bind at 1; rewrite (copy_prelude_raises _ h q Hq Hp);
      reflexivity. }
  split; [exact Hcopy|]. intros fuel.
  unfold RecursiveMinimax_select_attack, IterativeMinimax_select_attack,
    select_attack, select_attack_scores.
  split; unfold bind at 1; unfold bind at 1; rewrite Hcopy; reflexivity.
Qed.

(** The heap after [bq = BattleQueue(); c = Rogue("c", bq, ps);
    bq.add(c)]: the rogue has no enemy. *)
Definition lonely_heap : Heap :=
  {| chars := fun _ => new_character Rogue "c" O (manual O);
     queues := fun _ =>
       {| queue_class := BattleQueueClass; _content := [O];
          _p1 := Some O; _p2 := None; _can_add := [] |};
     next_char := 1;
     next_queue := 1 |}.

Lemma copy_raises_without_participant_witness :
  bq_copy O lonely_heap = Raise AttributeError
  /\ forall fuel,
       RecursiveMinimax_select_attack fuel O lonely_heap = Raise AttributeError
       /\ IterativeMinimax_select_attack fuel O lonely_heap
          = Raise AttributeError.
Proof.
  apply (copy_raises_without_participant lonely_heap O).
  - cbn. lia.
  - right. reflexivity.
Defined.

(* ================================================================== *)
(** * What a copy shows *)

(** The four values [Character.__repr__] formats: name, class, hp, sp. *)
Definition described (c : Character) : string * CharClass * Z * Z :=
  (_name c, char_class c, _hp c, _sp c).

(** X14: on a queue that holds its two participants only, [copy]
    returns a queue of the same class that shows the same characters in
    the same order -- names, classes, hp and sp -- without pruning any;
    a restricted copy carries the same ledger.  No object that existed
    before is changed. *)
Theorem copy_shows_the_same (h : Heap) (q : qref) (a b : ref) :
  (q < next_queue h)%nat -> (a < next_char h)%nat -> (b < next_char h)%nat ->
  _p1 (queues h q) = Some a -> _p2 (queues h q) = Some b ->
  Forall (fun c => c = a \/ c = b) (_content (queues h q)) ->
  exists q' h',
    bq_copy q h = Ok q' h'
    /\ map (fun c => described (chars h' c)) (_content (queues h' q'))
       = map (fun c => described (chars h c)) (_content (queues h q))
    /\ queue_class (queues h' q') = queue_class (queues h q)
    /\ _can_add (queues h' q')
       = match queue_class (queues h q) with
         | BattleQueueClass => []
         | RestrictedBattleQueueClass => _can_add (queues h q)
         end
    /\ (forall c, (c < next_char h)%nat -> chars h' c = chars h c)
    /\ (forall x, (x < next_queue h)%nat -> queues h' x = queues h x).
Proof.
  intros Hq Ha Hb Hp1 Hp2 Hall.
  destruct (bq_copy_state q a b h Hq Ha Hb Hp1 Hp2)
    as (q' & h' & Hcopy & Hheap & Hstate).
  destruct Hheap as (Hq' & _ & _ & Hchars & Hqueues & Hc1 & Hc2 & _).
  exists q', h'. split; [exact Hcopy|]. rewrite Hstate.
  split; [|split; [reflexivity|split; [reflexivity|split]]].
  - cbn [copy_state _content]. rewrite map_map. apply map_ext_in.
    intros c Hin. rewrite Forall_forall in Hall.
    rewrite Hp1. cbn [option_ref_eqb].
    destruct (Nat.eqb_spec c a) as [->|Hne].
    + rewrite Hc1. reflexivity.
    + destruct (Hall c Hin) as [->| ->]; [contradiction|].
      rewrite Hc2. reflexivity.
  - intros c Hc. apply Hchars; lia.
  - intros x Hx. apply Hqueues. lia.
Qed.

Lemma copy_shows_the_same_witness :
  let h := duel Rogue Sorcerer 40 7 60 2 in
  exists q' h',
    bq_copy O h = Ok q' h'
    /\ map (fun c => described (chars h' c)) (_content (queues h' q'))
       = map (fun c => described (chars h c)) (_content (queues h O))
    /\ queue_class (queues h' q') = queue_class (queues h O)
    /\ _can_add (queues h' q')
       = match queue_class (queues h O) with
         | BattleQueueClass => []
         | RestrictedBattleQueueClass => _can_add (queues h O)
         end
    /\ (forall c, (c < next_char h)%nat -> chars h' c = chars h c)
    /\ (forall x, (x < next_queue h)%nat -> queues h' x = queues h x).
Proof.
  apply (copy_shows_the_same (duel Rogue Sorcerer 40 7 60 2) O O 1%nat);
    cbn; try lia; try reflexivity.
  constructor; [left; reflexivity|].
  constructor; [right; reflexivity|constructor].
Defined.

(* ================================================================== *)
(** * What a move writes *)

(** Everything of a character but its hp and sp. *)
Definition same_identity (x y : Character) : Prop :=
  char_class x = char_class y /\ _name x = _name y
  /\ battle_queue x = battle_queue y /\ playstyle x = playstyle y
  /\ enemy x = enemy y /\ decision_tree x = decision_tree y.

(** From [h] to [h'] no object was created, only the queue of [c] was
    written, only [c] and its enemy were written, and of those only hp
    and sp. *)
Definition move_footprint (c : ref) (h h' : Heap) : Prop :=
  next_char h' = next_char h /\ next_queue h' = next_queue h
  /\ (forall x, x <> c -> Some x <> enemy (chars h c) ->
                chars h' x = chars h x)
  /\ (forall x, same_identity (chars h' x) (chars h x))
  /\ (forall q, q <> battle_queue (chars h c) -> queues h' q = queues h q).

Lemma same_identity_refl (x : Character) : same_identity x x.
Proof. repeat split. Qed.

Lemma same_identity_trans (x y z : Character) :
  same_identity x y -> same_identity y z -> same_identity x z.
Proof.
  intros (A1 & A2 & A3 & A4 & A5 & A6) (B1 & B2 & B3 & B4 & B5 & B6).
  repeat split; congruence.
Qed.

Section Footprint.
Variables (h0 : Heap) (c : ref).

Local Abbreviation inv := (move_footprint c h0).

(** [stays m Q]: from a heap within the footprint, [m] raises, runs out
    of fuel, or returns within the footprint a value satisfying [Q]. *)
Definition stays {A} (m : M A) (Q : A -> Prop) : Prop :=
  forall h, inv h -> wp True m (fun a h' => inv h' /\ Q a) h.

Lemma stays_ret {A} (a : A) (Q : A -> Prop) : Q a -> stays (ret a) Q.
Proof. intros H h Hi. split; assumption. Qed.

Lemma stays_raise {A} (e : Exn) (Q : A -> Prop) : stays (raise e) Q.
Proof. intros h Hi. exact I. Qed.

Lemma stays_bind {A B} (m : M A) (k : A -> M B) (Q : A -> Prop)
  (R : B -> Prop) :
  stays m Q -> (forall a, Q a -> stays (k a) R) -> stays (bind m k) R.
Proof.
  intros Hm Hk h Hi. apply wp_bind.
  apply (wp_mono True m (fun a h' => inv h' /\ Q a)); [apply Hm; exact Hi|].
  intros a h' [Hi' Ha]. apply (Hk a Ha h' Hi').
Qed.

Lemma stays_weaken {A} (m : M A) (Q R : A -> Prop) :
  stays m Q -> (forall a, Q a -> R a) -> stays m R.
Proof.
  intros Hm HQR h Hi.
  apply (wp_mono True m (fun a h' => inv h' /\ Q a)); [apply Hm; exact Hi|].
  intros a h' [Hi' Ha]. auto.
Qed.

Lemma stays_get_char (x : ref) :
  stays (get_char x) (fun ch => same_identity ch (chars h0 x)).
Proof.
  intros h Hi. split; [exact Hi|]. destruct Hi as (_ & _ & _ & H & _).
  apply H.
Qed.

Lemma stays_get_queue (q : qref) : stays (get_queue q) (fun _ => True).
Proof. intros h Hi. split; [exact Hi|exact I]. Qed.

Lemma stays_deref (x : option ref) : stays (deref x) (fun a => x = Some a).
Proof.
  intros h Hi. destruct x as [a|]; [|exact I]. split; [exact Hi|reflexivity].
Qed.

(** A write to [c] or to its enemy that keeps everything but hp and sp. *)
Lemma stays_update (x : ref) (g : Character -> Character) :
  x = c \/ Some x = enemy (chars h0 c) ->
  (forall ch, same_identity (g ch) ch) ->
  stays (ch <- get_char x ;; set_char x (g ch)) (fun _ => True).
Proof.
  intros Hx Hg h (H1 & H2 & H3 & H4 & H5).
  unfold wp, bind, get_char, set_char. split; [|exact I].
  unfold move_footprint. cbn [chars queues next_char next_queue].
  split; [exact H1|]. split; [exact H2|]. split; [|split; [|exact H5]].
  - intros y Hy1 Hy2. rewrite upd_other; [apply H3; assumption|].
    intros ->. destruct Hx; contradiction.
  - intros y. unfold upd. destruct (Nat.eqb_spec y x) as [->|_];
      [|apply H4].
    apply (same_identity_trans _ (chars h x)); [apply Hg|apply H4].
Qed.

Lemma stays_reader (x : ref) (f : Character -> Z) :
  stays (ch <- get_char x ;; ret (f ch)) (fun _ => True).
Proof. intros h Hi. split; [exact Hi|exact I]. Qed.

(** A method of the queue of [c]. *)
Lemma stays_on_queue {A} (f : Store -> Queue -> Result (A * Queue)) :
  stays (on_queue (battle_queue (chars h0 c)) f) (fun _ => True).
Proof.
  intros h (H1 & H2 & H3 & H4 & H5). unfold wp, on_queue.
  destruct (f (chars h) (queues h (battle_queue (chars h0 c))))
    as [e|[a q']]; [exact I|].
  unfold bind, set_queue, ret. split; [|exact I].
  unfold move_footprint. cbn [chars queues next_char next_queue].
  split; [exact H1|]. split; [exact H2|]. split; [exact H3|].
  split; [exact H4|].
  intros q Hq. rewrite upd_other by exact Hq. apply H5. exact Hq.
Qed.

Lemma stays_deal_damage (s : Skill) :
  stays (_deal_damage s c (enemy (chars h0 c))) (fun _ => True).
Proof.
  unfold _deal_damage.
  apply (stays_bind _ _ (fun _ => True)).
  { apply (stays_update c (fun ch => with_sp ch (_sp ch - get_sp_cost s)));
      [left; reflexivity|intros ch; repeat split]. }
  intros _ _. apply (stays_bind _ _ (fun a => enemy (chars h0 c) = Some a));
    [apply stays_deref|].
  intros t Ht.
  apply (stays_update t
           (fun ch => with_hp ch
                        (Z.max (_hp ch - (skill_damage s - _defense ch)) 0)));
    [right; symmetry; exact Ht|intros ch; repeat split].
Qed.

Lemma stays_add_to_queue_of (x : ref) :
  stays (add_to_queue_of c x) (fun _ => True).
Proof.
  unfold add_to_queue_of.
  apply (stays_bind _ _ (fun ch => same_identity ch (chars h0 c)));
    [apply stays_get_char|].
  intros ch (_ & _ & -> & _). apply stays_on_queue.
Qed.

Lemma stays_set_hp (x : ref) (v : Z) :
  x = c \/ Some x = enemy (chars h0 c) -> stays (set_hp x v) (fun _ => True).
Proof.
  intros Hx. apply (stays_update x (fun ch => with_hp ch v)); [exact Hx|].
  intros ch. repeat split.
Qed.

Lemma stays_set_sp (x : ref) (v : Z) :
  x = c \/ Some x = enemy (chars h0 c) -> stays (set_sp x v) (fun _ => True).
Proof.
  intros Hx. apply (stays_update x (fun ch => with_sp ch v)); [exact Hx|].
  intros ch. repeat split.
Qed.

Lemma stays_drain (fuel : nat) :
  stays (drain fuel (battle_queue (chars h0 c))) (fun _ => True).
Proof.
  induction fuel as [|fuel IH]; cbn [drain];
    apply (stays_bind _ _ (fun _ => True));
    try apply stays_on_queue; intros [|] _;
    try (apply stays_ret; exact I).
  - intros h Hi. exact I.
  - apply (stays_bind _ _ (fun _ => True)); [apply stays_on_queue|].
    intros _ _. exact IH.
Qed.

Ltac then_by lem :=
  eapply stays_bind; [apply lem|cbv beta; intros ? ?].

Lemma stays_NormalAttack_use (s : Skill) :
  stays (NormalAttack_use s c (enemy (chars h0 c))) (fun _ => True).
Proof.
  unfold NormalAttack_use. then_by stays_deal_damage.
  apply stays_add_to_queue_of.
Qed.

Lemma stays_get_hp (x : ref) : stays (get_hp x) (fun _ => True).
Proof. apply (stays_reader x _hp). Qed.

Lemma stays_use (s : Skill) :
  stays (use s c (enemy (chars h0 c))) (fun _ => True).
Proof.
  destruct s; cbn [use].
  - apply stays_NormalAttack_use.
  - then_by stays_deal_damage. then_by stays_deref.
    then_by stays_add_to_queue_of. apply stays_add_to_queue_of.
  - apply stays_NormalAttack_use.
  - then_by stays_deal_damage. then_by stays_add_to_queue_of.
    apply stays_add_to_queue_of.
  - then_by stays_deref. then_by stays_get_hp.
    then_by stays_NormalAttack_use. then_by stays_get_hp.
    then_by stays_get_hp. apply stays_set_hp. left; reflexivity.
  - then_by stays_deref. then_by stays_get_hp.
    then_by stays_deal_damage. then_by stays_get_hp. then_by stays_get_hp.
    eapply stays_bind; [apply stays_set_hp; left; reflexivity|intros _ _].
    then_by stays_add_to_queue_of. then_by stays_add_to_queue_of.
    apply stays_add_to_queue_of.
  - then_by stays_deref. then_by stays_get_hp.
    then_by stays_deal_damage. apply stays_set_hp. right. congruence.
  - then_by stays_get_char.
    match goal with H : same_identity _ _ |- _ =>
      destruct H as (_ & _ & -> & _) end.
    then_by stays_get_queue. then_by stays_drain.
    then_by stays_deal_damage. then_by stays_deref.
    then_by stays_add_to_queue_of. then_by stays_add_to_queue_of.
    apply stays_add_to_queue_of.
Qed.

Lemma stays_move (key : string) :
  stays (ch <- get_char c ;; s <- skill_of ch key ;; use s c (enemy ch))
    (fun _ => True).
Proof.
  then_by stays_get_char.
  match goal with H : same_identity _ _ |- _ =>
    destruct H as (_ & _ & _ & _ & -> & _) end.
  apply (stays_bind _ _ (fun _ => True)).
  - unfold skill_of.
    match goal with |- context [_skills ?x key] => destruct (_skills x key) end;
      [apply stays_ret; exact I|apply stays_raise].
  - intros s _. apply stays_use.
Qed.

Lemma stays_Sorcerer_attack : stays (Sorcerer_attack c) (fun _ => True).
Proof.
  unfold Sorcerer_attack.
  eapply stays_bind; [apply (stays_reader c _sp)|intros former_sp _].
  then_by stays_get_char.
  match goal with H : same_identity _ _ |- _ =>
    destruct H as (_ & _ & _ & _ & He & _) end.
  match goal with |- context [decision_tree ?x] =>
    destruct (decision_tree x) as [tree|] end; [|apply stays_raise].
  rewrite He. then_by stays_deref.
  eapply stays_bind; [apply stays_get_char|intros tch _].
  match goal with |- context [pick_skill ?a ?b ?d] =>
    destruct (pick_skill a b d) as [s|] end; [|apply stays_raise].
  then_by stays_use.
  eapply stays_bind; [apply stays_set_sp; left; reflexivity|intros _ _].
  apply (stays_move "A").
Qed.

Lemma stays_attack : stays (attack c) (fun _ => True).
Proof.
  unfold attack. eapply stays_bind; [apply stays_get_char|intros ch _].
  destruct (char_class ch);
    [apply (stays_move "A")|apply (stays_move "A")|apply (stays_move "A")
    |apply stays_Sorcerer_attack].
Qed.

End Footprint.

Lemma move_footprint_refl (c : ref) (h : Heap) : move_footprint c h h.
Proof.
  repeat split.
Qed.


(* ================================================================== *)
(** * What each skill does to the two characters and to the queue *)

(** The turns a skill adds to the queue of the caster, in the order of
    the [add] calls of its [use] method. *)
Definition turns_added (s : Skill) (caster target : ref) : list ref :=
  match s with
  | MageAttack | RogueAttack | VampireAttack => [caster]
  | MageSpecial => [target; caster]
  | RogueSpecial => [caster; caster]
  | VampireSpecial => [caster; caster; target]
  | SorcererAttack => []
  | SorcererSpecial => [caster; target; caster]
  end.

Definition drains_hp (s : Skill) : bool :=
  match s with VampireAttack | VampireSpecial => true | _ => false end.

Definition is_SorcererSpecial (s : Skill) : bool :=
  match s with SorcererSpecial => true | _ => false end.

Ltac run_skill E1 E2 Hcls Hp1 :=
  unfold use, NormalAttack_use, _deal_damage, add_to_queue_of, bq_add,
    on_queue, add, reduce_sp, apply_damage, get_hp, set_hp, bind, get_char,
    set_char, deref, ret, set_queue, BattleQueue_add, set_players_once;
  repeat (progress
    (unfold upd;
     cbn [chars queues next_char next_queue with_sp with_hp with_content
          with_players battle_queue _hp _sp char_class _defense enemy
          queue_class _content _p1 _p2 _can_add];
     rewrite ?Nat.eqb_refl, ?E1, ?E2, ?Hcls, ?Hp1)).

(** The effect of every skill but [SorcererSpecial], when caster and
    target are two characters and the queue of the caster is a plain
    [BattleQueue]. *)
Lemma skill_effect_on_plain_queue (h : Heap) (s : Skill) (c t : ref) :
  is_SorcererSpecial s = false ->
  t <> c ->
  queue_class (queues h (battle_queue (chars h c))) = BattleQueueClass ->
  exists h',
    use s c (Some t) h = Ok tt h'
    /\ _sp (chars h' c) = _sp (chars h c) - get_sp_cost s
    /\ _sp (chars h' t) = _sp (chars h t)
    /\ _hp (chars h' t)
       = match s with
         | SorcererAttack => _hp (chars h t)
         | _ => Z.max (_hp (chars h t)
                       - (skill_damage s - _defense (chars h t))) 0
         end
    /\ _hp (chars h' c)
       = (if drains_hp s
          then _hp (chars h c) + (_hp (chars h t) - _hp (chars h' t))
          else _hp (chars h c))
    /\ _content (queues h' (battle_queue (chars h c)))
       = _content (queues h (battle_queue (chars h c))) ++ turns_added s c t
    /\ queue_class (queues h' (battle_queue (chars h c))) = BattleQueueClass
    /\ same_identity (chars h' c) (chars h c)
    /\ same_identity (chars h' t) (chars h t).
Proof.
  intros Hs Hne Hcls.
  assert (E1 : Nat.eqb t c = false) by (apply Nat.eqb_neq; exact Hne).
  assert (E2 : Nat.eqb c t = false) by (apply Nat.eqb_neq; congruence).
  destruct (_p1 (queues h (battle_queue (chars h c)))) as [p|] eqn:Hp1;
    destruct s; try discriminate;
    run_skill E1 E2 Hcls Hp1;
    (eexists; split; [reflexivity|]);
    run_skill E1 E2 Hcls Hp1;
    cbn [drains_hp turns_added];
    rewrite <- ?app_assoc, ?app_nil_r; cbn [app];
    unfold same_identity; cbn [char_class _name battle_queue playstyle enemy
                               decision_tree with_hp with_sp];
    repeat split; reflexivity.
Qed.

(** X16: [attack] and [special_attack] of a mage, a rogue or a vampire
    whose enemy is another character and whose queue is a plain
    [BattleQueue] always return; the caster pays the cost of the skill
    (with no check that it can: sp may go below 0), the enemy loses the
    damage less its defense but never goes below hp 0, a vampire gains
    the hp its enemy lost, and the turns of the skill are appended to the
    queue. *)
Theorem attack_and_special_attack_effects (h : Heap) (c t : ref)
  (key : string) (s : Skill) :
  char_class (chars h c) <> Sorcerer ->
  _skills (chars h c) key = Some s ->
  enemy (chars h c) = Some t ->
  t <> c ->
  queue_class (queues h (battle_queue (chars h c))) = BattleQueueClass ->
  exists h',
    (if String.eqb key "A" then attack c h else special_attack c h) = Ok tt h'
    /\ _sp (chars h' c) = _sp (chars h c) - get_sp_cost s
    /\ _sp (chars h' t) = _sp (chars h t)
    /\ _hp (chars h' t)
       = Z.max (_hp (chars h t) - (skill_damage s - _defense (chars h t))) 0
    /\ _hp (chars h' c)
       = (if drains_hp s
          then _hp (chars h c) + (_hp (chars h t) - _hp (chars h' t))
          else _hp (chars h c))
    /\ _content (queues h' (battle_queue (chars h c)))
       = _content (queues h (battle_queue (chars h c))) ++ turns_added s c t.
Proof.
  intros Hcls Hskill He Hne Hq.
  assert (Hs : is_SorcererSpecial s = false /\ s <> SorcererAttack).
  { unfold _skills in Hskill.
    destruct (String.eqb key "A"), (String.eqb key "S"),
      (char_class (chars h c)); inversion Hskill; try contradiction;
      split; (reflexivity || discriminate). }
  destruct Hs as [Hs1 Hs2].
  destruct (skill_effect_on_plain_queue h s c t Hs1 Hne Hq)
    as (h' & Huse & Hsp & Hspt & Hhp & Hhpc & Hcont & _).
  exists h'. split.
  - unfold _skills in Hskill.
    destruct (String.eqb key "A") eqn:EA;
      [|destruct (String.eqb key "S"); [|discriminate]];
      unfold attack, Character_attack, special_attack, skill_of, _skills,
        bind, get_char, ret;
      cbn [String.eqb Ascii.eqb Bool.eqb andb];
      destruct (char_class (chars h c)) eqn:Ec; try contradiction;
      cbv beta iota; rewrite ?Ec, He; inversion Hskill; subst s; exact Huse.
  - repeat (split; [assumption|]). split; [|split; assumption].
    rewrite Hhp. destruct s; try reflexivity. contradiction.
Qed.

Lemma attack_and_special_attack_effects_witness :
  let h := duel Vampire Mage 50 10 12 100 in
  exists h',
    special_attack O h = Ok tt h'
    /\ _sp (chars h' O) = 10 - 20
    /\ _sp (chars h' 1%nat) = 100
    /\ _hp (chars h' 1%nat) = Z.max (12 - (30 - 8)) 0
    /\ _hp (chars h' O) = 50 + (12 - _hp (chars h' 1%nat))
    /\ _content (queues h' O) = [O; 1%nat] ++ [O; O; 1%nat].
Proof.
  apply (attack_and_special_attack_effects (duel Vampire Mage 50 10 12 100)
           O 1%nat "S" VampireSpecial);
    cbn; (reflexivity || lia || discriminate).
Defined.

(** The loop of [SorcererSpecial.use] always ends, with an empty
    sequence; it writes the queue only, and of the queue neither its class
    nor its two participants. *)
Lemma drain_empties (fuel : nat) (q : qref) (h : Heap) :
  (List.length (_content (queues h q)) <= fuel)%nat ->
  exists h',
    drain fuel q h = Ok tt h'
    /\ chars h' = chars h
    /\ next_char h' = next_char h /\ next_queue h' = next_queue h
    /\ (forall x, x <> q -> queues h' x = queues h x)
    /\ _content (queues h' q) = []
    /\ queue_class (queues h' q) = queue_class (queues h q)
    /\ _p1 (queues h' q) = _p1 (queues h q)
    /\ _p2 (queues h' q) = _p2 (queues h q).
Proof.
  revert h. induction fuel as [|fuel IH]; intros h Hlen;
    cbn [drain]; unfold bind at 1, bq_is_empty, on_queue;
    cbn [is_empty fst snd]; unfold bind at 1, set_queue, ret;
    cbn [chars queues next_char next_queue];
    fold (heap_set_queue h q (_clean_queue (chars h) (queues h q)));
    set (h1 := heap_set_queue h q (_clean_queue (chars h) (queues h q)));
    assert (Hq1 : queues h1 q = _clean_queue (chars h) (queues h q))
      by (unfold h1; heap_simpl; reflexivity);
    assert (Hother : forall x, x <> q -> queues h1 x = queues h x)
      by (intros x Hx; unfold h1; cbn; apply upd_other; exact Hx);
    pose proof (clean_list_length (chars h) (_content (queues h q))) as Hcl;
    cbn [_clean_queue _content with_content];
    destruct (clean_list (chars h) (_content (queues h q)))
      as [|x rest] eqn:Hclean; cbn [is_nil];
    try (exists h1; rewrite Hq1; cbn [_clean_queue with_content _content
           queue_class _p1 _p2]; rewrite Hclean; repeat split; auto; fail).
  - cbn [List.length] in Hcl. lia.
  - unfold bind at 1, bq_remove, on_queue.
    change (chars h1) with (chars h). rewrite Hq1.
    destruct (remove (chars h) (_clean_queue (chars h) (queues h q)))
      as [e|[c r]] eqn:Er.
    { destruct (remove_raises _ _ _ Er) as [_ Hnil].
      cbn [_clean_queue _content with_content] in Hnil.
      rewrite clean_list_idempotent, Hclean in Hnil. discriminate. }
    destruct (remove_returns _ _ _ _ Er) as (Hr & Hr1 & Hr2).
    pose proof (remove_class _ _ _ _ Er) as Hrc.
    cbn [_clean_queue _content with_content _p1 _p2 queue_class]
      in Hr, Hr1, Hr2, Hrc.
    rewrite clean_list_idempotent, Hclean in Hr. injection Hr as Hx Hrest.
    unfold bind, set_queue, ret.
    fold (heap_set_queue h1 q r). set (h2 := heap_set_queue h1 q r).
    assert (Hq2 : queues h2 q = r) by (unfold h2; heap_simpl; reflexivity).
    destruct (IH h2) as (h' & Hd & A1 & A2 & A3 & A4 & A5 & A6 & A7 & A8).
    { rewrite Hq2, <- Hrest. cbn [List.length] in Hcl. lia. }
    exists h'. rewrite Hd, A1, A2, A3, A5, A6, A7, A8, Hq2.
    repeat split; auto.
    intros y Hy. rewrite A4 by exact Hy. unfold h2. cbn.
    rewrite upd_other by exact Hy. apply Hother. exact Hy.
Qed.

(** The statements of [SorcererSpecial.use] after its loop. *)
Lemma SorcererSpecial_after_loop (h : Heap) (c t : ref) :
  t <> c ->
  queue_class (queues h (battle_queue (chars h c))) = BattleQueueClass ->
  exists h',
    (_deal_damage SorcererSpecial c (Some t) ;;
     t0 <- deref (Some t) ;;
     add_to_queue_of c c ;; add_to_queue_of c t0 ;; add_to_queue_of c c) h
    = Ok tt h'
    /\ _sp (chars h' c) = _sp (chars h c) - 20
    /\ _sp (chars h' t) = _sp (chars h t)
    /\ _hp (chars h' t)
       = Z.max (_hp (chars h t) - (25 - _defense (chars h t))) 0
    /\ _hp (chars h' c) = _hp (chars h c)
    /\ _content (queues h' (battle_queue (chars h c)))
       = _content (queues h (battle_queue (chars h c))) ++ [c; t; c]
    /\ queue_class (queues h' (battle_queue (chars h c))) = BattleQueueClass
    /\ same_identity (chars h' c) (chars h c)
    /\ same_identity (chars h' t) (chars h t).
Proof.
  intros Hne Hcls.
  assert (E1 : Nat.eqb t c = false) by (apply Nat.eqb_neq; exact Hne).
  assert (E2 : Nat.eqb c t = false) by (apply Nat.eqb_neq; congruence).
  destruct (_p1 (queues h (battle_queue (chars h c)))) as [p|] eqn:Hp1;
    run_skill E1 E2 Hcls Hp1;
    (eexists; split; [reflexivity|]);
    run_skill E1 E2 Hcls Hp1;
    cbn [skill_damage get_sp_cost];
    rewrite <- ?app_assoc; cbn [app];
    unfold same_identity; cbn [char_class _name battle_queue playstyle enemy
                               decision_tree with_hp with_sp];
    repeat split; reflexivity.
Qed.

(** [SorcererSpecial.use] on a plain queue: the turns that were waiting
    are gone. *)
Lemma SorcererSpecial_effect (h : Heap) (c t : ref) :
  t <> c ->
  queue_class (queues h (battle_queue (chars h c))) = BattleQueueClass ->
  exists h',
    use SorcererSpecial c (Some t) h = Ok tt h'
    /\ _sp (chars h' c) = _sp (chars h c) - 20
    /\ _sp (chars h' t) = _sp (chars h t)
    /\ _hp (chars h' t)
       = Z.max (_hp (chars h t) - (25 - _defense (chars h t))) 0
    /\ _hp (chars h' c) = _hp (chars h c)
    /\ _content (queues h' (battle_queue (chars h c))) = [c; t; c]
    /\ queue_class (queues h' (battle_queue (chars h c))) = BattleQueueClass
    /\ same_identity (chars h' c) (chars h c)
    /\ same_identity (chars h' t) (chars h t).
Proof.
  intros Hne Hcls. cbn [use].
  unfold bind at 1, get_char. unfold bind at 1, get_queue.
  unfold bind at 1.
  destruct (drain_empties
              (List.length (_content (queues h (battle_queue (chars h c)))))
              (battle_queue (chars h c)) h (le_n _))
    as (h1 & -> & Hch & _ & _ & _ & Hcont & Hcls1 & _).
  destruct (SorcererSpecial_after_loop h1 c t Hne) as (h' & Hrun & Hfacts).
  { rewrite Hch, Hcls1. exact Hcls. }
  exists h'. split; [exact Hrun|].
  rewrite Hch, Hcont in Hfacts. exact Hfacts.
Qed.

(** The effect of a skill on two characters and a plain queue, for
    every skill. *)
Lemma skill_effect (h : Heap) (s : Skill) (c t : ref) :
  t <> c ->
  queue_class (queues h (battle_queue (chars h c))) = BattleQueueClass ->
  exists h',
    use s c (Some t) h = Ok tt h'
    /\ _sp (chars h' c) = _sp (chars h c) - get_sp_cost s
    /\ _sp (chars h' t) = _sp (chars h t)
    /\ _hp (chars h' t)
       = match s with
         | SorcererAttack => _hp (chars h t)
         | _ => Z.max (_hp (chars h t)
                       - (skill_damage s - _defense (chars h t))) 0
         end
    /\ _hp (chars h' c)
       = (if drains_hp s
          then _hp (chars h c) + (_hp (chars h t) - _hp (chars h' t))
          else _hp (chars h c))
    /\ _content (queues h' (battle_queue (chars h c)))
       = (if is_SorcererSpecial s then []
          else _content (queues h (battle_queue (chars h c))))
         ++ turns_added s c t
    /\ queue_class (queues h' (battle_queue (chars h c))) = BattleQueueClass
    /\ same_identity (chars h' c) (chars h c)
    /\ same_identity (chars h' t) (chars h t).
Proof.
  intros Hne Hcls. destruct (is_SorcererSpecial s) eqn:Hs.
  - destruct s; try discriminate.
    exact (SorcererSpecial_effect h c t Hne Hcls).
  - exact (skill_effect_on_plain_queue h s c t Hs Hne Hcls).
Qed.

(** X17: [Sorcerer.attack] always returns when the sorcerer has a tree,
    its enemy is another character and its queue is a plain
    [BattleQueue]: the tree always picks a skill, that skill is used on
    the enemy in full -- damage, drained hp, turns added, and for
    [SorcererSpecial] the emptied queue -- and the sorcerer pays 15 sp
    whatever the picked skill costs. *)
Theorem Sorcerer_attack_effects (h : Heap) (c t : ref)
  (tree : SkillDecisionTree) :
  char_class (chars h c) = Sorcerer ->
  decision_tree (chars h c) = Some tree ->
  enemy (chars h c) = Some t ->
  t <> c ->
  queue_class (queues h (battle_queue (chars h c))) = BattleQueueClass ->
  exists s h',
    pick_skill tree (stats_of (chars h c)) (stats_of (chars h t)) = Some s
    /\ attack c h = Ok tt h'
    /\ _sp (chars h' c) = _sp (chars h c) - 15
    /\ _sp (chars h' t) = _sp (chars h t)
    /\ _hp (chars h' t)
       = match s with
         | SorcererAttack => _hp (chars h t)
         | _ => Z.max (_hp (chars h t)
                       - (skill_damage s - _defense (chars h t))) 0
         end
    /\ _hp (chars h' c)
       = (if drains_hp s
          then _hp (chars h c) + (_hp (chars h t) - _hp (chars h' t))
          else _hp (chars h c))
    /\ _content (queues h' (battle_queue (chars h c)))
       = (if is_SorcererSpecial s then []
          else _content (queues h (battle_queue (chars h c))))
         ++ turns_added s c t.
Proof.
  intros Hcls Htree He Hne Hq.
  assert (Hpick : exists s,
    pick_skill tree (stats_of (chars h c)) (stats_of (chars h t)) = Some s).
  { unfold pick_skill.
    pose proof (pick_skill_helper_not_nil (stats_of (chars h c))
                  (stats_of (chars h t)) tree) as Hnil.
    destruct (pick_skill_helper tree (stats_of (chars h c))
                (stats_of (chars h t))); [contradiction|eauto]. }
  destruct Hpick as [s Hpick]. exists s.
  destruct (skill_effect h s c t Hne Hq)
    as (h1 & Huse & Hsp1 & Hspt1 & Hhpt1 & Hhpc1 & Hcont1 & Hq1 & Hic & Hit).
  destruct Hic as (Hc1 & _ & Hbq1 & _ & He1 & _).
  set (h2 := heap_set_char h1 c (with_sp (chars h1 c) (_sp (chars h c)))).
  assert (Hc2 : chars h2 c = with_sp (chars h1 c) (_sp (chars h c)))
    by (unfold h2; heap_simpl; reflexivity).
  assert (Ht2 : chars h2 t = chars h1 t)
    by (unfold h2; cbn; apply upd_other; exact Hne).
  assert (Hbq2 : battle_queue (chars h2 c) = battle_queue (chars h c))
    by (rewrite Hc2; exact Hbq1).
  destruct (skill_effect h2 SorcererAttack c t Hne)
    as (h3 & Huse3 & Hsp3 & Hspt3 & Hhpt3 & Hhpc3 & Hcont3 & _).
  { rewrite Hbq2. change (queues h2) with (queues h1). exact Hq1. }
  exists h3. split; [exact Hpick|]. split.
  - unfold attack, Sorcerer_attack, set_sp, get_sp, bind, get_char, set_char,
      ret.
    cbv beta iota. rewrite Hcls. cbv beta iota. rewrite Htree, He.
    cbn [deref]. unfold ret. cbv beta iota. rewrite Hpick, Huse.
    cbv beta iota.
    match goal with |- Character_attack c ?x = _ => change x with h2 end.
    unfold Character_attack, skill_of, _skills, bind, get_char.
    cbn [String.eqb Ascii.eqb Bool.eqb]. cbv beta iota.
    rewrite Hc2. cbn [char_class with_sp enemy]. rewrite Hc1, Hcls, He1, He.
    unfold ret. exact Huse3.
  - rewrite Hbq2 in Hcont3. change (queues h2) with (queues h1) in Hcont3.
    rewrite Hc2 in Hsp3, Hhpc3. rewrite Ht2 in Hspt3, Hhpt3.
    cbn [_sp _hp with_sp get_sp_cost drains_hp is_SorcererSpecial
         turns_added] in Hsp3, Hhpc3, Hcont3.
    rewrite app_nil_r in Hcont3.
    rewrite Hsp3, Hspt3, Hhpt3, Hhpc3, Hcont3.
    repeat split; assumption.
Qed.

Lemma Sorcerer_attack_effects_witness :
  let h := heap_set_char (duel Sorcerer Rogue 100 100 100 100) O
             (with_decision_tree
                (chars (duel Sorcerer Rogue 100 100 100 100) O)
                (Some create_default_tree)) in
  exists s h',
    pick_skill create_default_tree (stats_of (chars h O))
      (stats_of (chars h 1%nat)) = Some s
    /\ attack O h = Ok tt h'
    /\ _sp (chars h' O) = 100 - 15
    /\ _sp (chars h' 1%nat) = 100
    /\ _hp (chars h' 1%nat)
       = match s with
         | SorcererAttack => 100
         | _ => Z.max (100 - (skill_damage s - 10)) 0
         end
    /\ _hp (chars h' O)
       = (if drains_hp s then 100 + (100 - _hp (chars h' 1%nat)) else 100)
    /\ _content (queues h' O)
       = (if is_SorcererSpecial s then [] else [O; 1%nat])
         ++ turns_added s O 1%nat.
Proof.
  apply (Sorcerer_attack_effects
           (heap_set_char (duel Sorcerer Rogue 100 100 100 100) O
              (with_decision_tree
                 (chars (duel Sorcerer Rogue 100 100 100 100) O)
                 (Some create_default_tree)))
           O 1%nat create_default_tree);
    try reflexivity. lia.
Defined.

(** X18: [special_attack] of a sorcerer whose enemy is another character
    and whose queue is a plain [BattleQueue] always returns; it costs 20
    sp, deals 25 less the defense of the enemy, and replaces whatever
    turns were waiting in the queue by the three turns sorcerer, enemy,
    sorcerer. *)
Theorem Sorcerer_special_attack_resets_the_queue (h : Heap) (c t : ref) :
  char_class (chars h c) = Sorcerer ->
  enemy (chars h c) = Some t ->
  t <> c ->
  queue_class (queues h (battle_queue (chars h c))) = BattleQueueClass ->
  exists h',
    special_attack c h = Ok tt h'
    /\ _content (queues h' (battle_queue (chars h c))) = [c; t; c]
    /\ _sp (chars h' c) = _sp (chars h c) - 20
    /\ _hp (chars h' t)
       = Z.max (_hp (chars h t) - (25 - _defense (chars h t))) 0
    /\ _hp (chars h' c) = _hp (chars h c)
    /\ _sp (chars h' t) = _sp (chars h t).
Proof.
  intros Hcls He Hne Hq.
  destruct (SorcererSpecial_effect h c t Hne Hq)
    as (h' & Huse & Hsp & Hspt & Hhpt & Hhpc & Hcont & _).
  exists h'. split; [|auto 6].
  unfold special_attack, bind at 1, get_char.
  unfold bind at 1, skill_of, _skills. cbn [String.eqb Ascii.eqb Bool.eqb].
  rewrite Hcls, He. exact Huse.
Qed.

Lemma Sorcerer_special_attack_resets_the_queue_witness :
  let h := duel Sorcerer Mage 30 50 9 0 in
  exists h',
    special_attack O h = Ok tt h'
    /\ _content (queues h' O) = [O; 1%nat; O]
    /\ _sp (chars h' O) = 50 - 20
    /\ _hp (chars h' 1%nat) = Z.max (9 - (25 - 8)) 0
    /\ _hp (chars h' O) = 30
    /\ _sp (chars h' 1%nat) = 0.
Proof.
  apply (Sorcerer_special_attack_resets_the_queue
           (duel Sorcerer Mage 30 50 9 0) O 1%nat);
    try reflexivity. lia.
Defined.

(** The heap [attack] of character 0 leaves, or [h] itself. *)
Definition after_attack (h : Heap) : Heap :=
  match attack O h with Ok _ h' => h' | _ => h end.


(* ================================================================== *)
(** * What the search writes *)

Section KeepsSearch.
Variable S : Side.

Local Abbreviation keeps := (keeps S).
Local Abbreviation char_in := (char_in S).
Local Abbreviation queue_in := (queue_in S).
Local Abbreviation opt_in := (opt_in S).

Ltac carry Hf :=
  match type of Hf with
  | frame _ ?h ?h1 =>
      repeat match goal with
        | H : char_in h ?c |- _ => apply (char_in_frame S h h1 c Hf) in H
        | H : queue_in h ?q |- _ => apply (queue_in_frame S h h1 q Hf) in H
        | H : opt_in h ?x |- _ => apply (opt_in_frame S h h1 x Hf) in H
        end
  end.

Tactic Notation "after" constr(lem) "as" ident(h1) simple_intropattern(pat) :=
  eapply keeps_bind; [apply lem; assumption|];
  let Hc' := fresh "Hc" in
  let Hf := fresh "Hf" in
  let Hr := fresh "Hr" in
  intros ? h1 Hc' Hf Hr; carry Hf; cbv beta in Hr; revert Hr; intros pat.

(** The character [peek] returns on a queue of the side is of the side,
    and reading it changes nothing. *)
Lemma keeps_peek_is_valid_action (h : Heap) (bq : qref) (action : string) :
  closed S h -> queue_in h bq ->
  keeps h (peek_is_valid_action bq action) (fun _ _ => True).
Proof.
  intros Hc Hq. unfold peek_is_valid_action.
  after keeps_bq_peek as h1 Hp.
  after keeps_deref as h2 (-> & -> & Hin).
  after keeps_read_char as h3 (-> & ->).
  apply keeps_ret; auto.
Qed.

Lemma keeps_peek_get_available_actions (h : Heap) (bq : qref) :
  closed S h -> queue_in h bq ->
  keeps h (peek_get_available_actions bq) (fun _ _ => True).
Proof.
  intros Hc Hq. unfold peek_get_available_actions.
  after keeps_bq_peek as h1 Hp.
  after keeps_deref as h2 (-> & -> & Hin).
  after keeps_read_char as h3 (-> & ->).
  apply keeps_ret; auto.
Qed.

Lemma keeps_hp_of (h : Heap) (x : option ref) :
  closed S h -> opt_in h x ->
  keeps h (c <- deref x ;; get_hp c) (fun _ _ => True).
Proof.
  intros Hc Hx.
  after keeps_deref as h1 (-> & -> & Hin).
  eapply keeps_weaken; [apply keeps_get_hp; assumption|auto].
Qed.

Lemma keeps_over_score (h : Heap) (bq : qref) :
  closed S h -> queue_in h bq ->
  keeps h (over_score bq) (fun _ _ => True).
Proof.
  intros Hc Hq. unfold over_score.
  after keeps_bq_get_winner as h1 Hw.
  match goal with |- context [is_some ?w] => destruct (is_some w) end;
    [|apply keeps_ret; auto].
  after keeps_bq_get_winner as h2 Hw2.
  after keeps_bq_peek as h3 Hp.
  match goal with |- context [option_ref_eqb ?w ?p] =>
    destruct (option_ref_eqb w p) end.
  - after keeps_bq_peek as h4 Hp4. apply keeps_hp_of; assumption.
  - after keeps_bq_get_winner as h4 Hw4.
    after keeps_deref as h5 (-> & -> & Hin).
    after keeps_get_hp as h6 ->.
    apply keeps_ret; auto.
Qed.

Section Moves.
Variable move : ref -> M unit.
Hypothesis keeps_move :
  forall h c, closed S h -> char_in h c -> keeps h (move c) (fun _ _ => True).

Lemma keeps_play (h : Heap) (bq : qref) :
  closed S h -> queue_in h bq -> keeps h (play bq move) (fun _ _ => True).
Proof.
  intros Hc Hq. unfold play.
  after keeps_bq_peek as h1 Hp.
  after keeps_deref as h2 (-> & -> & Hin).
  after keeps_move as h3 _.
  after keeps_peek_get_available_actions as h4 _.
  match goal with |- context [negb ?e] => destruct (negb e) end;
    [|apply keeps_ret; auto].
  after keeps_bq_remove as h5 _. apply keeps_ret; auto.
Qed.

Variable score : qref -> M Z.
Hypothesis keeps_score :
  forall h q, closed S h -> queue_in h q -> keeps h (score q) (fun _ _ => True).

Lemma keeps_score_after (h : Heap) (copy : qref) (before : option ref) :
  closed S h -> queue_in h copy ->
  keeps h (score_after score copy before move) (fun _ _ => True).
Proof.
  intros Hc Hq. unfold score_after.
  after keeps_play as h1 _.
  after keeps_bq_peek as h2 Hp.
  match goal with |- context [option_ref_eqb ?w ?p] =>
    destruct (option_ref_eqb w p) end.
  - apply keeps_score; assumption.
  - after keeps_score as h3 _. apply keeps_ret; auto.
Qed.

End Moves.
(** The recursive evaluator on a queue of the side. *)
Lemma keeps_get_state_score (fuel : nat) (h : Heap) (bq : qref) :
  closed S h -> queue_in h bq ->
  keeps h (get_state_score fuel bq) (fun _ _ => True).
Proof.
  revert h bq. induction fuel as [|fuel IH]; intros h bq Hc Hq;
    cbn [get_state_score]; [exact I|].
  after keeps_bq_is_over as h1 _.
  match goal with |- keeps _ (if ?b then _ else _) _ => destruct b end;
    [apply keeps_over_score; assumption|].
  after keeps_bq_copy as h2 Hq1.
  after keeps_bq_copy as h3 Hq2.
  after keeps_bq_peek as h4 Hp1.
  after keeps_peek_is_valid_action as h5 _.
  apply (keeps_bind S _ _ _ (fun _ _ => True)).
  { match goal with |- keeps _ (if ?b then _ else _) _ => destruct b end;
      [|apply keeps_ret; auto].
    apply keeps_score_after; try assumption.
    intros; apply keeps_special_attack; assumption. }
  intros copy1_score h6 Hc6 Hf6 _. carry Hf6.
  after keeps_bq_peek as h7 Hp2.
  after keeps_peek_is_valid_action as h8 _.
  apply (keeps_bind S _ _ _ (fun _ _ => True)).
  { match goal with |- keeps _ (if ?b then _ else _) _ => destruct b end;
      [|apply keeps_ret; auto].
    apply keeps_score_after; try assumption.
    intros; apply keeps_attack; assumption. }
  intros copy2_score h9 Hc9 Hf9 _. apply keeps_ret; auto.
Qed.

(** [select_attack] works on copies: the queue it is given need not be of
    the side. *)
Lemma keeps_select_attack (score : qref -> M Z) (h : Heap) (bq : qref) :
  (forall h q, closed S h -> queue_in h q ->
               keeps h (score q) (fun _ _ => True)) ->
  closed S h ->
  keeps h (select_attack score bq) (fun _ _ => True).
Proof.
  intros Hscore Hc. unfold select_attack, select_attack_scores.
  apply (keeps_bind S _ _ _ (fun _ _ => True)); [|intros; apply keeps_ret; auto].
  after keeps_bq_copy as h2 Hq1.
  after keeps_bq_copy as h3 Hq2.
  after keeps_bq_peek as h4 Hp1.
  after keeps_peek_is_valid_action as h5 _.
  apply (keeps_bind S _ _ _ (fun _ _ => True)).
  { match goal with |- keeps _ (if ?b then _ else _) _ => destruct b end;
      [|apply keeps_ret; auto].
    apply keeps_score_after; try assumption.
    intros; apply keeps_attack; assumption. }
  intros copy1_score h6 Hc6 Hf6 _. carry Hf6.
  after keeps_bq_peek as h7 Hp2.
  after keeps_peek_is_valid_action as h8 _.
  apply (keeps_bind S _ _ _ (fun _ _ => True)).
  { match goal with |- keeps _ (if ?b then _ else _) _ => destruct b end;
      [|apply keeps_ret; auto].
    apply keeps_score_after; try assumption.
    intros; apply keeps_special_attack; assumption. }
  intros copy2_score h9 Hc9 Hf9 _. apply keeps_ret; auto.
Qed.

(** The [Tree] objects of the iterative evaluator: every node made so far
    holds a queue of the side, and children are nodes made so far. *)
Definition trees_in (h : Heap) (ts : Trees) : Prop :=
  (forall n, (n < next_tree ts)%nat -> queue_in h (state (tree_at ts n)))
  /\ (forall n k, (n < next_tree ts)%nat ->
                  In k (children_list (tree_at ts n)) ->
                  (k < next_tree ts)%nat).

Lemma trees_in_frame (h h1 : Heap) (ts : Trees) :
  frame S h h1 -> trees_in h ts -> trees_in h1 ts.
Proof.
  intros Hf [A B]. split; [|exact B].
  intros n Hn. apply (queue_in_frame S h h1 _ Hf). apply A. exact Hn.
Qed.

Lemma trees_in_new_tree (h : Heap) (ts : Trees) (c : qref) :
  trees_in h ts -> queue_in h c -> trees_in h (snd (new_tree ts c)).
Proof.
  intros [A B] Hc. unfold new_tree, trees_in. cbn [snd tree_at next_tree].
  split.
  - intros n Hn. unfold upd. destruct (Nat.eqb_spec n (next_tree ts));
      [exact Hc|apply A; lia].
  - intros n k Hn. unfold upd. destruct (Nat.eqb_spec n (next_tree ts));
      [intros []|].
    intros Hk. assert ((k < next_tree ts)%nat) by (apply (B n); [lia|exact Hk]).
    lia.
Qed.

Lemma trees_in_set_children (h : Heap) (ts : Trees) (n : nat) (l : list nat) :
  trees_in h ts -> (n < next_tree ts)%nat ->
  (forall k, In k l -> (k < next_tree ts)%nat) ->
  trees_in h (set_children ts n l).
Proof.
  intros [A B] Hn Hl. unfold set_children, trees_in.
  cbn [tree_at next_tree]. split.
  - intros m Hm. unfold upd. destruct (Nat.eqb_spec m n) as [->|_];
      [cbn [state]|]; apply A; assumption.
  - intros m k Hm. unfold upd. destruct (Nat.eqb_spec m n) as [->|_];
      [exact (Hl k)|apply B; exact Hm].
Qed.

Lemma trees_in_set_score (h : Heap) (ts : Trees) (n : nat) (s : Z) :
  trees_in h ts -> trees_in h (set_score ts n s).
Proof.
  intros [A B]. unfold set_score, trees_in. cbn [tree_at next_tree]. split.
  - intros m Hm. unfold upd. destruct (Nat.eqb_spec m n) as [->|_];
      [cbn [state]|]; apply A; assumption.
  - intros m k Hm. unfold upd. destruct (Nat.eqb_spec m n) as [->|_];
      [|apply B; exact Hm].
    unfold children_list. cbn [children]. apply (B n). exact Hm.
Qed.

Lemma keeps_expand_move (h : Heap) (ts : Trees) (removed : nat)
  (action : string) (move : ref -> M unit) :
  (forall h c, closed S h -> char_in h c ->
               keeps h (move c) (fun _ _ => True)) ->
  closed S h -> trees_in h ts -> (removed < next_tree ts)%nat ->
  keeps h (expand_move ts removed action move)
    (fun h' ts' => trees_in h' ts' /\ (next_tree ts <= next_tree ts')%nat).
Proof.
  intros Hmove Hc Hts Hrem. unfold expand_move.
  assert (Hq : queue_in h (state (tree_at ts removed)))
    by (apply Hts; exact Hrem).
  after keeps_peek_is_valid_action as h1 _.
  match goal with |- keeps _ (if ?b then _ else _) _ => destruct b end.
  2:{ apply keeps_ret; [assumption|]. split; [|lia].
      apply (trees_in_frame h); assumption. }
  eapply keeps_bind; [apply keeps_bq_copy; assumption|].
  intros copy h2 Hc2 Hf2 Hcopy. carry Hf2. cbv beta in Hcopy.
  assert (Hts2 : trees_in h2 ts).
  { apply (trees_in_frame h1); [assumption|].
    apply (trees_in_frame h); assumption. }
  pose proof (trees_in_new_tree h2 ts copy Hts2 Hcopy) as Hnew.
  unfold new_tree in *. cbn [snd] in Hnew. cbv iota beta.
  cbn [tree_at next_tree]. rewrite upd_same. cbn [state].
  match type of Hnew with trees_in _ ?t => set (ts1 := t) in * end.
  after keeps_play as h3 _.
  apply keeps_ret; [assumption|]. split; [|cbn; lia].
  assert (Hts3 : trees_in h3 ts1) by (apply (trees_in_frame h2); assumption).
  apply trees_in_set_children; [exact Hts3|cbn; lia|].
  intros k Hk. apply in_app_or in Hk. destruct Hk as [Hk|[<-|[]]];
    [|cbn; lia].
  apply (proj2 Hts3 removed k); [cbn; lia|exact Hk].
Qed.

Lemma keeps_removed_helper (h : Heap) (ts : Trees) (removed : nat) :
  closed S h -> trees_in h ts -> (removed < next_tree ts)%nat ->
  keeps h (removed_helper ts removed)
    (fun h' ts' => trees_in h' ts' /\ (next_tree ts <= next_tree ts')%nat).
Proof.
  intros Hc Hts Hrem. unfold removed_helper.
  assert (Hts0 : trees_in h (set_children ts removed []))
    by (apply trees_in_set_children; [assumption|assumption|intros k []]).
  eapply keeps_bind.
  { apply keeps_expand_move; try assumption.
    intros; apply keeps_attack; assumption. }
  intros ts1 h1 Hc1 Hf1 [Hts1 Hle1]. cbn [set_children next_tree] in Hle1.
  eapply keeps_weaken.
  { apply keeps_expand_move; try assumption; [|lia].
    intros; apply keeps_special_attack; assumption. }
  intros h2 ts2 _ _ [Hts2 Hle2]. split; [exact Hts2|lia].
Qed.

Lemma keeps_type_of (h : Heap) (x : option ref) :
  closed S h -> keeps h (type_of x) (fun h' _ => h' = h).
Proof.
  intros Hc. destruct x as [c|]; cbn [type_of]; [|apply keeps_ret; auto].
  after keeps_read_char as h1 (-> & ->). apply keeps_ret; auto.
Qed.

Lemma keeps_child_scores (ts : Trees) (player : option ref) (l : list nat)
  (h : Heap) :
  closed S h -> trees_in h ts ->
  (forall k, In k l -> (k < next_tree ts)%nat) ->
  keeps h (child_scores ts player l) (fun _ _ => True).
Proof.
  revert h. induction l as [|child rest IH]; intros h Hc Hts Hl;
    cbn [child_scores]; [apply keeps_ret; auto|].
  assert (Hq : queue_in h (state (tree_at ts child)))
    by (apply Hts; apply Hl; left; reflexivity).
  after keeps_bq_peek as h1 Hp.
  after keeps_type_of as h2 ->.
  after keeps_type_of as h3 ->.
  destruct (score (tree_at ts child)); [|apply keeps_raise].
  eapply keeps_bind.
  { apply IH; [assumption|apply (trees_in_frame h); assumption|].
    intros k Hk. apply Hl. right. exact Hk. }
  intros vs h4 Hc4 Hf4 _. apply keeps_ret; auto.
Qed.

Lemma keeps_max_list (h : Heap) (l : list Z) :
  closed S h -> keeps h (max_list l) (fun h' _ => h' = h).
Proof.
  intros Hc. destruct l; [apply keeps_raise|apply keeps_ret; auto].
Qed.

Lemma keeps_iterative_loop (fuel : nat) (h : Heap) (ts : Trees)
  (stack : list nat) :
  closed S h -> trees_in h ts ->
  (forall n, In n stack -> (n < next_tree ts)%nat) ->
  keeps h (iterative_loop fuel ts stack) (fun _ _ => True).
Proof.
  revert h ts stack. induction fuel as [|fuel IH];
    intros h ts [|removed stack] Hc Hts Hst; cbn [iterative_loop];
    try (apply keeps_ret; auto; fail); [exact I|].
  assert (Hrem : (removed < next_tree ts)%nat)
    by (apply Hst; left; reflexivity).
  assert (Hstack : forall n, In n stack -> (n < next_tree ts)%nat)
    by (intros n Hn; apply Hst; right; exact Hn).
  assert (Hq : queue_in h (state (tree_at ts removed)))
    by (apply Hts; exact Hrem).
  cbv zeta.
  after keeps_bq_is_over as h1 _.
  assert (Hts1 : trees_in h1 ts) by (apply (trees_in_frame h); assumption).
  match goal with |- keeps _ (if ?b then _ else _) _ => destruct b end.
  { after keeps_over_score as h2 _.
    apply IH; [assumption| |exact Hstack].
    apply trees_in_set_score. apply (trees_in_frame h1); assumption. }
  destruct (is_nil (children_list (tree_at ts removed))).
  { eapply keeps_bind; [apply keeps_removed_helper; assumption|].
    intros ts2 h2 Hc2 Hf2 [Hts2 Hle]. apply IH; [assumption|exact Hts2|].
    intros n Hn. apply in_app_or in Hn. destruct Hn as [Hn|[<-|Hn]].
    - apply in_rev in Hn. apply (proj2 Hts2 removed n); [lia|exact Hn].
    - lia.
    - specialize (Hstack n Hn). lia. }
  after keeps_bq_peek as h2 Hp.
  eapply keeps_bind.
  { apply keeps_child_scores;
      [assumption|apply (trees_in_frame h1); assumption|].
    intros k Hk. apply (proj2 Hts removed k); assumption. }
  intros vs h3 Hc3 Hf3 _.
  after keeps_max_list as h4 ->.
  apply IH; [assumption| |exact Hstack].
  apply trees_in_set_score. apply (trees_in_frame h2); [assumption|].
  apply (trees_in_frame h1); assumption.
Qed.

(** The iterative evaluator works on a copy: the queue it is given need
    not be of the side. *)
Lemma keeps_iterative_get_score (fuel : nat) (h : Heap) (bq : qref) :
  closed S h -> keeps h (iterative_get_score fuel bq) (fun _ _ => True).
Proof.
  intros Hc. unfold iterative_get_score.
  eapply keeps_bind; [apply keeps_bq_copy; assumption|].
  intros c h1 Hc1 Hf1 Hq. cbv beta in Hq.
  unfold new_tree, no_trees. cbv iota beta. cbn [tree_at next_tree].
  eapply keeps_bind.
  { apply keeps_iterative_loop; [assumption| |].
    - split; cbn [tree_at next_tree].
      + intros n Hn. assert (n = O) by lia. subst n.
        rewrite upd_same. exact Hq.
      + intros n k Hn. assert (n = O) by lia. subst n.
        rewrite upd_same. intros [].
    - intros n [<-|[]]. cbn. lia. }
  intros ts h2 Hc2 Hf2 _.
  destruct (score (tree_at ts O)); [apply keeps_ret; auto|apply keeps_raise].
Qed.


End KeepsSearch.

(** Every object that existed in [h] is in [h'] as it was in [h]. *)
Definition untouched (h h' : Heap) : Prop :=
  (forall c, (c < next_char h)%nat -> chars h' c = chars h c)
  /\ (forall q, (q < next_queue h)%nat -> queues h' q = queues h q).

(** Nothing allocated in [h] belongs to the objects created from [h]
    on. *)
Lemma copy_side_closed_at_start (h : Heap) : closed (copy_side h) h.
Proof.
  unfold closed, char_in, queue_in, copy_side. cbn.
  repeat split; intros; lia.
Qed.

Lemma keeps_untouched {A} (m : M A) (h : Heap) :
  keeps (copy_side h) h m (fun _ _ => True) ->
  wp True m (fun _ h' => untouched h h') h.
Proof.
  intros H. apply (wp_mono True m _ _ h H).
  intros a h' (_ & (Hch & Hqu & _) & _). split.
  - intros c Hc. apply Hch. cbn. lia.
  - intros q Hq. apply Hqu. cbn. lia.
Qed.

(** X19: the search never touches the game it is asked about.  When
    [select_attack] of either minimax playstyle, or the iterative
    evaluator called on its own, returns, every character and every queue
    that existed before the call -- the queue of the game included -- is
    exactly as it was: all moves are tried on copies. *)
Theorem search_leaves_the_game_untouched (fuel : nat) (bq : qref) (h : Heap) :
  wp True (RecursiveMinimax_select_attack fuel bq)
    (fun _ h' => untouched h h') h
  /\ wp True (IterativeMinimax_select_attack fuel bq)
       (fun _ h' => untouched h h') h
  /\ wp True (iterative_get_score fuel bq) (fun _ h' => untouched h h') h.
Proof.
  pose proof (copy_side_closed_at_start h) as Hc.
  split; [|split]; apply keeps_untouched.
  - apply keeps_select_attack; [|exact Hc].
    intros h1 q Hc1 Hq. apply keeps_get_state_score; assumption.
  - apply keeps_select_attack; [|exact Hc].
    intros h1 q Hc1 Hq. apply keeps_iterative_get_score; assumption.
  - apply keeps_iterative_get_score. exact Hc.
Qed.

(* ================================================================== *)
(** * The score of a finished game *)

Section Finished.
Variables (bq : qref) (a b : ref).

(** The score both evaluators give a finished game: the hp of the
    winner, negated when the winner is not the character [peek] returns,
    and 0 when nobody has won. *)
Definition finished_score (h : Heap) : Z :=
  let p := fst (peek (chars h) (queues h bq)) in
  if _hp (chars h a) =? 0 then
    if option_ref_eqb (Some b) p then _hp (chars h b) else - _hp (chars h b)
  else if _hp (chars h b) =? 0 then
    if option_ref_eqb (Some a) p then _hp (chars h a) else - _hp (chars h a)
  else 0.

(** The game on queue [bq] between [a] and [b] is over, with score
    [v]. *)
Definition finished (v : Z) (h : Heap) : Prop :=
  _p1 (queues h bq) = Some a /\ _p2 (queues h bq) = Some b
  /\ is_over (chars h) (queues h bq)
     = inr (true, _clean_queue (chars h) (queues h bq))
  /\ finished_score h = v.

Lemma finished_clean (v : Z) (h : Heap) :
  finished v h ->
  finished v (heap_set_queue h bq (_clean_queue (chars h) (queues h bq))).
Proof.
  intros (H1 & H2 & H3 & H4). unfold finished, finished_score.
  cbn [heap_set_queue chars queues]. rewrite upd_same.
  split; [exact H1|]. split; [exact H2|]. split.
  - pose proof (is_over_clean _ _ _ _ H3) as H.
    rewrite H. f_equal. f_equal. unfold _clean_queue, with_content. cbn.
    rewrite clean_list_idempotent. reflexivity.
  - rewrite peek_clean. exact H4.
Qed.

(** The characters are the same and [peek] returns the same. *)
Definition same_view (h h' : Heap) : Prop :=
  chars h' = chars h
  /\ fst (peek (chars h') (queues h' bq)) = fst (peek (chars h) (queues h bq)).

Lemma same_view_clean (h : Heap) :
  same_view h (heap_set_queue h bq (_clean_queue (chars h) (queues h bq))).
Proof.
  split; [reflexivity|].
  cbn [heap_set_queue chars queues]. rewrite upd_same. apply peek_clean.
Qed.

Lemma same_view_trans (h1 h2 h3 : Heap) :
  same_view h1 h2 -> same_view h2 h3 -> same_view h1 h3.
Proof. intros [A1 B1] [A2 B2]. split; congruence. Qed.

Lemma wp_is_over_finished fail (v : Z) (Q : bool -> Heap -> Prop) (h : Heap) :
  finished v h -> (forall h', finished v h' -> same_view h h' -> Q true h') ->
  wp fail (bq_is_over bq) Q h.
Proof.
  intros Hfin HQ. unfold bq_is_over.
  eapply wp_on_queue; [apply Hfin|].
  apply HQ; [apply finished_clean; exact Hfin|apply same_view_clean].
Qed.

Lemma wp_get_winner_finished fail (v : Z) (Q : option ref -> Heap -> Prop)
  (h : Heap) :
  finished v h ->
  (forall h', finished v h' -> same_view h h' ->
     Q (if _hp (chars h a) =? 0 then Some b
        else if _hp (chars h b) =? 0 then Some a else None) h') ->
  wp fail (bq_get_winner bq) Q h.
Proof.
  intros Hfin HQ. unfold bq_get_winner.
  destruct Hfin as (H1 & H2 & H3 & H4).
  eapply wp_on_queue; [apply (get_winner_over _ _ _ a b H3 H1 H2)|].
  apply HQ; [|apply same_view_clean].
  apply finished_clean. repeat split; assumption.
Qed.

Lemma wp_peek_finished fail (v : Z) (Q : option ref -> Heap -> Prop)
  (h : Heap) :
  finished v h ->
  (forall h', finished v h' -> same_view h h' ->
     Q (fst (peek (chars h) (queues h bq))) h') ->
  wp fail (bq_peek bq) Q h.
Proof.
  intros Hfin HQ. unfold bq_peek.
  eapply wp_on_queue; [rewrite <- surjective_pairing; reflexivity|].
  rewrite peek_state.
  apply HQ; [apply finished_clean; exact Hfin|apply same_view_clean].
Qed.

Lemma wp_over_score_finished (v : Z) (h : Heap) :
  finished v h -> wp False (over_score bq) (fun r _ => r = v) h.
Proof.
  intros Hfin. unfold over_score.
  assert (Hv : finished_score h = v) by apply Hfin.
  unfold finished_score in Hv. cbv zeta in Hv.
  apply wp_bind. apply (wp_get_winner_finished False v _ h Hfin).
  intros h1 Hfin1 [Hch1 Hpk1].
  set (p := fst (peek (chars h) (queues h bq))) in *.
  remember (if _hp (chars h a) =? 0 then Some b
            else if _hp (chars h b) =? 0 then Some a else None) as w eqn:Ew.
  assert (Hscore : v = match w with
                       | Some x => if option_ref_eqb w p
                                   then _hp (chars h x)
                                   else - _hp (chars h x)
                       | None => 0
                       end).
  { rewrite <- Hv, Ew.
    destruct (_hp (chars h a) =? 0); [reflexivity|].
    destruct (_hp (chars h b) =? 0); reflexivity. }
  clear Hv.
  destruct w as [x|]; cbn [is_some]; [|apply wp_ret; auto].
  apply wp_bind. apply (wp_get_winner_finished False v _ h1 Hfin1).
  rewrite Hch1, <- Ew. intros h2 Hfin2 [Hch2 Hpk2].
  apply wp_bind. apply (wp_peek_finished False v _ h2 Hfin2).
  rewrite Hpk2, Hpk1. intros h3 Hfin3 [Hch3 Hpk3].
  destruct (option_ref_eqb (Some x) p) eqn:Heq.
  - apply wp_bind. apply (wp_peek_finished False v _ h3 Hfin3).
    rewrite Hpk3, Hpk2, Hpk1. intros h4 Hfin4 [Hch4 Hpk4].
    destruct p as [c|]; [|discriminate]. cbn in Heq.
    apply Nat.eqb_eq in Heq. subst c.
    apply wp_bind. apply wp_deref. unfold get_hp.
    apply wp_bind. apply wp_get_char. apply wp_ret.
    rewrite Hch4, Hch3, Hch2, Hch1. auto.
  - apply wp_bind. apply (wp_get_winner_finished False v _ h3 Hfin3).
    rewrite Hch3, Hch2, Hch1, <- Ew.
    intros h4 Hfin4 [Hch4 Hpk4].
    apply wp_bind. apply wp_deref. unfold get_hp.
    apply wp_bind. apply wp_bind. apply wp_get_char. apply wp_ret.
    apply wp_ret. rewrite Hch4, Hch3, Hch2, Hch1. lia.
Qed.

End Finished.

(** [is_over] on a queue with both participants. *)
Lemma is_over_value (st : Store) (q : Queue) (a b : ref) :
  _p1 q = Some a -> _p2 q = Some b ->
  is_over st q
  = inr (is_nil (clean_list st (_content q))
         || (_hp (st a) =? 0) || (_hp (st b) =? 0),
         _clean_queue st q).
Proof.
  intros Ha Hb. unfold is_over, is_empty.
  change (_p1 (_clean_queue st q)) with (_p1 q).
  change (_p2 (_clean_queue st q)) with (_p2 q).
  change (_content (_clean_queue st q)) with (clean_list st (_content q)).
  rewrite Ha, Hb. cbn [get_hp_of].
  destruct (is_nil (clean_list st (_content q))); [reflexivity|].
  destruct (_hp (st a) =? 0); [reflexivity|].
  destruct (_hp (st b) =? 0); reflexivity.
Qed.

(** Pruning commutes with a renaming of the characters that keeps what
    each of them can do. *)
Lemma clean_list_map (st st' : Store) (f : ref -> ref) (l : list ref) :
  (forall c, In c l ->
     get_available_actions (st' (f c)) = get_available_actions (st c)) ->
  clean_list st' (map f l) = map f (clean_list st l).
Proof.
  induction l as [|c l IH]; intros H; [reflexivity|].
  cbn [map clean_list]. rewrite (H c (or_introl eq_refl)).
  destruct (is_nil (get_available_actions (st c))); [|reflexivity].
  apply IH. intros x Hx. apply H. right. exact Hx.
Qed.

Lemma clean_list_incl (st : Store) (l : list ref) (c : ref) :
  In c (clean_list st l) -> In c l.
Proof.
  destruct (clean_list_prefix st l) as (pre & Hl & _). intros H.
  rewrite Hl. apply in_or_app. right. exact H.
Qed.

(** A finished game is finished in its copy, with the same score. *)
Lemma finished_copy (h h1 : Heap) (bq q' : qref) (a b : ref) (v : Z) :
  copied_heap h bq a b q' h1 ->
  Forall (fun c => c = a \/ c = b) (_content (queues h bq)) ->
  finished bq a b v h ->
  finished q' (next_char h) (S (next_char h)) v h1.
Proof.
  intros (Hq' & _ & _ & _ & _ & Hc1 & Hc2 & Hst) Hall (H1 & H2 & H3 & H4).
  set (b' := S (next_char h)) in *. set (a' := next_char h) in *.
  set (f := fun c => if option_ref_eqb (Some c) (Some a) then a' else b').
  assert (Hcont : _content (queues h1 q') = map f (_content (queues h bq))).
  { rewrite Hst. cbn [copy_state _content]. rewrite H1. reflexivity. }
  assert (Hha : _hp (chars h1 a') = _hp (chars h a))
    by (rewrite Hc1; reflexivity).
  assert (Hhb : _hp (chars h1 b') = _hp (chars h b))
    by (rewrite Hc2; reflexivity).
  assert (Hacts : forall c, c = a \/ c = b ->
            get_available_actions (chars h1 (f c))
            = get_available_actions (chars h c)).
  { intros c Hc. unfold f. cbn [option_ref_eqb].
    destruct (Nat.eqb_spec c a) as [->|Hne].
    - rewrite Hc1. reflexivity.
    - destruct Hc as [->| ->]; [contradiction|]. rewrite Hc2. reflexivity. }
  assert (Hclean : clean_list (chars h1) (_content (queues h1 q'))
                   = map f (clean_list (chars h) (_content (queues h bq)))).
  { rewrite Hcont. apply clean_list_map. intros c Hc. apply Hacts.
    rewrite Forall_forall in Hall. apply Hall. exact Hc. }
  assert (Hp1 : _p1 (queues h1 q') = Some a') by (rewrite Hst; reflexivity).
  assert (Hp2 : _p2 (queues h1 q') = Some b') by (rewrite Hst; reflexivity).
  split; [exact Hp1|]. split; [exact Hp2|]. split.
  - rewrite (is_over_value _ _ a' b' Hp1 Hp2).
    rewrite (is_over_value _ _ a b H1 H2) in H3.
    rewrite Hclean, Hha, Hhb.
    injection H3 as H3. f_equal. f_equal.
    rewrite <- H3. destruct (clean_list (chars h) (_content (queues h bq)));
      reflexivity.
  - assert (Hpeek : exists c,
              fst (peek (chars h) (queues h bq)) = Some c
              /\ (c = a \/ c = b)
              /\ fst (peek (chars h1) (queues h1 q')) = Some (f c)).
    { unfold peek.
      change (_content (_clean_queue (chars h1) (queues h1 q')))
        with (clean_list (chars h1) (_content (queues h1 q'))).
      change (_content (_clean_queue (chars h) (queues h bq)))
        with (clean_list (chars h) (_content (queues h bq))).
      rewrite Hclean.
      destruct (clean_list (chars h) (_content (queues h bq)))
        as [|c rest] eqn:E; cbn [map fst _clean_queue with_content _p1].
      - exists a. rewrite H1, Hp1. unfold f. cbn [option_ref_eqb].
        rewrite Nat.eqb_refl. auto.
      - exists c. split; [reflexivity|]. split; [|reflexivity].
        rewrite Forall_forall in Hall. apply Hall.
        apply (clean_list_incl (chars h)). rewrite E. left. reflexivity. }
    destruct Hpeek as (c & Hpk & Hc & Hpk').
    rewrite <- H4. unfold finished_score. cbv zeta.
    rewrite Hpk, Hpk', Hha, Hhb. unfold f. cbn [option_ref_eqb].
    assert (Ea : Nat.eqb b' a' = false) by (apply Nat.eqb_neq; unfold a', b'; lia).
    assert (Eb : Nat.eqb a' b' = false) by (apply Nat.eqb_neq; unfold a', b'; lia).
    destruct (Z.eqb_spec (_hp (chars h a)) 0) as [Za|Za];
      [|destruct (Z.eqb_spec (_hp (chars h b)) 0) as [Zb|Zb]; [|reflexivity]];
      destruct (Nat.eqb_spec c a) as [->|Hca];
      rewrite ?Nat.eqb_refl, ?Ea, ?Eb.
    + destruct (Nat.eqb_spec b a) as [->|_]; [lia|reflexivity].
    + destruct Hc as [->| ->]; [contradiction|]. rewrite Nat.eqb_refl.
      reflexivity.
    + reflexivity.
    + destruct Hc as [->| ->]; [contradiction|].
      destruct (Nat.eqb_spec a b) as [->|_]; [contradiction|reflexivity].
Qed.

(** X20: on a finished game both evaluators return, and return the same
    score: the hp of the winner when the winner is the character [peek]
    returns, minus that hp when it is not, and 0 when nobody has won.
    (The queue holds its two participants only; one unit of fuel is
    enough.) *)
Theorem evaluators_agree_on_finished_games (h : Heap) (bq : qref) (a b : ref)
  (q1 : Queue) (fuel fuel' : nat) :
  (bq < next_queue h)%nat -> (a < next_char h)%nat -> (b < next_char h)%nat ->
  _p1 (queues h bq) = Some a -> _p2 (queues h bq) = Some b ->
  Forall (fun c => c = a \/ c = b) (_content (queues h bq)) ->
  is_over (chars h) (queues h bq) = inr (true, q1) ->
  returned (get_state_score (S fuel) bq h) = Some (finished_score bq a b h)
  /\ returned (iterative_get_score (S fuel') bq h)
     = Some (finished_score bq a b h).
Proof.
  intros Hq Ha Hb Hp1 Hp2 Hall Hover.
  assert (Hfin : finished bq a b (finished_score bq a b h) h).
  { split; [exact Hp1|]. split; [exact Hp2|]. split; [|reflexivity].
    rewrite Hover. rewrite (is_over_value _ _ a b Hp1 Hp2) in Hover.
    injection Hover as _ <-. reflexivity. }
  set (v := finished_score bq a b h) in *.
  split; apply wp_returned.
  - cbn [get_state_score].
    apply wp_bind. apply (wp_is_over_finished bq a b False v _ h Hfin).
    intros h1 Hfin1 _. apply (wp_over_score_finished bq a b v h1 Hfin1).
  - unfold iterative_get_score.
    apply wp_bind. apply (wp_bq_copy False bq a b); auto.
    intros q' h1 Hcopied.
    assert (Hfin1 : finished q' (next_char h) (S (next_char h)) v h1)
      by (apply (finished_copy h h1 bq q' a b v); assumption).
    cbn [new_tree no_trees next_tree].
    set (ts := {| tree_at := _; next_tree := _ |}).
    apply wp_bind. cbn [iterative_loop].
    assert (Hts : state (tree_at ts O) = q') by reflexivity.
    rewrite Hts.
    apply wp_bind.
    apply (wp_is_over_finished q' _ _ False v _ h1 Hfin1).
    intros h2 Hfin2 _.
    apply wp_bind.
    eapply wp_mono; [apply (wp_over_score_finished q' _ _ v h2 Hfin2)|].
    intros r h3 Hr. cbv beta in Hr. subst r.
    destruct fuel'; cbn; reflexivity.
Qed.

Lemma evaluators_agree_on_finished_games_witness :
  let h := duel Mage Vampire 0 100 35 100 in
  returned (get_state_score 1 O h) = Some (finished_score O O 1%nat h)
  /\ returned (iterative_get_score 1 O h) = Some (finished_score O O 1%nat h).
Proof.
  apply (evaluators_agree_on_finished_games (duel Mage Vampire 0 100 35 100)
           O O 1%nat two_in_queue O O);
    cbn; try lia; try reflexivity.
  constructor; [left; reflexivity|].
  constructor; [right; reflexivity|constructor].
Defined.

(* ================================================================== *)
(** * a2_playstyle.py: the random playstyle *)

(** [random.choice(seq)]: the entry of [seq] at an index below
    [len(seq)]; [draw] is the number the generator yields. *)
Definition choice (draw : nat) (seq : list string) : string :=
  nth (Nat.modulo draw (List.length seq)) seq "".

(** [RandomPlaystyle.select_attack]. *)
Definition RandomPlaystyle_select_attack (draw : nat) (battle_queue : qref)
  : M string :=
  actions <- peek_get_available_actions battle_queue ;;
  if is_nil actions then ret "X" else ret (choice draw actions).

Lemma choice_in (draw : nat) (seq : list string) :
  seq <> [] -> In (choice draw seq) seq.
Proof.
  intros H. unfold choice. apply nth_In. apply Nat.mod_upper_bound.
  destruct seq; [contradiction|discriminate].
Qed.

(** X21: whatever the generator draws, [RandomPlaystyle.select_attack]
    answers with an action the character [peek] returns can afford; it
    answers ['X'] only when that character has none, which happens only
    when pruning has emptied the sequence.  It changes no character, and
    raises ([AttributeError]) only on a queue nothing was ever added
    to. *)
Theorem RandomPlaystyle_picks_an_affordable_action (draw : nat) (bq : qref)
  (h : Heap) :
  match RandomPlaystyle_select_attack draw bq h with
  | Ok l h' =>
      chars h' = chars h
      /\ exists c,
           fst (peek (chars h) (queues h bq)) = Some c
           /\ if is_nil (get_available_actions (chars h c))
              then l = "X" /\ fst (is_empty (chars h) (queues h bq)) = true
              else is_valid_action (chars h c) l = true
  | Raise e =>
      e = AttributeError /\ fst (peek (chars h) (queues h bq)) = None
  | OutOfFuel => False
  end.
Proof.
  unfold RandomPlaystyle_select_attack, peek_get_available_actions, bq_peek,
    on_queue, bind, set_queue, get_char, ret.
  destruct (peek (chars h) (queues h bq)) as [p q'] eqn:Hpeek.
  cbn [fst chars]. destruct p as [c|]; cbn [deref]; unfold ret, raise;
    cbv beta iota; cbn [chars]; [|auto].
  destruct (get_available_actions (chars h c)) as [|x l] eqn:Hacts;
    cbn [is_nil]; cbv beta iota; cbn [chars];
    (split; [reflexivity|]); exists c; (split; [reflexivity|]);
    rewrite Hacts; cbn [is_nil].
  - split; [reflexivity|]. unfold peek in Hpeek. unfold is_empty. cbn [fst].
    destruct (_content (_clean_queue (chars h) (queues h bq)))
      as [|c0 rest] eqn:E; [reflexivity|].
    injection Hpeek as -> _.
    pose proof (clean_list_head (chars h) _ _ _ E) as Hhead.
    rewrite Hacts in Hhead. discriminate.
  - assert (Hin : In (choice draw (x :: l)) (get_available_actions (chars h c)))
      by (rewrite Hacts; apply choice_in; discriminate).
    unfold get_available_actions in Hin. apply filter_In in Hin. apply Hin.
Qed.

(* ================================================================== *)
(** * The default decision tree *)

(** X22: what the tree of [create_default_tree] picks, for every caster
    and target: [MageAttack] for a caster at 50 hp or less,
    [RogueAttack] up to 90 hp, and above 90 hp [MageSpecial] against a
    target with at most 40 sp, else [MageAttack] for a caster with at
    most 20 sp, else [RogueSpecial] against a target with 30 hp or more
    and [RogueAttack] against a weaker one.  It never picks a vampire or
    sorcerer skill. *)
Theorem default_tree_decision_table (caster target : Stats) :
  pick_skill create_default_tree caster target =
  Some (if stat_hp caster <=? 50 then MageAttack
        else if stat_hp caster <=? 90 then RogueAttack
        else if stat_sp target <=? 40 then MageSpecial
        else if stat_sp caster <=? 20 then MageAttack
        else if 30 <=? stat_hp target then RogueSpecial
        else RogueAttack).
Proof.
  unfold pick_skill, create_default_tree, lowest_priority.
  cbn [pick_skill_helper flat_map is_nil negb orb app].
  unfold f1, f2, f3, f4, f5, f6.
  repeat match goal with
         | |- context [?x <? ?y] => destruct (Z.ltb_spec x y)
         | |- context [?x <=? ?y] => destruct (Z.leb_spec x y)
         end; cbn; try reflexivity; lia.
Qed.

(* ================================================================== *)
(** * The copy of a character *)

(** X23: [copy] of a character (of any class) always returns a new
    object with the same name, class, hp and sp, bound to the queue it is
    given, with a playstyle of the same class bound to that queue and no
    enemy yet; the copy of a sorcerer carries the sorcerer's decision
    tree.  The character copied, every other character and every queue
    are as before. *)
Theorem Character_copy_is_a_new_twin (h : Heap) (self : ref) (nq : qref) :
  (self < next_char h)%nat ->
  exists h',
    Character_copy self nq h = Ok (next_char h) h'
    /\ described (chars h' (next_char h)) = described (chars h self)
    /\ battle_queue (chars h' (next_char h)) = nq
    /\ playstyle (chars h' (next_char h))
       = {| ps_class := ps_class (playstyle (chars h self));
            ps_battle_queue := nq |}
    /\ enemy (chars h' (next_char h)) = None
    /\ decision_tree (chars h' (next_char h))
       = match char_class (chars h self) with
         | Sorcerer => decision_tree (chars h self)
         | _ => None
         end
    /\ (forall c, c <> next_char h -> chars h' c = chars h c)
    /\ queues h' = queues h
    /\ next_char h' = S (next_char h).
Proof.
  intros Hself.
  pose proof (wp_Character_copy False self nq
    (fun c h' =>
       c = next_char h
       /\ chars h' (next_char h) = copy_of (chars h self) nq None
       /\ (forall c, c <> next_char h -> chars h' c = chars h c)
       /\ queues h' = queues h
       /\ next_char h' = S (next_char h)) h Hself
    (fun h' A _ C D E => conj eq_refl (conj E (conj D (conj C A))))) as H.
  unfold wp in H.
  destruct (Character_copy self nq h) as [c h'| |]; try contradiction.
  destruct H as (-> & Hc & Hothers & Hq & Hn).
  exists h'. split; [reflexivity|]. rewrite Hc.
  repeat split; assumption.
Qed.

Lemma Character_copy_is_a_new_twin_witness :
  let h := duel Sorcerer Rogue 70 45 100 100 in
  exists h',
    Character_copy O 5%nat h = Ok 2%nat h'
    /\ described (chars h' 2%nat) = described (chars h O)
    /\ battle_queue (chars h' 2%nat) = 5%nat
    /\ playstyle (chars h' 2%nat)
       = {| ps_class := ps_class (playstyle (chars h O));
            ps_battle_queue := 5%nat |}
    /\ enemy (chars h' 2%nat) = None
    /\ decision_tree (chars h' 2%nat)
       = match char_class (chars h O) with
         | Sorcerer => decision_tree (chars h O)
         | _ => None
         end
    /\ (forall c, c <> 2%nat -> chars h' c = chars h c)
    /\ queues h' = queues h
    /\ next_char h' = 3%nat.
Proof.
  apply (Character_copy_is_a_new_twin (duel Sorcerer Rogue 70 45 100 100)
           O 5%nat).
  cbn. lia.
Defined.
